(** * Email scraper (src/app.js): a shallow embedding and its properties

    The development follows the source file top-down.  JavaScript strings are
    sequences of UTF-16 code units, regular expressions are run by a
    backtracking matcher with the priorities of the ECMAScript one, the
    parsed document is a tree of domhandler-like nodes, and the code that
    talks to the network and to the headless browser runs in a monad that
    threads a trace of observable events and propagates thrown values. *)

From Stdlib Require Import NArith Ascii String List Lia Bool.
From stdpp Require Import base decidable option numbers list sorting.
Import ListNotations.

Set Default Proof Using "Type".

(* ===================================================================== *)
(** * 1. JavaScript strings *)
(* ===================================================================== *)

(** A string value is a finite sequence of 16-bit code units. *)
Definition jsstring := list N.

(** String literals of the source, written in ASCII. *)
Definition js (s : string) : jsstring := map N_of_ascii (list_ascii_of_string s).
Arguments js s%_string.

Definition ch (a : ascii) : N := N_of_ascii a.
Arguments ch a%_char.

Definition between (lo hi c : N) : bool := (lo <=? c)%N && (c <=? hi)%N.

(** [String.prototype.toLowerCase] on the code units of the Basic Latin
    block.  The only receiver in the source is [found[0]], whose code units
    are all in the alphabet of [strictRe] (lemma [strict_alphabet]). *)
Definition lower_unit (c : N) : N :=
  if between (ch "A") (ch "Z") c then (c + 32)%N else c.

Definition toLowerCase (s : jsstring) : jsstring := map lower_unit s.

(** WhiteSpace and LineTerminator code units ([trim], [\s]). *)
Definition white_ranges : list (N * N) :=
  [ (9, 13); (32, 32); (160, 160); (5760, 5760); (8192, 8202);
    (8232, 8233); (8239, 8239); (8287, 8287); (12288, 12288);
    (65279, 65279) ]%N.

Definition in_ranges (rs : list (N * N)) (c : N) : bool :=
  existsb (fun r => between (fst r) (snd r) c) rs.

Definition is_white (c : N) : bool := in_ranges white_ranges c.

Fixpoint trimStart (s : jsstring) : jsstring :=
  match s with
  | c :: s' => if is_white c then trimStart s' else s
  | [] => []
  end.

Definition trimEnd (s : jsstring) : jsstring := rev (trimStart (rev s)).

Definition trim (s : jsstring) : jsstring := trimEnd (trimStart s).

(** [s.split(sep)] for a one-unit separator: the list of segments, never
    empty. *)
Fixpoint split (sep : N) (s : jsstring) : list jsstring :=
  match s with
  | [] => [[]]
  | c :: s' =>
      if (c =? sep)%N then [] :: split sep s'
      else match split sep s' with
           | seg :: segs => (c :: seg) :: segs
           | [] => [[c]]
           end
  end.

(** [xs[0]] and [xs.pop()] on the result of [split]; [undefined] is [None]. *)
Definition first_seg (xs : list jsstring) : option jsstring := head xs.
Definition pop (xs : list jsstring) : option jsstring := last xs.

(** [Array.prototype.join]. *)
Fixpoint join (sep : jsstring) (xs : list jsstring) : jsstring :=
  match xs with
  | [] => []
  | [x] => x
  | x :: xs' => x ++ sep ++ join sep xs'
  end.

(** Decimal rendering of a length, as in a template literal. *)
Fixpoint digits_fuel (fuel : nat) (n : N) (acc : jsstring) : jsstring :=
  match fuel with
  | O => acc
  | S f =>
      let acc' := (48 + n mod 10)%N :: acc in
      if (n <? 10)%N then acc' else digits_fuel f (n / 10)%N acc'
  end.

Definition number_to_string (n : nat) : jsstring :=
  digits_fuel (S n) (N.of_nat n) [].

(* ===================================================================== *)
(** * 2. Regular expressions *)
(* ===================================================================== *)

(** A character class: ranges of code units, possibly negated. *)
Record charset := CharSet { negated : bool; ranges : list (N * N) }.

Definition charset_test (cs : charset) (c : N) : bool :=
  xorb (negated cs) (in_ranges (ranges cs) c).

Definition rng (a b : ascii) : N * N := (ch a, ch b).
Definition one (a : ascii) : N * N := (ch a, ch a).
Arguments rng (a b)%_char.
Arguments one a%_char.

(** The patterns of the source are sequences of single-unit atoms under a
    greedy quantifier, and of assertions. *)
Inductive term :=
| Rep (cs : charset) (min : nat) (max : option nat)  (* atom{min,max}, greedy *)
| WordBoundary                                       (* \b *)
| InputStart                                         (* ^  *)
| InputEnd.                                          (* $  *)

Definition regex := list term.

Definition Lit (c : N) : term := Rep (CharSet false [(c, c)]) 1 (Some 1).
Definition Plus (cs : charset) : term := Rep cs 1 None.
Definition Star (cs : charset) : term := Rep cs 0 None.
Definition lits (s : jsstring) : regex := map Lit s.

(** [\w] *)
Definition word_set : charset :=
  CharSet false [rng "A" "Z"; rng "a" "z"; rng "0" "9"; one "_"].

Definition is_word (c : N) : bool := charset_test word_set c.

(** The position between [prev] (the unit before it, if any) and the rest
    [s] of the input is a word boundary. *)
Definition is_word_boundary (prev : option N) (s : jsstring) : bool :=
  let a := match prev with Some c => is_word c | None => false end in
  let b := match s with c :: _ => is_word c | [] => false end in
  xorb a b.

Definition can_take (max : option nat) : bool :=
  match max with Some O => false | _ => true end.

(** Greedy repetition with backtracking: take one more unit when the class
    and the upper bound allow it and the rest of the pattern then matches;
    otherwise stop here, provided the lower bound is reached.  [acc] holds
    the units taken so far, last first; [k] is the rest of the pattern. *)
Fixpoint rep_greedy {R : Type} (cs : charset)
    (k : jsstring -> option N -> jsstring -> option R)
    (min : nat) (max : option nat) (acc : jsstring)
    (prev : option N) (s : jsstring) : option R :=
  let stop := match min with O => k (rev acc) prev s | S _ => None end in
  match s with
  | c :: s' =>
      if charset_test cs c && can_take max then
        match rep_greedy cs k (Nat.pred min) (Nat.pred <$> max) (c :: acc) (Some c) s' with
        | Some r => Some r
        | None => stop
        end
      else stop
  | [] => stop
  end.

(** Match the whole pattern at the current position.  The result lists the
    text consumed by each term, in order. *)
Fixpoint seq_match (re : regex) (prev : option N) (s : jsstring)
  : option (list jsstring) :=
  match re with
  | [] => Some []
  | Rep cs min max :: re' =>
      rep_greedy cs (fun w prev' s' => cons w <$> seq_match re' prev' s')
                 min max [] prev s
  | WordBoundary :: re' =>
      if is_word_boundary prev s then cons [] <$> seq_match re' prev s else None
  | InputStart :: re' =>
      match prev with
      | None => cons [] <$> seq_match re' prev s
      | Some _ => None
      end
  | InputEnd :: re' =>
      match s with
      | [] => cons [] <$> seq_match re' prev s
      | _ :: _ => None
      end
  end.

(** The result of one successful [exec]: the text skipped before the match,
    the pieces of the match, and the text after it. *)
Record match_result := MatchResult {
  m_before : jsstring;
  m_pieces : list jsstring;
  m_after : jsstring
}.

Definition m_text (m : match_result) : jsstring := concat (m_pieces m).

Definition shift (c : N) (m : match_result) : match_result :=
  MatchResult (c :: m_before m) (m_pieces m) (m_after m).

(** RegExpBuiltinExec from the current position: try every start index in
    increasing order, the end of the input included. *)
Fixpoint exec (re : regex) (prev : option N) (s : jsstring) : option match_result :=
  match seq_match re prev s with
  | Some ps => Some (MatchResult [] ps (drop (length (concat ps)) s))
  | None =>
      match s with
      | [] => None
      | c :: s' => shift c <$> exec re (Some c) s'
      end
  end.

(** [str.match(re)] for a pattern without the [g] flag. *)
Definition str_match (re : regex) (s : jsstring) : option match_result :=
  exec re None s.

(** [str.replace(re, rep)] for a pattern without the [g] flag and a
    replacement text without [$]. *)
Definition replace_first (re : regex) (rep : jsstring) (s : jsstring) : jsstring :=
  match str_match re s with
  | Some m => m_before m ++ rep ++ m_after m
  | None => s
  end.

(** The loop [while ((m = re.exec(str)) !== null) acc.push(m[0])] for a
    pattern with the [g] flag.  [exec] resumes at [lastIndex], the end of the
    previous match; after an empty match [lastIndex] does not move and the
    loop never ends, which is the result [None]. *)
Fixpoint exec_loop_fuel (fuel : nat) (re : regex) (prev : option N) (s : jsstring)
  : option (list jsstring) :=
  match fuel with
  | O => None
  | S fuel' =>
      match exec re prev s with
      | None => Some []
      | Some m =>
          match m_text m with
          | [] => None
          | c :: w =>
              cons (c :: w) <$>
                exec_loop_fuel fuel' re (last (c :: w)) (m_after m)
          end
      end
  end.

Definition exec_loop (re : regex) (s : jsstring) : option (list jsstring) :=
  exec_loop_fuel (S (length s)) re None s.

(** ** The patterns of the source *)

Definition local_set : charset :=
  CharSet false [rng "A" "Z"; rng "a" "z"; rng "0" "9";
                 one "."; one "_"; one "%"; one "+"; one "-"].
Definition domain_set : charset :=
  CharSet false [rng "A" "Z"; rng "a" "z"; rng "0" "9"; one "."; one "-"].
Definition alpha_set : charset := CharSet false [rng "A" "Z"; rng "a" "z"].
Definition space_set : charset := CharSet false white_ranges.

(** [/\b[A-Za-z0-9._%+-]+@[A-Za-z0-9.-]+\.[A-Za-z]{2,}\b/], with flag [g]
    for [looseRe] and without for [strictRe]. *)
Definition email_re : regex :=
  [ WordBoundary; Plus local_set; Lit (ch "@"); Plus domain_set;
    Lit (ch "."); Rep alpha_set 2 None; WordBoundary ].
Definition looseRe : regex := email_re.
Definition strictRe : regex := email_re.

(** The lower-case alphabet of a canonical address. *)
Definition canonical_set : charset :=
  CharSet false [rng "a" "z"; rng "0" "9"; one "."; one "_"; one "%"; one "+";
                 one "-"; one "@"].
Definition canonical_unit (c : N) : bool := charset_test canonical_set c.

(** [/^mailto:/] *)
Definition mailto_re : regex := InputStart :: lits (js "mailto:").

(** [/<title>([^<]+)<\/title>/]; the group is the piece of index 7. *)
Definition title_re : regex :=
  lits (js "<title>") ++ [Plus (CharSet true [one "<"])] ++ lits (js "</title>").
Definition title_group : nat := 7.

(** [/^\uFEFF/] *)
Definition bom_re : regex := [InputStart; Lit 65279%N].

(** [/\/edit.*$/] *)
Definition edit_re : regex :=
  lits (js "/edit") ++ [Star (CharSet true [(10, 10); (13, 13); (8232, 8233)]%N); InputEnd].

(** [/\s*-\s*Google Sheets$/] *)
Definition suffix_re : regex :=
  [Star space_set; Lit (ch "-"); Star space_set] ++ lits (js "Google Sheets")
  ++ [InputEnd].

(* ===================================================================== *)
(** * 3. Built-in functions used by the source *)
(* ===================================================================== *)

(** ** [decodeURIComponent]

    The abstract operation Decode with an empty set of preserved escapes.
    [None] stands for the URIError it throws. *)

Definition hex_val (c : N) : option N :=
  if between (ch "0") (ch "9") c then Some (c - 48)%N
  else if between (ch "A") (ch "F") c then Some (c - 55)%N
  else if between (ch "a") (ch "f") c then Some (c - 87)%N
  else None.

(** An escape [%XX] at the head of the input: its octet and the rest. *)
Definition parse_escape (s : jsstring) : option (N * jsstring) :=
  match s with
  | 37%N :: h :: l :: rest =>
      hv ← hex_val h; lv ← hex_val l; Some (16 * hv + lv, rest)%N
  | _ => None
  end.

Fixpoint read_continuation (n : nat) (s : jsstring) : option (list N * jsstring) :=
  match n with
  | O => Some ([], s)
  | S n' =>
      p ← parse_escape s;
      q ← read_continuation n' p.2;
      Some (p.1 :: q.1, q.2)
  end.

Definition leading_ones (b : N) : nat :=
  if (b <? 128)%N then 0
  else if (b <? 192)%N then 1
  else if (b <? 224)%N then 2
  else if (b <? 240)%N then 3
  else if (b <? 248)%N then 4
  else 5.

Definition is_cont : N -> bool := between 128 191.

(** The code point of a well-formed UTF-8 sequence of two to four octets
    (no overlong form, no surrogate, nothing above U+10FFFF). *)
Definition utf8_decode (octets : list N) : option N :=
  match octets with
  | [b0; b1] =>
      if between 194 223 b0 && is_cont b1
      then Some ((b0 - 192) * 64 + (b1 - 128))%N else None
  | [b0; b1; b2] =>
      if ((b0 =? 224)%N && between 160 191 b1
          || between 225 236 b0 && is_cont b1
          || (b0 =? 237)%N && between 128 159 b1
          || between 238 239 b0 && is_cont b1) && is_cont b2
      then Some ((b0 - 224) * 4096 + (b1 - 128) * 64 + (b2 - 128))%N else None
  | [b0; b1; b2; b3] =>
      if ((b0 =? 240)%N && between 144 191 b1
          || between 241 243 b0 && is_cont b1
          || (b0 =? 244)%N && between 128 143 b1) && is_cont b2 && is_cont b3
      then Some ((b0 - 240) * 262144 + (b1 - 128) * 4096
                 + (b2 - 128) * 64 + (b3 - 128))%N
      else None
  | _ => None
  end.

Definition utf16_encode (v : N) : jsstring :=
  if (v <=? 65535)%N then [v]
  else [((v - 65536) / 1024 + 55296)%N; ((v - 65536) mod 1024 + 56320)%N].

(** One turn of the loop of Decode per unit of fuel; every turn consumes at
    least one code unit, so [length s] turns are enough. *)
Fixpoint decode_fuel (fuel : nat) (s : jsstring) : option jsstring :=
  match s with
  | [] => Some []
  | c :: s' =>
      match fuel with
      | O => None
      | S f =>
          if (c =? 37)%N then
            p ← parse_escape s;
            match leading_ones p.1 with
            | O => cons p.1 <$> decode_fuel f p.2
            | S n' =>
                if bool_decide (n' = 0 ∨ 4 ≤ n') then None
                else
                  q ← read_continuation n' p.2;
                  v ← utf8_decode (p.1 :: q.1);
                  app (utf16_encode v) <$> decode_fuel f q.2
            end
          else cons c <$> decode_fuel f s'
      end
  end.

Definition decodeURIComponent (s : jsstring) : option jsstring :=
  decode_fuel (length s) s.

(** ** [JSON.stringify] on an array of strings *)

Definition dquote : N := 34.
Definition backslash : N := 92.

Definition hex_digit (n : N) : N := if (n <? 10)%N then (48 + n)%N else (87 + n)%N.

Definition unicode_escape (c : N) : jsstring :=
  [backslash; ch "u"; hex_digit (c / 4096); hex_digit (c / 256 mod 16);
   hex_digit (c / 16 mod 16); hex_digit (c mod 16)]%N.

Definition is_lead : N -> bool := between 55296 56319.
Definition is_trail : N -> bool := between 56320 57343.

(** QuoteJSONString, without the enclosing quotes. *)
Fixpoint quote_units (s : jsstring) : jsstring :=
  match s with
  | [] => []
  | c :: s' =>
      if (c =? 8)%N then backslash :: ch "b" :: quote_units s'
      else if (c =? 9)%N then backslash :: ch "t" :: quote_units s'
      else if (c =? 10)%N then backslash :: ch "n" :: quote_units s'
      else if (c =? 12)%N then backslash :: ch "f" :: quote_units s'
      else if (c =? 13)%N then backslash :: ch "r" :: quote_units s'
      else if (c =? dquote)%N then backslash :: dquote :: quote_units s'
      else if (c =? backslash)%N then backslash :: backslash :: quote_units s'
      else if (c <? 32)%N then unicode_escape c ++ quote_units s'
      else if is_lead c then
        match s' with
        | d :: s'' =>
            if is_trail d then c :: d :: quote_units s''
            else unicode_escape c ++ quote_units s'
        | [] => unicode_escape c
        end
      else if is_trail c then unicode_escape c ++ quote_units s'
      else c :: quote_units s'
  end.

Definition quote_json_string (s : jsstring) : jsstring :=
  dquote :: quote_units s ++ [dquote].

Definition JSON_stringify (xs : list jsstring) : jsstring :=
  js "[" ++ join (js ",") (map quote_json_string xs) ++ js "]".

(** ** Objects with string values

    An object is the list of its own properties in insertion order; a key
    occurs once. *)
Definition object := list (jsstring * jsstring).

(** [o[key]] *)
Fixpoint get_prop (key : jsstring) (r : object) : option jsstring :=
  match r with
  | [] => None
  | (k, v) :: r' => if bool_decide (k = key) then Some v else get_prop key r'
  end.

(** [o[key] = value]: an own property keeps its place, a new one comes
    last. *)
Fixpoint set_prop (key value : jsstring) (r : object) : object :=
  match r with
  | [] => [(key, value)]
  | (k, v) :: r' =>
      if bool_decide (k = key) then (k, value) :: r'
      else (k, v) :: set_prop key value r'
  end.

Definition decimal_value (s : jsstring) : N :=
  foldl (fun acc c => (10 * acc + (c - 48))%N) 0%N s.

(** The value of a key that is an array index (a canonical decimal numeral
    below 2^32 - 1). *)
Definition array_index (key : jsstring) : option N :=
  match key with
  | [] => None
  | c :: rest =>
      if forallb (between 48 57) key
         && (negb (c =? 48)%N || bool_decide (rest = []))
         && (decimal_value key <? 4294967295)%N
      then Some (decimal_value key) else None
  end.

Definition index_le (a b : N * jsstring) : Prop := (a.1 <= b.1)%N.

#[global] Instance index_le_dec : RelDecision index_le :=
  fun a b => N.le_dec a.1 b.1.

(** [Object.keys]: array indices in ascending order, then the other keys in
    insertion order. *)
Definition Object_keys (r : object) : list jsstring :=
  let keys := map fst r in
  let indexed :=
    omap (fun k => match array_index k with Some i => Some (i, k) | None => None end)
         keys in
  map snd (merge_sort index_le indexed)
  ++ filter (fun k => array_index k = None) keys.

(** [Object.values], in the order of [Object.keys]. *)
Definition Object_values (o : object) : list jsstring :=
  omap (fun k => get_prop k o) (Object_keys o).

(** ** [Set]: insertion order, no duplicates *)

Definition set_add (x : jsstring) (st : list jsstring) : list jsstring :=
  if bool_decide (x ∈ st) then st else st ++ [x].

Definition set_add_all (xs : list jsstring) (st : list jsstring) : list jsstring :=
  foldl (fun acc x => set_add x acc) st xs.

Definition set_has (x : jsstring) (st : list jsstring) : bool := bool_decide (x ∈ st).

(* ===================================================================== *)
(** * 4. Completions *)
(* ===================================================================== *)

(** A thrown value; the source only reads its [message]. *)
Record error := JsError { message : jsstring }.

(** How the evaluation of a piece of code ends: normally with a value, by
    throwing, or not at all. *)
Inductive completion (A : Type) : Type :=
| Normal (a : A)
| Throw (e : error)
| Diverge.
Arguments Normal {A} a.
Arguments Throw {A} e.
Arguments Diverge {A}.

#[global] Instance completion_ret : MRet completion := fun A a => Normal a.
#[global] Instance completion_bind : MBind completion := fun A B f m =>
  match m with
  | Normal a => f a
  | Throw e => Throw e
  | Diverge => Diverge
  end.

(** [undefined.method(...)] *)
Definition type_error : error :=
  JsError (js "Cannot read properties of undefined").

Definition defined {A} (o : option A) : completion A :=
  match o with Some a => Normal a | None => Throw type_error end.

Definition terminating {A} (o : option A) : completion A :=
  match o with Some a => Normal a | None => Diverge end.

(** [for (const x of xs) { acc = f(acc, x) }] with a body that may throw. *)
Fixpoint for_each {A B} (f : B -> A -> completion B) (xs : list A) (acc : B)
  : completion B :=
  match xs with
  | [] => Normal acc
  | x :: xs' => acc' ← f acc x; for_each f xs' acc'
  end.

(* ===================================================================== *)
(** * 5. The parsed document (cheerio over domhandler nodes) *)
(* ===================================================================== *)

#[warnings="-register-all"] Inductive node :=
| Element (name : jsstring) (attribs : object) (children : list node)
| Text (data : jsstring)
| Comment (data : jsstring)
| Directive (data : jsstring).

(** The children of the root node returned by [cheerio.load]. *)
Definition document := list node.

(** [el.attribs[name]] *)
Definition lookup_attr (name : jsstring) (attribs : object) : option jsstring :=
  get_prop name attribs.

Fixpoint starts_with (prefix s : jsstring) : bool :=
  match prefix, s with
  | [], _ => true
  | p :: prefix', c :: s' => (p =? c)%N && starts_with prefix' s'
  | _ :: _, [] => false
  end.

(** The selectors of the source. *)
Inductive selector :=
| Universal                                              (* [*] *)
| Tag (name : jsstring)                                  (* [name] *)
| TagAttrPrefix (name attr prefix : jsstring)            (* [name[attr^="prefix"]] *)
| Either (s1 s2 : selector).                             (* [s1, s2] *)

Fixpoint sel_matches (sel : selector) (name : jsstring) (attribs : object) : bool :=
  match sel with
  | Universal => true
  | Tag t => bool_decide (name = t)
  | TagAttrPrefix t a p =>
      bool_decide (name = t) &&
      match lookup_attr a attribs with
      | Some v => starts_with p v
      | None => false
      end
  | Either s1 s2 => sel_matches s1 name attribs || sel_matches s2 name attribs
  end.

(** [$(sel)]: the matching elements, in document order. *)
Fixpoint select_node (sel : selector) (n : node) : list node :=
  match n with
  | Element name attribs children =>
      (if sel_matches sel name attribs then [n] else [])
      ++ flat_map (select_node sel) children
  | _ => []
  end.

Definition select (sel : selector) (d : document) : list node :=
  flat_map (select_node sel) d.

(** [$(sel).remove()]: the document without the matching subtrees. *)
Fixpoint remove_node (sel : selector) (n : node) : list node :=
  match n with
  | Element name attribs children =>
      if sel_matches sel name attribs then []
      else [Element name attribs (flat_map (remove_node sel) children)]
  | _ => [n]
  end.

Definition remove (sel : selector) (d : document) : document :=
  flat_map (remove_node sel) d.

(** [textContent] of domutils: the text nodes below, comments left out. *)
Fixpoint textContent (n : node) : jsstring :=
  match n with
  | Element _ _ children => flat_map textContent children
  | Text data => data
  | _ => []
  end.

(** [$(sel).text()] *)
Definition text (els : list node) : jsstring := flat_map textContent els.

(** [$(el).attr(name)] *)
Definition attr (name : jsstring) (el : node) : option jsstring :=
  match el with
  | Element _ attribs _ => lookup_attr name attribs
  | _ => None
  end.

(** [Object.values(el.attribs || {})] *)
Definition attrib_values (el : node) : list jsstring :=
  match el with
  | Element _ attribs _ => Object_values attribs
  | _ => []
  end.

(* ===================================================================== *)
(** * 6. [basicScrape] *)
(* ===================================================================== *)

Definition imageExts : list jsstring :=
  set_add_all [js "png"; js "jpg"; js "jpeg"; js "gif"; js "svg"; js "webp";
               js "bmp"; js "tiff"] [].

(** The callback of the loop over the [mailto:] links. *)
Definition mailto_candidate (el : node) : completion jsstring :=
  href ← defined (attr (js "href") el);
  seg ← defined (first_seg (split (ch "?") (replace_first mailto_re [] href)));
  mret (trim seg).

(** [while ((m = looseRe.exec(str)) !== null) rawSet.add(m[0])] *)
Definition scan (rawSet : list jsstring) (str : jsstring)
  : completion (list jsstring) :=
  found ← terminating (exec_loop looseRe str);
  mret (set_add_all found rawSet).

(** The body of the sanitizing loop: [None] is [continue]. *)
Definition sanitize (raw : jsstring) : option jsstring :=
  let raw :=
    match decodeURIComponent raw with      (* try { ... } catch {} *)
    | Some decoded => decoded
    | None => raw
    end in
  match str_match strictRe raw with
  | None => None
  | Some found =>
      let email := toLowerCase (m_text found) in
      let ext_is_image :=
        match pop (split (ch ".") email) with
        | Some ext => set_has ext imageExts
        | None => false
        end in
      if ext_is_image then None else Some email
  end.

Definition sanitize_all (rawSet : list jsstring) : list jsstring :=
  foldl (fun cleanSet raw =>
           match sanitize raw with
           | Some email => set_add email cleanSet
           | None => cleanSet
           end) [] rawSet.

(** The three harvesting passes over the document once its script and style
    subtrees are removed. *)
Definition harvest (d : document) : completion (list jsstring) :=
  rawSet ← for_each (fun rawSet el => c ← mailto_candidate el; mret (set_add c rawSet))
             (select (TagAttrPrefix (js "a") (js "href") (js "mailto:")) d) [];
  rawSet ← scan rawSet (text (select (Tag (js "body")) d));
  for_each (fun rawSet el => for_each scan (attrib_values el) rawSet)
           (select Universal d) rawSet.

Section Extractor.
(** [cheerio.load]: the parser of the library, total on strings. *)
Variable load : jsstring -> document.

Definition basicScrape (html : jsstring) : completion (list jsstring) :=
  let d := load html in
  let d := remove (Either (Tag (js "script")) (Tag (js "style"))) d in
  rawSet ← harvest d;
  mret (sanitize_all rawSet).
End Extractor.

(* ===================================================================== *)
(** * 7. The environment and the monad of the asynchronous code *)
(* ===================================================================== *)

(** How a call into the environment ends.  Every awaited promise settles:
    [page.goto] is bounded by its 30 s timeout. *)
Inductive outcome (A : Type) : Type :=
| Returns (a : A)
| Rejects (e : error).
Arguments Returns {A} a.
Arguments Rejects {A} e.

Definition page := nat.

(** What [fetch] resolves to: the URL after redirects, the HTTP status and
    what [res.text()] settles to. *)
Record response := Response {
  res_url : jsstring;
  res_status : N;
  res_text : outcome jsstring
}.

(** A row of the table: an object keyed by the column names. *)
Definition record := object.

(** An observable step: a call into the environment with the way it ended,
    or a line on the console. *)
Inductive event :=
| EvFetch (url userAgent : jsstring) (r : outcome response)
| EvLog (msg : jsstring)                          (* console.log *)
| EvWarn (msg : jsstring)                         (* console.warn *)
| EvError (msg : jsstring)                        (* console.error *)
| EvLaunch (r : outcome unit)                     (* puppeteer.launch *)
| EvNewPage (r : outcome page)                    (* browser.newPage *)
| EvSetUserAgent (p : page) (userAgent : jsstring) (r : outcome unit)
| EvGoto (p : page) (url : jsstring) (timeout : N) (r : outcome unit)
| EvContent (p : page) (r : outcome jsstring)
| EvClose (p : page) (r : outcome unit)           (* page.close *)
| EvBrowserClose (r : outcome unit)
| EvWriteFile (name data : jsstring) (r : outcome unit).

Definition trace := list event.

(** The world outside the program.  Each answer may depend on everything
    that happened before. *)
Record environment := Environment {
  cheerio_load : jsstring -> document;
  csv_parse : jsstring -> outcome (list record);
  net_fetch : trace -> jsstring -> outcome response;
  puppeteer_launch : trace -> outcome unit;
  browser_newPage : trace -> outcome unit;
  page_setUserAgent : trace -> page -> outcome unit;
  page_goto : trace -> page -> jsstring -> outcome unit;
  page_content : trace -> page -> outcome jsstring;
  page_close : trace -> page -> outcome unit;
  browser_close : trace -> outcome unit;
  fs_writeFile : trace -> jsstring -> jsstring -> outcome unit
}.

(** A computation over the local variables [S] of the enclosing function
    and the trace.  Assignments made before a throw stay visible. *)
Definition io (S A : Type) : Type := S -> trace -> completion A * S * trace.

#[global] Instance io_ret {S} : MRet (io S) := fun A a s tr => (Normal a, s, tr).
#[global] Instance io_bind {S} : MBind (io S) := fun A B f m s tr =>
  match m s tr with
  | (Normal a, s', tr') => f a s' tr'
  | (Throw e, s', tr') => (Throw e, s', tr')
  | (Diverge, s', tr') => (Diverge, s', tr')
  end.

Definition lift {S A} (c : completion A) : io S A := fun s tr => (c, s, tr).

Definition settled {A} (o : outcome A) : completion A :=
  match o with Returns a => Normal a | Rejects e => Throw e end.

Definition settle {S A} (o : outcome A) : io S A := lift (settled o).

Definition emit {S} (ev : event) : io S unit := fun s tr => (Normal tt, s, tr ++ [ev]).

(** A call into the environment: the answer is decided on the trace so far,
    the call is recorded with it. *)
Definition await {S A} (ev : outcome A -> event) (o : trace -> outcome A) : io S A :=
  fun s tr => (settled (o tr), s, tr ++ [ev (o tr)]).

Definition get {S} : io S S := fun s tr => (Normal s, s, tr).
Definition put {S} (s : S) : io S unit := fun _ tr => (Normal tt, s, tr).

(** [try { body } catch (err) { handler } finally { finalizer }] *)
Definition try_catch_finally {S A} (body : io S A) (handler : error -> io S A)
    (finalizer : io S unit) : io S A :=
  fun s tr =>
    let '(r, s1, tr1) :=
      match body s tr with
      | (Throw e, s1, tr1) => handler e s1 tr1
      | other => other
      end in
    match r with
    | Diverge => (Diverge, s1, tr1)
    | _ =>
        match finalizer s1 tr1 with
        | (Normal _, s2, tr2) => (r, s2, tr2)
        | (Throw e, s2, tr2) => (Throw e, s2, tr2)
        | (Diverge, s2, tr2) => (Diverge, s2, tr2)
        end
    end.

Definition try_catch {S A} (body : io S A) (handler : error -> io S A) : io S A :=
  try_catch_finally body handler (mret tt).

(** A call of a function with its own local variables. *)
Definition scope {S S' A} (init : S') (body : io S' A) : io S A :=
  fun s tr => let '(r, _, tr') := body init tr in (r, s, tr').

Definition when {S} (b : bool) (m : io S unit) : io S unit :=
  if b then m else mret tt.

(** [for (const x of xs) { ... }] collecting the updated elements. *)
Fixpoint for_of {S A B} (f : A -> io S B) (xs : list A) : io S (list B) :=
  match xs with
  | [] => mret []
  | x :: xs' => y ← f x; ys ← for_of f xs'; mret (y :: ys)
  end.

(* ===================================================================== *)
(** * 8. [scrapeEmails] *)
(* ===================================================================== *)

Definition SHEET_EDIT_URL : jsstring :=
  js "https://docs.google.com/spreadsheets/d/1xU0f6p24RBIfxQXAGXT0SDF1HG0urREDjYJKlJTy7WY/edit?gid=0#gid=0".

Definition CSV_URL : jsstring :=
  replace_first edit_re (js "/gviz/tq?tqx=out:csv&gid=0") SHEET_EDIT_URL.

Definition BROWSER_UA : jsstring :=
  js "Mozilla/5.0 (Windows NT 10.0; Win64; x64) " ++
  js "AppleWebKit/537.36 (KHTML, like Gecko) " ++
  js "Chrome/114.0.0.0 Safari/537.36".

(** The pages opened so far number the next one. *)
Definition is_opening (ev : event) : bool :=
  match ev with EvNewPage (Returns _) => true | _ => false end.

Definition fresh_page (tr : trace) : page := length (filter is_opening tr).

(** The local variables [emails] and [page] of [scrapeEmails]. *)
Record scrape_locals := ScrapeLocals {
  v_emails : list jsstring;
  v_page : option page
}.

Definition set_emails (emails : list jsstring) : io scrape_locals unit :=
  fun s tr => (Normal tt, ScrapeLocals emails (v_page s), tr).
Definition set_page (p : page) : io scrape_locals unit :=
  fun s tr => (Normal tt, ScrapeLocals (v_emails s) (Some p), tr).
(** [let page;] *)
Definition let_page : io scrape_locals unit :=
  fun s tr => (Normal tt, ScrapeLocals (v_emails s) None, tr).

(** The lines written to the console. *)
Definition msg_redirected (url finalUrl : jsstring) : jsstring :=
  [8618%N] ++ js " " ++ url ++ js " " ++ [8594%N] ++ js " redirected to " ++ finalUrl.
Definition msg_rendering (finalUrl : jsstring) : jsstring :=
  [8594%N] ++ js " No emails via fetch; rendering " ++ finalUrl
  ++ js " in headless browser" ++ [8230%N].
Definition msg_puppeteer_error (finalUrl : jsstring) (err : error) : jsstring :=
  [9888%N] ++ js " Puppeteer error on " ++ finalUrl ++ js ": " ++ message err.
Definition msg_found (url : jsstring) (n : nat) : jsstring :=
  [10004%N] ++ js " " ++ url ++ js " " ++ [8594%N] ++ js " "
  ++ number_to_string n ++ js " email(s)".
Definition msg_failed (url : jsstring) (err : error) : jsstring :=
  [10006%N] ++ js " " ++ url ++ js " failed: " ++ message err.
Definition msg_no_data : jsstring := js "No data found in CSV.".
Definition msg_default_filename (outFilename : jsstring) : jsstring :=
  js "Could not fetch sheet title; using default filename: " ++ outFilename.
Definition msg_done (outFilename : jsstring) : jsstring :=
  [10%N; 9989%N] ++ js " Done! Output written to " ++ outFilename.

Section Program.
Variable env : environment.

Definition fetch {S} (url : jsstring) : io S response :=
  await (EvFetch url BROWSER_UA) (fun tr => net_fetch env tr url).

Definition console_log {S} (msg : jsstring) : io S unit := emit (EvLog msg).
Definition console_warn {S} (msg : jsstring) : io S unit := emit (EvWarn msg).
Definition console_error {S} (msg : jsstring) : io S unit := emit (EvError msg).

Definition newPage {S} : io S page :=
  await EvNewPage
    (fun tr => match browser_newPage env tr with
               | Returns _ => Returns (fresh_page tr)
               | Rejects e => Rejects e
               end).

Definition setUserAgent {S} (p : page) (ua : jsstring) : io S unit :=
  await (EvSetUserAgent p ua) (fun tr => page_setUserAgent env tr p).
Definition goto {S} (p : page) (url : jsstring) (timeout : N) : io S unit :=
  await (EvGoto p url timeout) (fun tr => page_goto env tr p url).
Definition content {S} (p : page) : io S jsstring :=
  await (EvContent p) (fun tr => page_content env tr p).
Definition close {S} (p : page) : io S unit :=
  await (EvClose p) (fun tr => page_close env tr p).

(** The [try]/[catch]/[finally] statement of [scrapeEmails]. *)
Definition render_fallback (finalUrl : jsstring) : io scrape_locals unit :=
  let_page;;
  try_catch_finally
    (p ← newPage;
     set_page p;;
     setUserAgent p BROWSER_UA;;
     goto p finalUrl 30000;;
     rendered ← content p;
     emails ← lift (basicScrape (cheerio_load env) rendered);
     set_emails emails)
    (fun err => console_warn (msg_puppeteer_error finalUrl err))
    (s ← get;
     match v_page s with
     | Some p => close p
     | None => mret tt
     end).

Definition scrapeEmails_body (url : jsstring) : io scrape_locals (list jsstring) :=
  res ← fetch url;
  let finalUrl := res_url res in
  when (bool_decide (finalUrl ≠ url)) (console_log (msg_redirected url finalUrl));;
  html ← settle (res_text res);
  emails ← lift (basicScrape (cheerio_load env) html);
  set_emails emails;;
  when (bool_decide (length emails = 0))
    (console_log (msg_rendering finalUrl);;
     render_fallback finalUrl);;
  s ← get;
  mret (v_emails s).

Definition scrapeEmails {S} (url : jsstring) : io S (list jsstring) :=
  scope (ScrapeLocals [] None) (scrapeEmails_body url).
End Program.

(* ===================================================================== *)
(** * 9. The batch driver (the main IIFE) *)
(* ===================================================================== *)

(** ** Output cells *)

(** [escapeCell]: every double quote of the value is doubled and the cell
    is wrapped in double quotes. *)
Definition escapeCell (v : jsstring) : jsstring :=
  dquote :: flat_map (fun c => if (c =? dquote)%N then [dquote; dquote] else [c]) v
  ++ [dquote].

(** The inverse reading of a cell by a consumer of the table: drop the
    wrapping quotes and halve the doubled ones. *)
Fixpoint undouble (s : jsstring) : option jsstring :=
  match s with
  | [] => None
  | c :: s' =>
      if (c =? dquote)%N then
        match s' with
        | [] => Some []
        | d :: s'' => if (d =? dquote)%N then cons dquote <$> undouble s'' else None
        end
      else cons c <$> undouble s'
  end.

Definition unescapeCell (cell : jsstring) : option jsstring :=
  match cell with
  | c :: body => if (c =? dquote)%N then undouble body else None
  | [] => None
  end.

(** [rec[h] ?? ''] *)
Definition cell_value (r : record) (h : jsstring) : jsstring :=
  default [] (get_prop h r).

Definition csv_cells (finalHeaders : list jsstring) (r : record) : list jsstring :=
  map (fun h => escapeCell (cell_value r h)) finalHeaders.

Definition csv_row (finalHeaders : list jsstring) (r : record) : jsstring :=
  join (js ",") (csv_cells finalHeaders r).

(** Step E: the lines of the output table. *)
Definition csv_lines (records : list record) : completion (list jsstring) :=
  first ← defined (head records);          (* Object.keys(records[0]) *)
  let originalHeaders := Object_keys first in
  let finalHeaders := originalHeaders ++ [js "emails"] in
  mret (join (js ",") finalHeaders :: map (csv_row finalHeaders) records).

Definition ERROR_MARKER : jsstring := dquote :: js "ERROR" ++ [dquote].

(** [!url] *)
Definition falsy (v : option jsstring) : bool :=
  match v with
  | None | Some [] => true
  | Some (_ :: _) => false
  end.

Section Batch.
Variable env : environment.

(** Step B: the output filename, from the [<title>] of the edit page. *)
Definition title_step : io jsstring jsstring :=
  try_catch
    (r ← fetch env SHEET_EDIT_URL;
     htmlDoc ← settle (res_text r);
     match str_match title_re htmlDoc with
     | Some titleMatch =>
         title ← lift (defined (m_pieces titleMatch !! title_group));
         put (replace_first suffix_re [] title ++ js ".csv")
     | None => mret tt
     end)
    (fun err =>
       outFilename ← get;
       console_warn (msg_default_filename outFilename));;
  get.

Definition outFilename_step {S} : io S jsstring :=
  scope (js "output.csv") title_step.

(** The body of the loop of step D; the result is the record with its
    [emails] property set. *)
Definition process_record {S} (rec : record) : io S record :=
  let url := get_prop (js "website") rec in
  if falsy url then mret (set_prop (js "emails") (js "[]") rec)
  else
    let url := default [] url in
    try_catch
      (emails ← scrapeEmails env url;
       console_log (msg_found url (length emails));;
       mret (set_prop (js "emails") (JSON_stringify emails) rec))
      (fun err =>
         console_error (msg_failed url err);;
         mret (set_prop (js "emails") ERROR_MARKER rec)).

Definition main : io unit unit :=
  (* A *)
  resp ← fetch env CSV_URL;
  body ← settle (res_text resp);
  let rawCsv := replace_first bom_re [] body in
  records ← settle (csv_parse env rawCsv);
  if bool_decide (length records = 0) then
    console_error msg_no_data
  else
    (* B *)
    outFilename ← outFilename_step;
    (* C *)
    await EvLaunch (puppeteer_launch env);;
    (* D *)
    records ← for_of process_record records;
    await EvBrowserClose (browser_close env);;
    (* E *)
    lines ← lift (csv_lines records);
    let data := join [10%N] lines in
    await (EvWriteFile outFilename data)
          (fun tr => fs_writeFile env tr outFilename data);;
    console_log (msg_done outFilename).
End Batch.

(** ** The sentence of the specification about the filename, as worded *)

(** Following the words of the specification: the text of the [<title>]
    element, without a trailing [" - Google Sheets"], followed by [".csv"]. *)
Fixpoint strip_suffix (suffix s : jsstring) : jsstring :=
  if bool_decide (s = suffix) then []
  else match s with
       | [] => []
       | c :: s' => c :: strip_suffix suffix s'
       end.

Definition spec_filename (title : jsstring) : jsstring :=
  strip_suffix (js " - Google Sheets") title ++ js ".csv".

(* ===================================================================== *)
(** * 10. Specifications and sample data *)
(* ===================================================================== *)

(** ** What a match is, independently of the search order *)

Definition last_or (prev : option N) (w : jsstring) : option N :=
  match last w with Some c => Some c | None => prev end.

Definition within (max : option nat) (n : nat) : Prop :=
  match max with Some m => n ≤ m | None => True end.

(** [matches re prev s ps rest]: at a position preceded by [prev], the
    pattern [re] can consume the pieces [ps] of the input [s] and leave
    [rest]. *)
Inductive matches : regex -> option N -> jsstring -> list jsstring -> jsstring -> Prop :=
| matches_nil prev s :
    matches [] prev s [] s
| matches_rep cs min max re prev w s ps rest :
    Forall (fun c => charset_test cs c = true) w ->
    min ≤ length w ->
    within max (length w) ->
    matches re (last_or prev w) s ps rest ->
    matches (Rep cs min max :: re) prev (w ++ s) (w :: ps) rest
| matches_boundary re prev s ps rest :
    is_word_boundary prev s = true ->
    matches re prev s ps rest ->
    matches (WordBoundary :: re) prev s ([] :: ps) rest
| matches_start re s ps rest :
    matches re None s ps rest ->
    matches (InputStart :: re) None s ([] :: ps) rest
| matches_end re prev ps rest :
    matches re prev [] ps rest ->
    matches (InputEnd :: re) prev [] ([] :: ps) rest.

(** The pieces of a literal text: one per code unit. *)
Definition units (a : jsstring) : list jsstring := map (fun c => [c]) a.

(** [occurs_at re s i w]: the text [w] is a match of [re] in [s] starting at
    index [i]. *)
Definition occurs_at (re : regex) (s : jsstring) (i : nat) (w : jsstring) : Prop :=
  ∃ ps, concat ps = w ∧
        matches re (last (take i s)) (drop i s) ps (drop (length w) (drop i s)) ∧
        i ≤ length s.

(** ** Documents that differ only inside script and style subtrees *)

Definition is_script_or_style (name : jsstring) : bool :=
  bool_decide (name = js "script") || bool_decide (name = js "style").

(** [script_variant d1 d2]: the two documents are the same apart from their
    script and style elements, which may be anything on either side, or
    missing. *)
Inductive script_variant : document -> document -> Prop :=
| variant_nil :
    script_variant [] []
| variant_left name attribs children d1 d2 :
    is_script_or_style name = true ->
    script_variant d1 d2 ->
    script_variant (Element name attribs children :: d1) d2
| variant_right name attribs children d1 d2 :
    is_script_or_style name = true ->
    script_variant d1 d2 ->
    script_variant d1 (Element name attribs children :: d2)
| variant_element name attribs c1 c2 d1 d2 :
    is_script_or_style name = false ->
    script_variant c1 c2 ->
    script_variant d1 d2 ->
    script_variant (Element name attribs c1 :: d1) (Element name attribs c2 :: d2)
| variant_text data d1 d2 :
    script_variant d1 d2 -> script_variant (Text data :: d1) (Text data :: d2)
| variant_comment data d1 d2 :
    script_variant d1 d2 -> script_variant (Comment data :: d1) (Comment data :: d2)
| variant_directive data d1 d2 :
    script_variant d1 d2 -> script_variant (Directive data :: d1) (Directive data :: d2).

(** ** Sample documents *)

Definition el (name : string) (attribs : object) (children : list node) : node :=
  Element (js name) attribs children.
Arguments el name%_string attribs children.

Definition at_ (name value : string) : jsstring * jsstring := (js name, js value).
Arguments at_ (name value)%_string.

Definition page_of (body : list node) : document :=
  [el "html" [] [el "head" [] []; el "body" [] body]].

(** Body text with the same address in two spellings. *)
Definition case_doc : document :=
  page_of [Text (js "Write to A@B.com or to a@b.com")].

(** An address in the body, others inside a script and a style element. *)
Definition script_doc : document :=
  [el "html" []
     [el "head" [] [el "script" [at_ "data-owner" "attr@script.com"]
                      [Text (js "var owner = 'hidden@script.com';")]];
      el "body" []
        [Text (js "Contact: a@b.com");
         el "style" [] [Text (js ".x::after { content: 'css@style.org' }")]]]].

Definition script_doc_stripped : document :=
  [el "html" [] [el "head" [] []; el "body" [] [Text (js "Contact: a@b.com")]]].

(** A link to two recipients. *)
Definition two_recipients : jsstring := js "a@b.co,longer@example.com".

(** ** Events and traces *)

(** The events of the rendering context. *)
Definition is_page_event (ev : event) : bool :=
  match ev with
  | EvNewPage _ | EvSetUserAgent _ _ _ | EvGoto _ _ _ _ | EvContent _ _ | EvClose _ _ => true
  | _ => false
  end.

(** The line logged when the final URL differs from the requested one. *)
Definition redirect_log (url : jsstring) (res : response) : list event :=
  if bool_decide (res_url res ≠ url)
  then [EvLog (msg_redirected url (res_url res))] else [].

(** Every way the render fallback can run, by the first call that rejects:
    the new events, how the statement completes and the value of [emails]
    after it. *)
Inductive fallback_path (load : jsstring -> document) (finalUrl : jsstring)
    (emails0 : list jsstring) (p : page) :
  list event -> completion unit -> list jsstring -> Prop :=
| path_no_page err :
    fallback_path load finalUrl emails0 p
      [EvNewPage (Rejects err); EvWarn (msg_puppeteer_error finalUrl err)]
      (Normal tt) emails0
| path_failed evs err c :
    evs = [EvSetUserAgent p BROWSER_UA (Rejects err)]
    ∨ evs = [EvSetUserAgent p BROWSER_UA (Returns tt);
             EvGoto p finalUrl 30000 (Rejects err)]
    ∨ evs = [EvSetUserAgent p BROWSER_UA (Returns tt);
             EvGoto p finalUrl 30000 (Returns tt);
             EvContent p (Rejects err)] ->
    fallback_path load finalUrl emails0 p
      (EvNewPage (Returns p) :: evs
         ++ [EvWarn (msg_puppeteer_error finalUrl err); EvClose p c])
      (settled c) emails0
| path_rendered rendered emails c :
    basicScrape load rendered = Normal emails ->
    fallback_path load finalUrl emails0 p
      [EvNewPage (Returns p); EvSetUserAgent p BROWSER_UA (Returns tt);
       EvGoto p finalUrl 30000 (Returns tt); EvContent p (Returns rendered);
       EvClose p c]
      (settled c) emails.

(** ** Sample environments *)

(** The parse of a markup without tags: its text, in the body. *)
Definition text_load (html : jsstring) : document := page_of [Text html].

(** An environment whose browser always opens and closes pages, with given
    answers for the sites, the navigation and the rendered content. *)
Definition sample_env (load : jsstring -> document)
    (site : jsstring -> outcome response) (navigation : outcome unit)
    (rendered : jsstring) (records : list record) : environment :=
  {| cheerio_load := load;
     csv_parse := fun _ => Returns records;
     net_fetch := fun _ url => site url;
     puppeteer_launch := fun _ => Returns tt;
     browser_newPage := fun _ => Returns tt;
     page_setUserAgent := fun _ _ => Returns tt;
     page_goto := fun _ _ _ => navigation;
     page_content := fun _ _ => Returns rendered;
     page_close := fun _ _ => Returns tt;
     browser_close := fun _ => Returns tt;
     fs_writeFile := fun _ _ _ => Returns tt |}.

Definition ok_response (url body : jsstring) : outcome response :=
  Returns (Response url 200 (Returns body)).

(** A site that redirects to a page whose addresses only appear once it is
    rendered. *)
Definition redirecting_site (url : jsstring) : outcome response :=
  ok_response (js "https://new.example/") (js "Loading").

Definition env_rendered : environment :=
  sample_env text_load redirecting_site (Returns tt) (js "contact@example.org") [].

Definition timeout_error : error := JsError (js "Navigation timeout of 30000 ms exceeded").

Definition env_timeout : environment :=
  sample_env text_load redirecting_site (Rejects timeout_error) [] [].

(** A site whose static body already holds an address. *)
Definition env_static : environment :=
  sample_env text_load (fun url => ok_response url (js "Mail info@example.com"))
             (Returns tt) [] [].

(** ** A sample batch *)

(** A page with one link; attribute values need no quotes in HTML. *)
Definition mailto_html : jsstring :=
  js "<a href=mailto:sales@up.example?subject=hi>Write to us</a>".

Definition mailto_doc : document :=
  page_of [el "a" [at_ "href" "mailto:sales@up.example?subject=hi"]
                  [Text (js "Write to us")]].

Definition sample_load (html : jsstring) : document :=
  if bool_decide (html = mailto_html) then mailto_doc else text_load html.

Definition fetch_failed : error := JsError (js "fetch failed").

Definition up_record : record :=
  [(js "name", js "Up"); (js "website", js "http://up.example")].
Definition down_record : record :=
  [(js "name", js "Down"); (js "website", js "http://down.example")].

(** The sheet, its edit page and one site answer; every other request
    fails. *)
Definition batch_site (url : jsstring) : outcome response :=
  if bool_decide (url = CSV_URL) then ok_response url (js "name,website")
  else if bool_decide (url = SHEET_EDIT_URL) then
    ok_response url (js "<html><head><title>Leads - Google Sheets</title></head></html>")
  else if bool_decide (url = js "http://up.example") then ok_response url mailto_html
  else Rejects fetch_failed.

Definition env_batch : environment :=
  sample_env sample_load batch_site (Returns tt) [] [up_record; down_record].

(** A site that answers every request with status 404 and a short body. *)
Definition env_404 : environment :=
  sample_env text_load
    (fun url => Returns (Response url 404 (Returns (js "Not Found"))))
    (Returns tt) (js "Not Found") [].

(** ** The title of the edit page *)

(** [title_at html i t]: at index [i] of the page stands [<title>], the
    non-empty text [t] without [<], and [</title>]. *)
Definition title_at (html : jsstring) (i : nat) (t : jsstring) : Prop :=
  ∃ pre post,
    html = pre ++ js "<title>" ++ t ++ js "</title>" ++ post ∧
    length pre = i ∧ t ≠ [] ∧ ch "<" ∉ t.

(** A text of the form: white space, a hyphen, white space, [Google Sheets]. *)
Definition sheet_suffix (w : jsstring) : Prop :=
  ∃ ws1 ws2,
    w = ws1 ++ js "-" ++ ws2 ++ js "Google Sheets" ∧
    Forall (fun c => is_white c = true) ws1 ∧
    Forall (fun c => is_white c = true) ws2.

(** [stripped_title t base]: [base] is [t] without its longest trailing
    [sheet_suffix], or [t] itself when it has none. *)
Definition stripped_title (t base : jsstring) : Prop :=
  (∃ w, t = base ++ w ∧ sheet_suffix w ∧
        ∀ base' w', t = base' ++ w' -> sheet_suffix w' -> length base ≤ length base')
  ∨ (base = t ∧ ∀ base' w', t = base' ++ w' -> ¬ sheet_suffix w').

(** An edit page with a given title. *)
Definition title_page (title : jsstring) : jsstring :=
  js "<html><head><title>" ++ title ++ js "</title></head><body></body></html>".

Definition env_title (title : jsstring) : environment :=
  sample_env text_load (fun url => ok_response url (title_page title)) (Returns tt) [] [].

Definition env_offline : environment :=
  sample_env text_load (fun _ => Rejects fetch_failed) (Returns tt) [] [].

(** ** Where the raw candidates come from *)

Definition script_style : selector := Either (Tag (js "script")) (Tag (js "style")).
Definition mailto_links : selector := TagAttrPrefix (js "a") (js "href") (js "mailto:").

(** [raw_candidate d raw]: one of the three passes over the document [d]
    puts [raw] into the pool. *)
Definition raw_candidate (d : document) (raw : jsstring) : Prop :=
  (∃ link, link ∈ select mailto_links d ∧ mailto_candidate link = Normal raw)
  ∨ (∃ found, exec_loop looseRe (text (select (Tag (js "body")) d)) = Some found ∧
              raw ∈ found)
  ∨ (∃ elem value found,
       elem ∈ select Universal d ∧ value ∈ attrib_values elem ∧
       exec_loop looseRe value = Some found ∧ raw ∈ found).

(** The part of a text before the first occurrence of a code unit. *)
Fixpoint before (sep : N) (s : jsstring) : jsstring :=
  match s with
  | [] => []
  | c :: s' => if (c =? sep)%N then [] else c :: before sep s'
  end.

(** ** What a run does *)

(** The URLs requested with [fetch], in order. *)
Definition fetched (evs : list event) : list jsstring :=
  flat_map (fun ev => match ev with EvFetch url _ _ => [url] | _ => [] end) evs.

(** The non-empty values of the [website] column, in order. *)
Definition websites (records : list record) : list jsstring :=
  flat_map (fun rec => match get_prop (js "website") rec with
                       | Some (c :: url) => [c :: url]
                       | _ => []
                       end) records.

Definition is_newpage_event (ev : event) : bool :=
  match ev with EvNewPage _ => true | _ => false end.

Definition is_launch_event (ev : event) : bool :=
  match ev with EvLaunch _ => true | _ => false end.

Definition is_write_event (ev : event) : bool :=
  match ev with EvWriteFile _ _ _ => true | _ => false end.

(** What the processing of one record may do: requests and page calls with
    the browser-like user agent and the 30 s bound, and console lines; it
    never launches or closes the browser and never writes a file. *)
Definition record_event (ev : event) : Prop :=
  match ev with
  | EvFetch _ ua _ | EvSetUserAgent _ ua _ => ua = BROWSER_UA
  | EvGoto _ _ t _ => t = 30000%N
  | EvLog _ | EvWarn _ | EvError _ | EvNewPage _ | EvContent _ _ | EvClose _ _ => True
  | EvLaunch _ | EvBrowserClose _ | EvWriteFile _ _ _ => False
  end.

(** The same for the whole run, where the browser and the file system are
    used. *)
Definition polite (ev : event) : Prop :=
  match ev with
  | EvFetch _ ua _ | EvSetUserAgent _ ua _ => ua = BROWSER_UA
  | EvGoto _ _ t _ => t = 30000%N
  | _ => True
  end.

(** The JSON texts the loop stores in the [emails] property. *)
Definition emails_value (v : jsstring) : Prop :=
  v = js "[]" ∨ v = ERROR_MARKER ∨ ∃ emails, v = JSON_stringify emails.

(** ** Reading a row of the output table *)

Inductive row_state :=
| CellStart       (* an opening quote is expected *)
| InCell          (* inside the quotes *)
| QuoteSeen.      (* after a quote inside a cell: doubled, or the end of the cell *)

(** A reader of rows whose cells are all quoted: [cur] is the current cell
    and [cells] the finished ones, both last first. *)
Fixpoint read_row_from (st : row_state) (cur : jsstring) (cells : list jsstring)
    (s : jsstring) : option (list jsstring) :=
  match s with
  | [] =>
      match st with
      | QuoteSeen => Some (rev (rev cur :: cells))
      | _ => None
      end
  | c :: s' =>
      match st with
      | CellStart =>
          if (c =? dquote)%N then read_row_from InCell [] cells s' else None
      | InCell =>
          if (c =? dquote)%N then read_row_from QuoteSeen cur cells s'
          else read_row_from InCell (c :: cur) cells s'
      | QuoteSeen =>
          if (c =? dquote)%N then read_row_from InCell (dquote :: cur) cells s'
          else if (c =? ch ",")%N then read_row_from CellStart [] (rev cur :: cells) s'
          else None
      end
  end.

Definition read_row (line : jsstring) : option (list jsstring) :=
  read_row_from CellStart [] [] line.

(** ** More sample data *)

Definition body_error : error := JsError (js "terminated").

(** A site that answers, but whose body cannot be read. *)
Definition env_unreadable : environment :=
  sample_env text_load (fun url => Returns (Response url 200 (Rejects body_error)))
             (Returns tt) [] [].

(** An empty sheet. *)
Definition env_empty : environment :=
  sample_env text_load (fun url => ok_response url []) (Returns tt) [] [].

(** A record with a comma, a quote and a line break in its values. *)
Definition awkward_record : record :=
  [(js "name", js "Doe, Jane" ++ [dquote; 10%N] ++ js "x");
   (js "emails", js "[]")].

(** ** The shape of a reported address *)

Definition lower_letter (c : N) : bool := between (ch "a") (ch "z") c.

(** A local part without [@], a domain, a dot and a final part of at least
    two lower-case letters that is not an image extension. *)
Definition address_shape (e : jsstring) : Prop :=
  ∃ l d t,
    e = l ++ js "@" ++ d ++ js "." ++ t ∧
    l ≠ [] ∧ (ch "@" ∉ l) ∧ d ≠ [] ∧
    2 ≤ length t ∧ Forall (fun c => lower_letter c = true) t ∧
    t ∉ imageExts.

(** [whole_address w]: the text [w], taken alone, is from its first to its
    last code unit a match of the pattern. *)
Definition whole_address (w : jsstring) : Prop := occurs_at strictRe w 0 w.

(** ** What the sanitizing step keeps, stated on the candidate *)

(** The candidate as the strict pattern sees it: percent-decoded when it
    can be, as it is otherwise. *)
Definition decoded (raw : jsstring) : jsstring :=
  default raw (decodeURIComponent raw).

(** [leftmost_longest re s i w]: no match of [re] in [s] starts before
    index [i], and [w] is the longest one starting there. *)
Definition leftmost_longest (re : regex) (s : jsstring) (i : nat) (w : jsstring) : Prop :=
  occurs_at re s i w ∧
  (∀ j w', occurs_at re s j w' -> i ≤ j) ∧
  (∀ w', occurs_at re s i w' -> length w' ≤ length w).

(** A name that ends in a dot and one of the image extensions. *)
Definition image_name (e : jsstring) : Prop :=
  ∃ x ext, ext ∈ imageExts ∧ e = x ++ js "." ++ ext.

(** [kept raw e]: [e] is the lower-cased leftmost match of the strict
    pattern in the decoded candidate, and is not an image name. *)
Definition kept (raw e : jsstring) : Prop :=
  ∃ i w, leftmost_longest strictRe (decoded raw) i w ∧
         e = toLowerCase w ∧ ¬ image_name e.

(** ** What a scan collects, stated on the text *)

(** [successive re s from ws]: [ws] lists the matches of [re] in [s] met
    from index [from] on, each the leftmost one that starts at or after the
    end of the one before (the longest at its start), until none is left. *)
Inductive successive (re : regex) (s : jsstring) : nat -> list jsstring -> Prop :=
| successive_done from :
    (∀ i w, from ≤ i -> ¬ occurs_at re s i w) ->
    successive re s from []
| successive_next from i w ws :
    from ≤ i ->
    occurs_at re s i w ->
    (∀ j w', from ≤ j -> occurs_at re s j w' -> i ≤ j) ->
    (∀ w', occurs_at re s i w' -> length w' ≤ length w) ->
    successive re s (i + length w) ws ->
    successive re s from (w :: ws).

Definition scanned (str raw : jsstring) : Prop :=
  ∃ found, successive looseRe str 0 found ∧ raw ∈ found.

(** [candidate d raw]: the document [d] offers [raw]: as the target of a
    [mailto:] link, cut at its first question mark and trimmed; as one of
    the successive matches in the text of [body]; or as one of those in an
    attribute value of some element. *)
Definition candidate (d : document) (raw : jsstring) : Prop :=
  (∃ link target,
     link ∈ select mailto_links d ∧
     attr (js "href") link = Some (js "mailto:" ++ target) ∧
     raw = trim (before (ch "?") target))
  ∨ scanned (text (select (Tag (js "body")) d)) raw
  ∨ (∃ elem value,
       elem ∈ select Universal d ∧ value ∈ attrib_values elem ∧
       scanned value raw).

(** ** Calls and their answers *)

(** The outcome recorded with a call is the answer of the environment on
    the trace up to the call. *)
Definition answer_of (env : environment) (tr : trace) (ev : event) : Prop :=
  match ev with
  | EvFetch url _ r => r = net_fetch env tr url
  | EvLaunch r => r = puppeteer_launch env tr
  | EvNewPage r =>
      r = match browser_newPage env tr with
          | Returns _ => Returns (fresh_page tr)
          | Rejects e => Rejects e
          end
  | EvSetUserAgent p _ r => r = page_setUserAgent env tr p
  | EvGoto p url _ r => r = page_goto env tr p url
  | EvContent p r => r = page_content env tr p
  | EvClose p r => r = page_close env tr p
  | EvBrowserClose r => r = browser_close env tr
  | EvWriteFile name data r => r = fs_writeFile env tr name data
  | EvLog _ | EvWarn _ | EvError _ => True
  end.

Fixpoint answered (env : environment) (tr : trace) (evs : list event) : Prop :=
  match evs with
  | [] => True
  | ev :: evs' => answer_of env tr ev ∧ answered env (tr ++ [ev]) evs'
  end.

(** Every page that opens gets [setUserAgent(BROWSER_UA)] as the very next
    call. *)
Fixpoint agent_set_first (evs : list event) : Prop :=
  match evs with
  | [] => True
  | ev :: rest =>
      match ev with
      | EvNewPage (Returns p) =>
          ∃ o rest', rest = EvSetUserAgent p BROWSER_UA o :: rest'
      | _ => True
      end ∧ agent_set_first rest
  end.

(** ** A browser whose pages cannot be closed *)

Definition target_closed : error := JsError (js "Target closed").

Definition with_failing_close (env : environment) (err : error) : environment :=
  {| cheerio_load := cheerio_load env;
     csv_parse := csv_parse env;
     net_fetch := net_fetch env;
     puppeteer_launch := puppeteer_launch env;
     browser_newPage := browser_newPage env;
     page_setUserAgent := page_setUserAgent env;
     page_goto := page_goto env;
     page_content := page_content env;
     page_close := fun _ _ => Rejects err;
     browser_close := browser_close env;
     fs_writeFile := fs_writeFile env |}.

(* ===================================================================== *)
(** * 11. Lemmas on the built-in functions *)
(* ===================================================================== *)

Arguments ch : simpl never.

(** ** The fuel of [decodeURIComponent] *)

Lemma parse_escape_length s p :
  parse_escape s = Some p -> length p.2 < length s.
Proof.
  unfold parse_escape.
  destruct s as [|c [|h [|l rest]]]; try done;
    try (destruct c as [|c]; [done|]; repeat (destruct c as [c|c|]; try done)).
  intros H. destruct (hex_val h); [|done]. destruct (hex_val l); [|done].
  simpl in H. inversion H; subst. simpl. lia.
Qed.

Lemma read_continuation_length n : ∀ s q,
  read_continuation n s = Some q -> length q.2 ≤ length s.
Proof.
  induction n as [|n IH]; intros s q H; simpl in H.
  - inversion H; subst. done.
  - destruct (parse_escape s) as [p|] eqn:Ep; [|done]. simpl in H.
    destruct (read_continuation n p.2) as [q'|] eqn:Eq; [|done]. simpl in H.
    inversion H; subst. simpl.
    apply parse_escape_length in Ep. apply IH in Eq. lia.
Qed.

(** [length s] turns are enough: any larger fuel gives the same result, so
    [None] is the URIError and never a lack of fuel. *)
Lemma decode_fuel_enough fuel : ∀ fuel' s,
  length s ≤ fuel -> length s ≤ fuel' ->
  decode_fuel fuel s = decode_fuel fuel' s.
Proof.
  induction fuel as [|fuel IH]; intros fuel' s H1 H2.
  - destruct s; [|simpl in H1; lia]. by destruct fuel'.
  - destruct s as [|c s]; [by destruct fuel'|].
    destruct fuel' as [|fuel']; [simpl in H2; lia|].
    simpl in H1, H2. cbn [decode_fuel].
    destruct (c =? 37)%N.
    + destruct (parse_escape (c :: s)) as [p|] eqn:Ep; [|done]. cbn [mbind option_bind].
      pose proof (parse_escape_length _ _ Ep) as Hp. simpl in Hp.
      destruct (leading_ones p.1) as [|n'].
      * rewrite (IH fuel' p.2); [done | lia | lia].
      * case_bool_decide; [done|].
        destruct (read_continuation n' p.2) as [q|] eqn:Eq; [|done]. cbn [mbind option_bind].
        pose proof (read_continuation_length _ _ _ Eq) as Hq.
        destruct (utf8_decode (p.1 :: q.1)); [|done]. cbn [mbind option_bind].
        rewrite (IH fuel' q.2); [done | lia | lia].
    + rewrite (IH fuel' s); [done | lia | lia].
Qed.

(* ===================================================================== *)
(** * 12. Lemmas on the matcher *)
(* ===================================================================== *)

Lemma last_or_nil prev : last_or prev [] = prev.
Proof. reflexivity. Qed.

Lemma last_or_cons prev c w : last_or prev (c :: w) = last_or (Some c) w.
Proof.
  unfold last_or. destruct w as [|d w]; [done|].
  change (last (c :: d :: w)) with (last (d :: w)).
  destruct (last (d :: w)) eqn:E; [done|].
  apply last_None in E. done.
Qed.

Lemma within_pred max n : within max (S n) -> within (Nat.pred <$> max) n.
Proof. destruct max as [m|]; simpl; lia. Qed.

Lemma within_can_take max n : within max (S n) -> can_take max = true.
Proof. destruct max as [[|m]|]; simpl; auto; lia. Qed.

Lemma can_take_within max n :
  can_take max = true -> within (Nat.pred <$> max) n -> within max (S n).
Proof. destruct max as [[|m]|]; simpl; auto; try discriminate; lia. Qed.

Lemma matches_split re prev s ps rest :
  matches re prev s ps rest -> s = concat ps ++ rest.
Proof.
  induction 1; simpl; auto.
  rewrite <- app_assoc. congruence.
Qed.

Section RepGreedy.
Context {R : Type} (cs : charset) (k : jsstring -> option N -> jsstring -> option R).

(** If the continuation answers after some admissible run, [rep_greedy]
    answers. *)
Lemma rep_greedy_complete w : forall s' min max acc prev,
  Forall (fun c => charset_test cs c = true) w ->
  within max (length w) -> min ≤ length w ->
  is_Some (k (rev acc ++ w) (last_or prev w) s') ->
  is_Some (rep_greedy cs k min max acc prev (w ++ s')).
Proof.
  induction w as [|c w IHw]; intros s' min max acc prev Hw Hmax Hmin Hk.
  - simpl in *. assert (min = 0) as -> by lia. rewrite app_nil_r in Hk.
    destruct s' as [|d s']; simpl; auto.
    destruct (charset_test cs d && can_take max); auto.
    destruct (rep_greedy cs k _ _ _ _ s'); eauto.
  - simpl. inversion Hw; subst.
    rewrite H1. erewrite within_can_take by eauto. simpl.
    rewrite last_or_cons in Hk.
    destruct (IHw s' (Nat.pred min) (Nat.pred <$> max) (c :: acc) (Some c)) as [r Hr].
    + done.
    + by apply within_pred.
    + simpl in Hmin. lia.
    + simpl. rewrite <- app_assoc. done.
    + rewrite Hr. eauto.
Qed.

Lemma rep_greedy_stop s min max acc prev r :
  min = 0 -> k (rev acc) prev s = Some r ->
  (∀ c s1, s = c :: s1 -> charset_test cs c && can_take max = true ->
     rep_greedy cs k (Nat.pred min) (Nat.pred <$> max) (c :: acc) (Some c) s1 = None) ->
  ∃ w s', s = w ++ s' ∧ Forall (fun c => charset_test cs c = true) w ∧
          min ≤ length w ∧ within max (length w) ∧
          k (rev acc ++ w) (last_or prev w) s' = Some r ∧
          ∀ w2 s2, s = w2 ++ s2 -> length w < length w2 ->
                   Forall (fun c => charset_test cs c = true) w2 ->
                   within max (length w2) ->
                   k (rev acc ++ w2) (last_or prev w2) s2 = None.
Proof.
  intros -> Hk Hrec. exists [], s. rewrite app_nil_r.
  split_and!; auto.
  - destruct max; simpl; lia.
  - intros w2 s2 -> Hlen Hw2 Hmax2.
    destruct w2 as [|c w2]; simpl in *; [lia|].
    inversion Hw2; subst.
    specialize (Hrec c (w2 ++ s2) eq_refl).
    rewrite H1 in Hrec. erewrite within_can_take in Hrec by eauto.
    specialize (Hrec eq_refl).
    rewrite last_or_cons.
    destruct (k (rev acc ++ c :: w2) (last_or (Some c) w2) s2) as [r2|] eqn:Ek; [|done].
    exfalso.
    destruct (rep_greedy_complete w2 s2 (Nat.pred 0) (Nat.pred <$> max) (c :: acc) (Some c))
      as [r3 Hr3]; auto.
    + by apply within_pred.
    + simpl; lia.
    + simpl. rewrite <- app_assoc. simpl. rewrite Ek. eauto.
    + simpl in Hr3. congruence.
Qed.

(** What [rep_greedy] returns is an answer of the continuation after a
    run [w] of the class within the bounds, and no longer run admitted by
    the bounds leads to an answer. *)
Lemma rep_greedy_sound s : forall min max acc prev r,
  rep_greedy cs k min max acc prev s = Some r ->
  ∃ w s', s = w ++ s' ∧ Forall (fun c => charset_test cs c = true) w ∧
          min ≤ length w ∧ within max (length w) ∧
          k (rev acc ++ w) (last_or prev w) s' = Some r ∧
          ∀ w2 s2, s = w2 ++ s2 -> length w < length w2 ->
                   Forall (fun c => charset_test cs c = true) w2 ->
                   within max (length w2) ->
                   k (rev acc ++ w2) (last_or prev w2) s2 = None.
Proof.
  induction s as [|c s IH]; intros min max acc prev r H; simpl in H.
  - destruct min; [|done]. apply rep_greedy_stop; auto. intros; done.
  - destruct (charset_test cs c && can_take max) eqn:Ec.
    + apply andb_true_iff in Ec as [Ec Hm].
      destruct (rep_greedy cs k (Nat.pred min) (Nat.pred <$> max) (c :: acc) (Some c) s)
        as [r'|] eqn:Er.
      * inversion H; subst r'. clear H.
        apply IH in Er as (w & s' & -> & Hw & Hmin & Hmax & Hk & Hlong).
        exists (c :: w), s'. simpl in Hk. rewrite <- app_assoc in Hk. simpl in Hk.
        rewrite last_or_cons.
        split_and!; auto.
        -- simpl; lia.
        -- by apply can_take_within.
        -- intros w2 s2 E Hlen Hw2 Hmax2.
           destruct w2 as [|c2 w2]; simpl in *; [lia|].
           inversion E; subst c2. rewrite last_or_cons.
           specialize (Hlong w2 s2 H1).
           simpl in Hlong. rewrite <- app_assoc in Hlong. simpl in Hlong.
           apply Hlong; [lia | by inversion Hw2 | by apply within_pred].
      * destruct min; [|done]. apply rep_greedy_stop; auto.
        intros c1 s1 E _. inversion E; subst. done.
    + destruct min; [|done]. apply rep_greedy_stop; auto.
      intros c1 s1 E Hc. inversion E; subst. congruence.
Qed.
End RepGreedy.

(** ** The matcher against the declarative reading *)

Lemma seq_match_sound re : forall prev s ps,
  seq_match re prev s = Some ps -> ∃ rest, matches re prev s ps rest.
Proof.
  induction re as [|t re IH]; intros prev s ps H; simpl in H.
  - inversion H; subst. eexists; constructor.
  - destruct t as [cs min max| | |].
    + apply rep_greedy_sound in H as (w & s' & -> & Hw & Hmin & Hmax & Hk & _).
      simpl in Hk.
      destruct (seq_match re (last_or prev w) s') as [ps'|] eqn:E; [|done].
      inversion Hk; subst. apply IH in E as [rest Hrest].
      exists rest. by constructor.
    + destruct (is_word_boundary prev s) eqn:Eb; [|done].
      destruct (seq_match re prev s) as [ps'|] eqn:E; [|done].
      inversion H; subst. apply IH in E as [rest Hrest].
      exists rest. by constructor.
    + destruct prev; [done|].
      destruct (seq_match re None s) as [ps'|] eqn:E; [|done].
      inversion H; subst. apply IH in E as [rest Hrest].
      exists rest. by constructor.
    + destruct s; [|done].
      destruct (seq_match re prev []) as [ps'|] eqn:E; [|done].
      inversion H; subst. apply IH in E as [rest Hrest].
      exists rest. by constructor.
Qed.

Lemma seq_match_complete re prev s ps rest :
  matches re prev s ps rest -> is_Some (seq_match re prev s).
Proof.
  induction 1; simpl; eauto.
  - apply (rep_greedy_complete cs _ w s min max [] prev); auto.
    simpl. destruct IHmatches as [ps' ->]. simpl. eauto.
  - rewrite H. destruct IHmatches as [ps' ->]. simpl. eauto.
  - destruct IHmatches as [ps' ->]. simpl. eauto.
  - destruct IHmatches as [ps' ->]. simpl. eauto.
Qed.

Lemma seq_match_drop re prev s ps :
  seq_match re prev s = Some ps ->
  s = concat ps ++ drop (length (concat ps)) s ∧
  matches re prev s ps (drop (length (concat ps)) s).
Proof.
  intros H. apply seq_match_sound in H as [rest H].
  pose proof (matches_split _ _ _ _ _ H) as E.
  assert (drop (length (concat ps)) s = rest) as ->.
  { rewrite E at 1. by rewrite drop_app_length. }
  done.
Qed.

Lemma last_or_take_S prev c s i :
  last_or prev (take (S i) (c :: s)) = last_or (Some c) (take i s).
Proof. simpl. apply last_or_cons. Qed.

(** [exec] returns the match at the least start index that has one. *)
Lemma exec_sound re s : forall prev m,
  exec re prev s = Some m ->
  s = m_before m ++ m_text m ++ m_after m ∧
  matches re (last_or prev (m_before m)) (m_text m ++ m_after m) (m_pieces m) (m_after m) ∧
  ∀ i, i < length (m_before m) ->
       seq_match re (last_or prev (take i s)) (drop i s) = None.
Proof.
  induction s as [|c s IH]; intros prev m H; simpl in H.
  - destruct (seq_match re prev []) as [ps|] eqn:E; [|done].
    inversion H; subst; clear H. unfold m_text; simpl.
    apply seq_match_drop in E as [E1 E2].
    split_and!; auto. + by rewrite <- E1. + intros; lia.
  - destruct (seq_match re prev (c :: s)) as [ps|] eqn:E.
    + inversion H; subst; clear H. unfold m_text; simpl.
      apply seq_match_drop in E as [E1 E2].
      split_and!; auto. * by rewrite <- E1. * intros; lia.
    + destruct (exec re (Some c) s) as [m'|] eqn:E'; [|done].
      inversion H; subst; clear H.
      apply IH in E' as (E1 & E2 & E3).
      unfold shift, m_text in *; simpl.
      split_and!.
      * by rewrite E1 at 1.
      * by rewrite last_or_cons.
      * intros [|i] Hi; simpl; [done|].
        rewrite last_or_cons. apply E3. lia.
Qed.

Lemma exec_none re s : forall prev,
  exec re prev s = None ->
  ∀ i, i ≤ length s -> seq_match re (last_or prev (take i s)) (drop i s) = None.
Proof.
  induction s as [|c s IH]; intros prev H i Hi; simpl in H.
  - destruct (seq_match re prev []) eqn:E; [done|].
    simpl in Hi. assert (i = 0) as -> by lia. done.
  - destruct (seq_match re prev (c :: s)) eqn:E; [done|].
    destruct (exec re (Some c) s) eqn:E'; [done|].
    destruct i as [|i]; [done|].
    simpl. rewrite last_or_cons. apply IH; auto. simpl in Hi; lia.
Qed.

Lemma occurs_at_seq_match re s i w :
  occurs_at re s i w -> is_Some (seq_match re (last (take i s)) (drop i s)).
Proof. intros (ps & _ & H & _). by eapply seq_match_complete. Qed.

Lemma last_or_None w : last_or None w = last w.
Proof. unfold last_or. by destruct (last w). Qed.

(** [str.match(re)]: the result is an occurrence, and the leftmost one. *)
Lemma str_match_leftmost re s m :
  str_match re s = Some m ->
  s = m_before m ++ m_text m ++ m_after m ∧
  occurs_at re s (length (m_before m)) (m_text m) ∧
  ∀ i w, occurs_at re s i w -> length (m_before m) ≤ i.
Proof.
  intros H. apply exec_sound in H as (E1 & E2 & E3).
  split_and!; auto.
  - exists (m_pieces m). split; [done|].
    rewrite E1 at 1 2 3 4. rewrite take_app_length, drop_app_length, drop_app_length.
    rewrite <- last_or_None. split; [done|].
    rewrite length_app. lia.
  - intros i w Hocc.
    destruct (decide (length (m_before m) ≤ i)) as [|Hlt]; [done|].
    apply occurs_at_seq_match in Hocc as [ps Hps].
    rewrite <- last_or_None, E3 in Hps; [done | lia].
Qed.

(** [str.match(re)] is [null] exactly when the pattern occurs nowhere. *)
Lemma str_match_none re s :
  str_match re s = None <-> ∀ i w, ¬ occurs_at re s i w.
Proof.
  split.
  - intros H i w Hocc.
    pose proof Hocc as (_ & _ & _ & Hi).
    apply occurs_at_seq_match in Hocc as [ps Hps].
    rewrite <- last_or_None, (exec_none _ _ _ H) in Hps; done.
  - intros H. destruct (str_match re s) as [m|] eqn:E; [|done].
    apply str_match_leftmost in E as (_ & Hocc & _). by apply H in Hocc.
Qed.

(** ** The email pattern *)

Lemma lit_run c w :
  Forall (fun x => charset_test (CharSet false [(c, c)]) x = true) w ->
  1 ≤ length w -> within (Some 1) (length w) -> w = [c].
Proof.
  intros Hw H1 H2. simpl in H2.
  destruct w as [|x [|y w]]; simpl in *; try lia.
  inversion Hw as [|? ? Hx _]; subst.
  unfold charset_test, in_ranges, between in Hx. simpl in Hx.
  rewrite orb_false_r, andb_true_iff, !N.leb_le in Hx.
  f_equal. lia.
Qed.

(** The shape of a match of the email pattern. *)
Lemma email_matches_inv prev u ps rest :
  matches email_re prev u ps rest ->
  ∃ l d t,
    ps = [[]; l; [ch "@"]; d; [ch "."]; t; []] ∧
    u = l ++ ch "@" :: d ++ ch "." :: t ++ rest ∧
    Forall (fun c => charset_test local_set c = true) l ∧ 1 ≤ length l ∧
    Forall (fun c => charset_test domain_set c = true) d ∧ 1 ≤ length d ∧
    Forall (fun c => charset_test alpha_set c = true) t ∧ 2 ≤ length t ∧
    is_word_boundary prev u = true ∧
    is_word_boundary (last t) rest = true.
Proof.
  intros H. unfold email_re, Plus, Lit in H.
  inversion H as [| | ? ? ? ? ? Hb H1 | |]; subst; clear H.
  inversion H1 as [|? ? ? ? ? l ? ? ? Hl Hl1 _ H2 | | |]; subst; clear H1.
  inversion H2 as [|? ? ? ? ? a ? ? ? Ha Ha1 Ha2 H3 | | |]; subst; clear H2.
  inversion H3 as [|? ? ? ? ? d ? ? ? Hd Hd1 _ H4 | | |]; subst; clear H3.
  inversion H4 as [|? ? ? ? ? o ? ? ? Ho Ho1 Ho2 H5 | | |]; subst; clear H4.
  inversion H5 as [|? ? ? ? ? t ? ? ? Ht Ht1 _ H6 | | |]; subst; clear H5.
  inversion H6 as [| | ? ? ? ? ? Hb2 H7 | |]; subst; clear H6.
  inversion H7; subst; clear H7.
  apply lit_run in Ha; auto. apply lit_run in Ho; auto. subst a o.
  exists l, d, t. split_and!; auto.
  unfold last_or in Hb2.
  destruct (last t) eqn:Et; [done|].
  apply last_None in Et. subst t. simpl in Ht1. lia.
Qed.

(** A match of the email pattern is never empty: the loop over the matches
    of [looseRe] advances. *)
Lemma email_match_nonempty prev u ps rest :
  matches email_re prev u ps rest -> concat ps ≠ [].
Proof.
  intros H. apply email_matches_inv in H as (l & d & t & -> & _ & _ & Hl & _).
  simpl. destruct l; simpl in *; [lia | done].
Qed.

(** The code units a match of the email pattern is made of. *)
Definition email_unit (c : N) : bool :=
  charset_test local_set c || (c =? ch "@")%N.

Lemma domain_local c : charset_test domain_set c = true -> charset_test local_set c = true.
Proof.
  unfold charset_test, in_ranges, between, ch; simpl.
  rewrite !orb_false_r, !orb_true_iff, !andb_true_iff, !N.leb_le. lia.
Qed.

Lemma alpha_domain c : charset_test alpha_set c = true -> charset_test domain_set c = true.
Proof.
  unfold charset_test, in_ranges, between, ch; simpl.
  rewrite !orb_false_r, !orb_true_iff, !andb_true_iff, !N.leb_le. lia.
Qed.

Lemma email_match_alphabet prev u ps rest :
  matches email_re prev u ps rest -> Forall (fun c => email_unit c = true) (concat ps).
Proof.
  intros H. apply email_matches_inv in H
    as (l & d & t & -> & _ & Hl & _ & Hd & _ & Ht & _).
  simpl. rewrite app_nil_r.
  repeat (apply Forall_app_2 || apply Forall_cons_2 || apply Forall_nil_2);
    unfold email_unit; try done.
  - eapply Forall_impl; [apply Hl|]. simpl. intros c ->. done.
  - eapply Forall_impl; [apply Hd|]. simpl. intros c Hc. by rewrite domain_local.
  - eapply Forall_impl; [apply Ht|]. simpl. intros c Hc.
    by rewrite domain_local by by apply alpha_domain.
Qed.

(** ** Termination of the scanning loop *)

Lemma exec_loop_fuel_total re :
  (∀ prev u ps rest, matches re prev u ps rest -> concat ps ≠ []) ->
  ∀ fuel prev s, length s < fuel -> is_Some (exec_loop_fuel fuel re prev s).
Proof.
  intros Hne. induction fuel as [|fuel IH]; intros prev s Hlen; [lia|].
  simpl. destruct (exec re prev s) as [m|] eqn:E; [|eauto].
  apply exec_sound in E as (E1 & E2 & _).
  destruct (m_text m) as [|c w] eqn:Et.
  - apply Hne in E2. done.
  - destruct (IH (last (c :: w)) (m_after m)) as [r Hr].
    + rewrite E1 in Hlen. rewrite !length_app in Hlen. simpl in Hlen. lia.
    + rewrite Hr. simpl. eauto.
Qed.

(** More fuel than needed does not change the result. *)
Lemma exec_loop_fuel_mono re fuel : ∀ fuel' prev s r,
  exec_loop_fuel fuel re prev s = Some r -> fuel ≤ fuel' ->
  exec_loop_fuel fuel' re prev s = Some r.
Proof.
  induction fuel as [|fuel IH]; intros fuel' prev s r H Hle; [done|].
  destruct fuel' as [|fuel']; [lia|]. simpl in *.
  destruct (exec re prev s) as [m|]; [|done].
  destruct (m_text m) as [|c w]; [done|].
  destruct (exec_loop_fuel fuel re (last (c :: w)) (m_after m)) as [r'|] eqn:E; [|done].
  erewrite IH; eauto. lia.
Qed.

Lemma scan_total rawSet str : ∃ rawSet', scan rawSet str = Normal rawSet'.
Proof.
  unfold scan, exec_loop.
  destruct (exec_loop_fuel_total looseRe email_match_nonempty
              (S (length str)) None str) as [found ->]; [lia|].
  simpl. eauto.
Qed.

(** ** Priorities of the matcher on the email pattern *)

Lemma seq_match_rep cs min max re prev s ps :
  seq_match (Rep cs min max :: re) prev s = Some ps ->
  ∃ w s' ps', s = w ++ s' ∧ ps = w :: ps' ∧
    Forall (fun c => charset_test cs c = true) w ∧
    min ≤ length w ∧ within max (length w) ∧
    seq_match re (last_or prev w) s' = Some ps' ∧
    ∀ w2 s2, s = w2 ++ s2 -> length w < length w2 ->
             Forall (fun c => charset_test cs c = true) w2 ->
             within max (length w2) ->
             seq_match re (last_or prev w2) s2 = None.
Proof.
  simpl. intros H.
  apply rep_greedy_sound in H as (w & s' & -> & Hw & Hmin & Hmax & Hk & Hlong).
  simpl in Hk.
  destruct (seq_match re (last_or prev w) s') as [ps'|] eqn:E; [|done].
  inversion Hk; subst.
  exists w, s', ps'. split_and!; auto.
  intros w2 s2 E2 Hlen Hw2 Hmax2.
  specialize (Hlong w2 s2 E2 Hlen Hw2 Hmax2). simpl in Hlong.
  by destruct (seq_match re (last_or prev w2) s2).
Qed.

Lemma seq_match_boundary re prev s ps :
  seq_match (WordBoundary :: re) prev s = Some ps ->
  is_word_boundary prev s = true ∧
  ∃ ps', ps = [] :: ps' ∧ seq_match re prev s = Some ps'.
Proof.
  simpl. destruct (is_word_boundary prev s); [|done].
  destruct (seq_match re prev s) as [ps'|]; [|done].
  intros H; inversion H; subst. eauto.
Qed.

Lemma exec_seq_match re s : forall prev m,
  exec re prev s = Some m ->
  seq_match re (last_or prev (m_before m)) (m_text m ++ m_after m) = Some (m_pieces m).
Proof.
  induction s as [|c s IH]; intros prev m H; simpl in H.
  - destruct (seq_match re prev []) as [ps|] eqn:E; [|done].
    inversion H; subst; clear H. unfold m_text; simpl.
    pose proof (seq_match_drop _ _ _ _ E) as [<- _]. done.
  - destruct (seq_match re prev (c :: s)) as [ps|] eqn:E.
    + inversion H; subst; clear H. unfold m_text; simpl.
      pose proof (seq_match_drop _ _ _ _ E) as [<- _]. done.
    + destruct (exec re (Some c) s) as [m'|] eqn:E'; [|done].
      inversion H; subst; clear H.
      apply IH in E'. unfold shift, m_text in *; simpl.
      by rewrite last_or_cons.
Qed.

(** Two runs of a class at the head of the same text, both followed by the
    same unit outside the class, are the same run. *)
Lemma run_unique (P : N -> bool) x : forall l l' r r',
  P x = false ->
  Forall (fun c => P c = true) l -> Forall (fun c => P c = true) l' ->
  l ++ x :: r = l' ++ x :: r' -> l = l' ∧ r = r'.
Proof.
  induction l as [|c l IH]; intros [|c' l'] r r' Hx Hl Hl' E; simpl in E.
  - by inversion E.
  - inversion E; subst. inversion Hl'; subst. congruence.
  - inversion E; subst. inversion Hl; subst. congruence.
  - inversion E; subst. inversion Hl; inversion Hl'; subst.
    destruct (IH l' r r') as [-> ->]; auto.
Qed.

(** At a given start, the matcher returns the longest match of the email
    pattern. *)
Lemma email_seq_longest prev u ps :
  seq_match email_re prev u = Some ps ->
  ∀ ps' rest', matches email_re prev u ps' rest' ->
               length (concat ps') ≤ length (concat ps).
Proof.
  intros H ps' rest' H'.
  apply email_matches_inv in H'
    as (l' & d' & t' & -> & Eu & Hl' & Hl1' & Hd' & Hd1' & Ht' & Ht1' & Hb' & Hb2').
  unfold email_re, Plus, Lit in H.
  apply seq_match_boundary in H as (_ & ps1 & -> & H).
  apply seq_match_rep in H as (l & u1 & ps2 & E1 & -> & Hl & _ & _ & H & _).
  apply seq_match_rep in H as (a & u2 & ps3 & E2 & -> & Ha & Ha1 & Ha2 & H & _).
  apply lit_run in Ha; auto. subst a.
  apply seq_match_rep in H as (d & u3 & ps4 & E3 & -> & Hd & _ & _ & H & Hdlong).
  apply seq_match_rep in H as (o & u4 & ps5 & E4 & -> & Ho & Ho1 & Ho2 & H & _).
  apply lit_run in Ho; auto. subst o.
  apply seq_match_rep in H as (t & u5 & ps6 & E5 & -> & Ht & _ & _ & H & Htlong).
  apply seq_match_boundary in H as (_ & ps7 & -> & H).
  simpl in H. inversion H; subst ps7. clear H.
  subst u1 u2 u3 u4.
  (* the local parts coincide *)
  destruct (run_unique (charset_test local_set) (ch "@") l l'
              (d ++ [ch "."] ++ t ++ u5) (d' ++ ch "." :: t' ++ rest'))
    as [-> Ed]; auto.
  { rewrite E1 in Eu. simpl in *. rewrite <- Eu. done. }
  simpl. rewrite !app_nil_r, !length_app. simpl. rewrite !length_app. simpl.
  clear Eu E1.
  destruct (decide (length d < length d')) as [Hlt|Hge].
  - (* a longer domain would have been tried first *)
    exfalso.
    assert (Hnone := Hdlong d' (ch "." :: t' ++ rest') Ed Hlt Hd' I).
    assert (Hm : matches [Rep (CharSet false [(ch ".", ch ".")]) 1 (Some 1);
                          Rep alpha_set 2 None; WordBoundary]
                   (last_or (last_or (last_or prev l') [ch "@"]) d')
                   ([ch "."] ++ t' ++ rest') [[ch "."]; t'; []] rest').
    { constructor; [repeat constructor | simpl; lia | simpl; lia |].
      constructor; auto; [exact I|]. constructor; [|constructor].
      unfold last_or at 1. destruct (last t') eqn:Et; [done|].
      apply last_None in Et. subst. simpl in *; lia. }
    apply seq_match_complete in Hm as [x Hx]. simpl in Hx, Hnone. congruence.
  - destruct (decide (length d' = length d)) as [Heq|Hne].
    + (* same domain: compare the top-level parts *)
      simpl in Ed. apply app_inj_1 in Ed as [-> Ed]; [|done].
      inversion Ed as [Et]. clear Ed.
      destruct (decide (length t < length t')) as [Hlt|]; [|lia].
      exfalso.
      specialize (Htlong t' rest' Et Hlt Ht' I).
      assert (Hm : matches [WordBoundary]
                     (last_or (last_or (last_or (last_or (last_or prev l') [ch "@"]) d')
                                 [ch "."]) t')
                     rest' [[]] rest').
      { constructor; [|constructor].
        unfold last_or at 1. destruct (last t') eqn:Et'; [done|].
        apply last_None in Et'. subst. simpl in *; lia. }
      apply seq_match_complete in Hm as [x Hx]. congruence.
    + (* a shorter domain: its dot and letters lie inside the longer one *)
      assert (Hlt : length d' < length d) by lia.
      simpl in Ed.
      apply app_eq_inv in Ed as [(k & Ek & Ek2)|(k & Ek & Ek2)].
      * subst d. destruct k as [|x k]; [rewrite app_nil_r in Hlt; lia|].
        simpl in Ek2. inversion Ek2 as [[Ex Ek3]]. subst x.
        rewrite !length_app. simpl.
        enough (length t' ≤ length k) by lia.
        destruct (decide (length t' ≤ length k)) as [|Hgt]; [done|exfalso].
        apply app_eq_inv in Ek3 as [(k' & Ek' & Ek2')|(k' & Ek' & Ek2')].
        -- subst t'. destruct k' as [|y k']; [rewrite app_nil_r in Hgt; lia|].
           simpl in Ek2'. inversion Ek2'; subst y.
           apply Forall_app in Ht' as [_ Ht'].
           inversion Ht'; subst. done.
        -- subst k. rewrite length_app in Hgt. lia.
      * subst d'. rewrite length_app in Hlt. lia.
Qed.

(** [str.match(strictRe)]: of the occurrences at the leftmost start, the
    longest. *)
Lemma strict_longest_at_start s m :
  str_match strictRe s = Some m ->
  ∀ w, occurs_at strictRe s (length (m_before m)) w ->
       length w ≤ length (m_text m).
Proof.
  intros H w (ps & <- & Hm & _).
  pose proof (exec_seq_match _ _ _ _ H) as Hs.
  apply exec_sound in H as (E1 & _ & _).
  rewrite E1 in Hm at 1 2 3.
  rewrite take_app_length, drop_app_length in Hm.
  rewrite last_or_None in Hs.
  eapply email_seq_longest; eauto.
Qed.

(* ===================================================================== *)
(** * 13. Lemmas on documents and on the sanitizing loop *)
(* ===================================================================== *)

(** ** Documents *)

(** Induction over a node with the hypothesis on all its children. *)
Lemma node_forall_ind (P : node -> Prop) :
  (∀ name attribs children, Forall P children -> P (Element name attribs children)) ->
  (∀ data, P (Text data)) ->
  (∀ data, P (Comment data)) ->
  (∀ data, P (Directive data)) ->
  ∀ n, P n.
Proof.
  intros HE HT HC HD.
  fix IH 1. intros [name attribs children|d|d|d].
  - apply HE. induction children as [|c cs IHcs]; constructor.
    + apply IH.
    + apply IHcs.
  - apply HT.
  - apply HC.
  - apply HD.
Qed.

Lemma in_flat_map_elem {A B} (f : A -> list B) (l : list A) (y : B) :
  y ∈ flat_map f l <-> ∃ x, x ∈ l ∧ y ∈ f x.
Proof.
  rewrite list_elem_of_In, in_flat_map.
  split; intros (x & H1 & H2); exists x; by rewrite ?list_elem_of_In in *.
Qed.

(** What [$(sel)] holds are elements that the selector matches. *)
Lemma select_node_matches sel n : ∀ x,
  x ∈ select_node sel n ->
  ∃ name attribs children,
    x = Element name attribs children ∧ sel_matches sel name attribs = true.
Proof.
  induction n as [name attribs children IH|d|d|d] using node_forall_ind;
    intros x Hx; simpl in Hx; try by apply elem_of_nil in Hx.
  apply elem_of_app in Hx as [Hx|Hx].
  - destruct (sel_matches sel name attribs) eqn:E.
    + apply list_elem_of_singleton in Hx as ->. eauto.
    + by apply elem_of_nil in Hx.
  - apply in_flat_map_elem in Hx as (c & Hc & Hx).
    rewrite Forall_forall in IH. eapply IH; eauto.
Qed.

Lemma select_matches sel d x :
  x ∈ select sel d ->
  ∃ name attribs children,
    x = Element name attribs children ∧ sel_matches sel name attribs = true.
Proof.
  unfold select. intros Hx.
  apply in_flat_map_elem in Hx as (c & Hc & Hx).
  eapply select_node_matches; eauto.
Qed.

(** ** Strings *)

Lemma split_nonempty sep s : split sep s ≠ [].
Proof.
  destruct s as [|c s]; simpl; [done|].
  destruct (c =? sep)%N; [done|]. by destruct (split sep s).
Qed.

Lemma first_seg_split sep s : is_Some (first_seg (split sep s)).
Proof.
  pose proof (split_nonempty sep s). unfold first_seg.
  destruct (split sep s); [done | simpl; eauto].
Qed.

(** ** The loops of [harvest] end normally *)

Lemma for_each_total {A B} (f : B -> A -> completion B) (xs : list A) :
  (∀ acc x, x ∈ xs -> ∃ acc', f acc x = Normal acc') ->
  ∀ acc, ∃ r, for_each f xs acc = Normal r.
Proof.
  induction xs as [|x xs IH]; intros Hf acc; simpl; [eauto|].
  destruct (Hf acc x) as [acc' ->]; [by left|]. simpl.
  apply IH. intros; apply Hf. by right.
Qed.

Lemma mailto_candidate_total d x :
  x ∈ select (TagAttrPrefix (js "a") (js "href") (js "mailto:")) d ->
  ∃ c, mailto_candidate x = Normal c.
Proof.
  intros Hx. apply select_matches in Hx as (name & attribs & children & -> & Hm).
  simpl in Hm. apply andb_true_iff in Hm as [_ Hm].
  unfold mailto_candidate. simpl.
  destruct (lookup_attr (js "href") attribs) as [href|]; [|done]. simpl.
  destruct (first_seg_split (ch "?") (replace_first mailto_re [] href)) as [seg ->].
  simpl. eauto.
Qed.

Lemma harvest_total d : ∃ rawSet, harvest d = Normal rawSet.
Proof.
  unfold harvest.
  destruct (for_each_total
              (fun rawSet el => c ← mailto_candidate el; mret (set_add c rawSet))
              (select (TagAttrPrefix (js "a") (js "href") (js "mailto:")) d))
    with (acc := @nil jsstring) as [r1 ->].
  { intros acc x Hx. destruct (mailto_candidate_total d x Hx) as [c ->]. simpl. eauto. }
  simpl.
  destruct (scan_total r1 (text (select (Tag (js "body")) d))) as [r2 ->]. simpl.
  apply for_each_total. intros acc x _.
  apply for_each_total. intros acc' v _. apply scan_total.
Qed.

Lemma basicScrape_total load html : ∃ emails, basicScrape load html = Normal emails.
Proof.
  unfold basicScrape.
  destruct (harvest_total (remove (Either (Tag (js "script")) (Tag (js "style"))) (load html)))
    as [rawSet ->].
  simpl. eauto.
Qed.

(** ** Sets *)

Lemma set_add_NoDup x st : NoDup st -> NoDup (set_add x st).
Proof.
  intros H. unfold set_add. case_bool_decide; [done|].
  apply NoDup_app. split_and!; auto.
  - intros y Hy Hy'. apply list_elem_of_singleton in Hy' as ->. done.
  - apply NoDup_singleton.
Qed.

Lemma set_add_elem x y st : y ∈ set_add x st <-> y = x ∨ y ∈ st.
Proof.
  unfold set_add. case_bool_decide.
  - split; [auto|]. intros [->|]; auto.
  - rewrite elem_of_app, list_elem_of_singleton. tauto.
Qed.

(** ** The sanitizing loop *)

Lemma sanitize_all_spec rawSet :
  NoDup (sanitize_all rawSet) ∧
  ∀ e, e ∈ sanitize_all rawSet <-> ∃ raw, raw ∈ rawSet ∧ sanitize raw = Some e.
Proof.
  unfold sanitize_all.
  set (step := fun cleanSet raw => match sanitize raw with
                                   | Some email => set_add email cleanSet
                                   | None => cleanSet end).
  enough (H : ∀ acc, NoDup acc ->
            NoDup (foldl step acc rawSet) ∧
            ∀ e, e ∈ foldl step acc rawSet <->
                 e ∈ acc ∨ ∃ raw, raw ∈ rawSet ∧ sanitize raw = Some e).
  { destruct (H [] (NoDup_nil_2)) as [H1 H2]. split; [done|].
    intros e. rewrite H2. split; [|auto]. intros [He|]; [|done].
    by apply elem_of_nil in He. }
  induction rawSet as [|raw rawSet IH]; intros acc Hacc; simpl.
  - split; [done|]. intros e. split; [auto|].
    intros [|(raw & Hr & _)]; [done|]. by apply elem_of_nil in Hr.
  - destruct (IH (step acc raw)) as [H1 H2].
    { unfold step. destruct (sanitize raw); [by apply set_add_NoDup | done]. }
    split; [done|]. intros e. rewrite H2. unfold step.
    destruct (sanitize raw) as [email|] eqn:E.
    + rewrite set_add_elem. split.
      * intros [[->|]|(raw' & Hr & Hs)]; auto.
        -- right. exists raw. split; [by left | done].
        -- right. exists raw'. split; [by right | done].
      * intros [|(raw' & Hr & Hs)]; auto.
        apply elem_of_cons in Hr as [->|Hr].
        -- left. left. congruence.
        -- right. eauto.
    + split.
      * intros [|(raw' & Hr & Hs)]; auto.
        right. exists raw'. split; [by right | done].
      * intros [|(raw' & Hr & Hs)]; auto.
        apply elem_of_cons in Hr as [->|Hr]; [congruence|].
        right. eauto.
Qed.

Ltac eval_ch :=
  repeat match goal with
         | |- context [ch ?a] =>
             let v := eval vm_compute in (ch a) in change (ch a) with v
         | H : context [ch ?a] |- _ =>
             let v := eval vm_compute in (ch a) in change (ch a) with v in H
         end.

Ltac unfold_sets :=
  unfold email_unit, canonical_unit, lower_unit, charset_test, in_ranges, between,
    canonical_set, local_set, domain_set, alpha_set, word_set, rng, one in *;
  simpl in *; eval_ch;
  rewrite ?orb_false_r, ?orb_true_iff, ?andb_true_iff, ?N.leb_le, ?N.eqb_eq in *.

Lemma lower_unit_canonical c :
  email_unit c = true -> canonical_unit (lower_unit c) = true.
Proof.
  intros H.
  destruct (between (ch "A") (ch "Z") c) eqn:E.
  - unfold lower_unit. rewrite E. clear H. unfold_sets. lia.
  - unfold lower_unit. rewrite E.
    unfold between in E. apply andb_false_iff in E.
    rewrite !N.leb_gt in E. unfold_sets. lia.
Qed.

Lemma canonical_lower c : canonical_unit c = true -> lower_unit c = c.
Proof.
  intros H. unfold lower_unit.
  destruct (between (ch "A") (ch "Z") c) eqn:E; [|done].
  exfalso. unfold_sets. lia.
Qed.

Lemma toLowerCase_canonical s :
  Forall (fun c => canonical_unit c = true) s -> toLowerCase s = s.
Proof.
  induction 1 as [|c s Hc _ IH]; simpl; [done|].
  f_equal; [by apply canonical_lower | done].
Qed.

(** What the sanitizing step keeps: the lower-cased leftmost occurrence of
    the strict pattern in the decoded candidate. *)
Lemma sanitize_some raw email :
  sanitize raw = Some email ->
  ∃ m, str_match strictRe (default raw (decodeURIComponent raw)) = Some m ∧
       email = toLowerCase (m_text m).
Proof.
  unfold sanitize. intros H.
  assert (E : match decodeURIComponent raw with Some decoded => decoded | None => raw end
              = default raw (decodeURIComponent raw)) by by destruct (decodeURIComponent raw).
  rewrite E in H.
  destruct (str_match strictRe (default raw (decodeURIComponent raw))) as [m|]; [|done].
  exists m. split; [done|].
  destruct (match pop (split (ch ".") (toLowerCase (m_text m))) with
            | Some ext => set_has ext imageExts | None => false end); congruence.
Qed.

Lemma sanitize_canonical raw email :
  sanitize raw = Some email -> Forall (fun c => canonical_unit c = true) email.
Proof.
  intros H. apply sanitize_some in H as (m & Hm & ->).
  apply exec_sound in Hm as (_ & Hm & _).
  apply email_match_alphabet in Hm. fold (m_text m) in Hm.
  unfold toLowerCase. apply Forall_map.
  eapply Forall_impl; [apply Hm|]. apply lower_unit_canonical.
Qed.

Lemma occurs_at_computed re s i ps :
  i ≤ length s ->
  seq_match re (last (take i s)) (drop i s) = Some ps ->
  occurs_at re s i (concat ps).
Proof.
  intros Hi H. exists ps. split; [done|].
  apply seq_match_drop in H as [_ H]. done.
Qed.

(* ===================================================================== *)
(** * 14. Theorems on the address extractor *)
(* ===================================================================== *)

Lemma remove_variant d1 d2 :
  script_variant d1 d2 ->
  remove (Either (Tag (js "script")) (Tag (js "style"))) d1
  = remove (Either (Tag (js "script")) (Tag (js "style"))) d2.
Proof.
  unfold remove.
  induction 1 as [|name attribs children d1 d2 Hn _ IH
                  |name attribs children d1 d2 Hn _ IH
                  |name attribs c1 c2 d1 d2 Hn _ IHc _ IHd
                  |data d1 d2 _ IH|data d1 d2 _ IH|data d1 d2 _ IH];
    simpl; try congruence.
  - unfold is_script_or_style in Hn. rewrite Hn. done.
  - unfold is_script_or_style in Hn. rewrite Hn. done.
  - unfold is_script_or_style in Hn. rewrite Hn. simpl. congruence.
Qed.

(** The extractor on the edge cases of a link with a query string and of a
    file name that looks like an address. *)
Example mailto_with_query :
  basicScrape (fun _ => mailto_doc) [] = Normal [js "sales@up.example"].
Proof. vm_compute. reflexivity. Qed.

Example image_name_is_dropped :
  basicScrape text_load (js "see photo@2x.png and logo@3x.JPEG") = Normal [].
Proof. vm_compute. reflexivity. Qed.

Example script_doc_result :
  basicScrape (fun _ => script_doc) [] = Normal [js "a@b.com"].
Proof. vm_compute. reflexivity. Qed.

(** C3, as stated, fails: of two valid addresses in one candidate the strict
    re-match keeps the first, not the longest. *)
Lemma strict_rematch_not_longest :
  ¬ (∀ raw email, sanitize raw = Some email ->
       ∀ i w, occurs_at strictRe (default raw (decodeURIComponent raw)) i w ->
              length w ≤ length email).
Proof.
  intros H.
  specialize (H two_recipients (js "a@b.co") eq_refl 7 (js "longer@example.com")).
  assert (Hocc : occurs_at strictRe (default two_recipients (decodeURIComponent two_recipients))
                   7 (js "longer@example.com")).
  { apply (occurs_at_computed strictRe two_recipients 7
             [[]; js "longer"; js "@"; js "example"; js "."; js "com"; []]).
    - vm_compute. lia.
    - vm_compute. reflexivity. }
  apply H in Hocc. vm_compute in Hocc. lia.
Qed.

(** C6: the extractor returns lower-cased addresses, no two of them equal up
    to case; a document with [A@B.com] and [a@b.com] gives [a@b.com]
    alone. *)
Theorem extract_case_insensitive_dedup (load : jsstring -> document) (html : jsstring) :
  ∃ emails, basicScrape load html = Normal emails ∧
    Forall (fun e => toLowerCase e = e) emails ∧
    (∀ i j a b, emails !! i = Some a -> emails !! j = Some b ->
                toLowerCase a = toLowerCase b -> i = j) ∧
    (load html = case_doc -> emails = [js "a@b.com"]).
Proof.
  unfold basicScrape.
  destruct (harvest_total (remove (Either (Tag (js "script")) (Tag (js "style"))) (load html)))
    as [rawSet Hr].
  exists (sanitize_all rawSet).
  destruct (sanitize_all_spec rawSet) as [Hnd Hin].
  assert (Hcan : Forall (fun e => toLowerCase e = e) (sanitize_all rawSet)).
  { apply Forall_forall. intros e He. apply Hin in He as (raw & _ & Hs).
    apply toLowerCase_canonical. by eapply sanitize_canonical. }
  split_and!.
  - rewrite Hr. done.
  - done.
  - intros i j a b Hi Hj Hab.
    rewrite Forall_forall in Hcan.
    rewrite (Hcan a), (Hcan b) in Hab by (eapply list_elem_of_lookup_2; eauto).
    subst b. eapply NoDup_lookup; eauto.
  - intros Hload. rewrite Hload in Hr.
    vm_compute in Hr. inversion Hr. vm_compute. reflexivity.
Qed.

Lemma extract_case_insensitive_dedup_witness :
  basicScrape (fun _ => case_doc) [] = Normal [js "a@b.com"].
Proof.
  destruct (extract_case_insensitive_dedup (fun _ => case_doc) [])
    as (emails & -> & _ & _ & H).
  rewrite (H eq_refl). reflexivity.
Defined.

(** C7: what stands inside script and style subtrees does not reach the
    extracted set: two documents that differ only there give the same
    result. *)
Theorem script_and_style_ignored (load : jsstring -> document) (html1 html2 : jsstring) :
  script_variant (load html1) (load html2) ->
  basicScrape load html1 = basicScrape load html2.
Proof.
  intros H. unfold basicScrape. by rewrite (remove_variant _ _ H).
Qed.

Lemma script_doc_variant : script_variant script_doc script_doc_stripped.
Proof.
  unfold script_doc, script_doc_stripped, el.
  apply variant_element; [reflexivity | | constructor].
  apply variant_element; [reflexivity | | ].
  - apply variant_left; [reflexivity | constructor].
  - apply variant_element; [reflexivity | | constructor].
    apply variant_text. apply variant_left; [reflexivity | constructor].
Qed.

Lemma script_and_style_ignored_witness :
  basicScrape (fun h => match h with [] => script_doc | _ => script_doc_stripped end) []
  = Normal [js "a@b.com"].
Proof.
  rewrite (script_and_style_ignored _ [] [0%N]).
  - vm_compute. reflexivity.
  - exact script_doc_variant.
Defined.

(** C8: on every markup the extractor ends, without throwing, with a list
    of addresses. *)
Theorem extract_never_throws (load : jsstring -> document) (html : jsstring) :
  ∃ emails, basicScrape load html = Normal emails.
Proof. apply basicScrape_total. Qed.

(* ===================================================================== *)
(** * 15. Lemmas on the resolver *)
(* ===================================================================== *)

(** ** The render fallback, path by path *)

Ltac unfold_io :=
  unfold render_fallback, try_catch_finally, try_catch, scope, when, newPage,
    setUserAgent, goto, content, close, fetch, await, set_page, set_emails,
    console_log, console_warn, console_error, emit, settle, lift, get, put,
    mbind, io_bind, mret, io_ret in *.

Ltac elem_here :=
  repeat first [apply list_elem_of_here | apply list_elem_of_further].

Ltac elem_cases :=
  repeat match goal with
         | H : _ ∈ [] |- _ => by apply elem_of_nil in H
         | H : _ ∈ _ :: _ |- _ => apply elem_of_cons in H as [H|H]
         | H : _ ∈ _ ++ _ |- _ => apply elem_of_app in H as [H|H]
         end.

Section Fallback.
Variable env : environment.

Lemma render_fallback_paths finalUrl s tr :
  ∃ evs r s',
    render_fallback env finalUrl s tr = (r, s', tr ++ evs) ∧
    fallback_path (cheerio_load env) finalUrl (v_emails s) (fresh_page tr) evs r
                  (v_emails s').
Proof.
  destruct s as [emails0 pg].
  unfold_io. unfold let_page. simpl.
  destruct (browser_newPage env tr) as [[]|err] eqn:E1; simpl.
  2:{ eexists _, _, _. split; [rewrite <- app_assoc; reflexivity|]. constructor. }
  destruct (page_setUserAgent env _ _) as [[]|err] eqn:E2; simpl.
  2:{ destruct (page_close env _ _) as [[]|e] eqn:Ec; simpl;
      (eexists _, _, _; split; [rewrite <- !app_assoc; simpl; reflexivity|]);
      [apply (path_failed _ _ _ _ ([EvSetUserAgent (fresh_page tr) BROWSER_UA (Rejects err)]) err (Returns tt))
      |apply (path_failed _ _ _ _ ([EvSetUserAgent (fresh_page tr) BROWSER_UA (Rejects err)]) err (Rejects e))];
      auto. }
  destruct (page_goto env _ _ _) as [[]|err] eqn:E3; simpl.
  2:{ destruct (page_close env _ _) as [[]|e] eqn:Ec; simpl;
      (eexists _, _, _; split; [rewrite <- !app_assoc; simpl; reflexivity|]);
      [apply (path_failed _ _ _ _ ([EvSetUserAgent (fresh_page tr) BROWSER_UA (Returns tt); EvGoto (fresh_page tr) finalUrl 30000 (Rejects err)]) err (Returns tt))
      |apply (path_failed _ _ _ _ ([EvSetUserAgent (fresh_page tr) BROWSER_UA (Returns tt); EvGoto (fresh_page tr) finalUrl 30000 (Rejects err)]) err (Rejects e))];
      auto. }
  destruct (page_content env _ _) as [rendered|err] eqn:E4; simpl.
  2:{ destruct (page_close env _ _) as [[]|e] eqn:Ec; simpl;
      (eexists _, _, _; split; [rewrite <- !app_assoc; simpl; reflexivity|]);
      [apply (path_failed _ _ _ _ ([EvSetUserAgent (fresh_page tr) BROWSER_UA (Returns tt); EvGoto (fresh_page tr) finalUrl 30000 (Returns tt); EvContent (fresh_page tr) (Rejects err)]) err (Returns tt))
      |apply (path_failed _ _ _ _ ([EvSetUserAgent (fresh_page tr) BROWSER_UA (Returns tt); EvGoto (fresh_page tr) finalUrl 30000 (Returns tt); EvContent (fresh_page tr) (Rejects err)]) err (Rejects e))];
      auto. }
  destruct (basicScrape_total (cheerio_load env) rendered) as [emails Hb].
  rewrite Hb. simpl.
  destruct (page_close env _ _) as [[]|e] eqn:Ec; simpl;
    (eexists _, _, _; split; [rewrite <- !app_assoc; simpl; reflexivity|]).
  - by apply (path_rendered _ _ _ _ rendered emails (Returns tt)).
  - by apply (path_rendered _ _ _ _ rendered emails (Rejects e)).
Qed.
End Fallback.

(** ** [scrapeEmails], case by case *)

Section Resolver.
Variable env : environment.
Context {S : Type}.

Lemma scrapeEmails_rejected url (s : S) tr err :
  net_fetch env tr url = Rejects err ->
  scrapeEmails env url s tr
  = (Throw err, s, tr ++ [EvFetch url BROWSER_UA (Rejects err)]).
Proof.
  intros H. unfold scrapeEmails, scrapeEmails_body. unfold_io. by rewrite H.
Qed.

Lemma when_redirect {L} url res (l : L) tr :
  when (bool_decide (res_url res ≠ url))
       (console_log (msg_redirected url (res_url res))) l tr
  = (Normal tt, l, tr ++ redirect_log url res).
Proof.
  unfold when, redirect_log, console_log, emit.
  case_bool_decide; [done|]. by rewrite app_nil_r.
Qed.

Lemma scrapeEmails_body_unreadable url res (s : S) tr err :
  net_fetch env tr url = Returns res -> res_text res = Rejects err ->
  scrapeEmails env url s tr
  = (Throw err, s, tr ++ EvFetch url BROWSER_UA (Returns res) :: redirect_log url res).
Proof.
  intros H1 H2. unfold scrapeEmails, scrapeEmails_body, scope.
  unfold mbind at 1. unfold io_bind. unfold fetch, await. rewrite H1. simpl.
  unfold mbind at 1. unfold io_bind. rewrite when_redirect.
  unfold mbind at 1. unfold io_bind, settle, lift. rewrite H2. simpl.
  by rewrite <- app_assoc.
Qed.

Lemma scrapeEmails_static url res html emails (s : S) tr :
  net_fetch env tr url = Returns res -> res_text res = Returns html ->
  basicScrape (cheerio_load env) html = Normal emails -> emails ≠ [] ->
  scrapeEmails env url s tr
  = (Normal emails, s, tr ++ EvFetch url BROWSER_UA (Returns res) :: redirect_log url res).
Proof.
  intros H1 H2 H3 H4. unfold scrapeEmails, scrapeEmails_body, scope.
  unfold mbind at 1. unfold io_bind. unfold fetch, await. rewrite H1. simpl.
  unfold mbind at 1. unfold io_bind. rewrite when_redirect.
  unfold mbind at 1. unfold io_bind, settle, lift. rewrite H2. simpl.
  unfold mbind at 1. unfold io_bind. rewrite H3.
  unfold mbind at 1. unfold io_bind, set_emails. simpl.
  unfold mbind at 1. unfold io_bind.
  rewrite bool_decide_eq_false_2 by (by destruct emails).
  simpl. by rewrite <- app_assoc.
Qed.

Lemma scrapeEmails_escalates url res html (s : S) tr :
  net_fetch env tr url = Returns res -> res_text res = Returns html ->
  basicScrape (cheerio_load env) html = Normal [] ->
  ∃ p evs r emails,
    fallback_path (cheerio_load env) (res_url res) [] p evs r emails ∧
    scrapeEmails env url s tr
    = (r ≫= (fun _ => Normal emails), s,
       tr ++ EvFetch url BROWSER_UA (Returns res) :: redirect_log url res
          ++ EvLog (msg_rendering (res_url res)) :: evs).
Proof.
  intros H1 H2 H3. unfold scrapeEmails, scrapeEmails_body, scope.
  unfold mbind at 1. unfold io_bind. unfold fetch, await. rewrite H1. simpl.
  unfold mbind at 1. unfold io_bind. rewrite when_redirect.
  unfold mbind at 1. unfold io_bind, settle, lift. rewrite H2. simpl.
  unfold mbind at 1. unfold io_bind. rewrite H3.
  unfold mbind at 1. unfold io_bind, set_emails. simpl.
  unfold mbind at 1. unfold io_bind. simpl.
  unfold mbind at 1. unfold io_bind, console_log, emit.
  match goal with
  | |- context [render_fallback env ?u ?l ?t] =>
      destruct (render_fallback_paths env u l t) as (evs & r & l' & -> & Hp)
  end.
  simpl in Hp.
  eexists _, evs, r, (v_emails l').
  split; [exact Hp|].
  destruct r as [[]|e|]; simpl; repeat rewrite <- app_assoc; simpl; done.
Qed.
End Resolver.

(** ** Facts read off a path of the fallback *)

Ltac path_cases H :=
  let Hev := fresh "Hev" in
  let c := fresh "c" in
  destruct H as [?|? ? c Hev|? ? c ?];
  [|destruct Hev as [-> | [-> | ->]]|]; simpl.

Lemma fallback_path_no_diverge load u e0 p evs r e1 :
  fallback_path load u e0 p evs r e1 -> r ≠ Diverge.
Proof.
  intros H. path_cases H; try done;
    match goal with c : outcome unit |- _ => by destruct c end.
Qed.

Lemma fallback_path_starts load u e0 p evs r e1 :
  fallback_path load u e0 p evs r e1 -> ∃ o evs', evs = EvNewPage o :: evs'.
Proof. intros H. path_cases H; eauto. Qed.

Lemma fallback_path_goto load u e0 p evs r e1 q v t o :
  fallback_path load u e0 p evs r e1 ->
  EvGoto q v t o ∈ evs -> q = p ∧ v = u ∧ t = 30000%N.
Proof.
  intros H. path_cases H; intros Hin; elem_cases; try discriminate; by inversion Hin.
Qed.

Lemma fallback_path_closes load u e0 p evs r e1 q :
  fallback_path load u e0 p evs r e1 ->
  EvNewPage (Returns q) ∈ evs -> ∃ o, last evs = Some (EvClose q o).
Proof.
  intros H. path_cases H; intros Hin; elem_cases; try discriminate;
    inversion Hin; subst; eauto.
Qed.

Lemma fallback_path_rendered load u e0 p evs r e1 q rendered :
  fallback_path load u e0 p evs r e1 ->
  EvContent q (Returns rendered) ∈ evs ->
  ∃ c, last evs = Some (EvClose q c) ∧ r = settled c ∧
       basicScrape load rendered = Normal e1.
Proof.
  intros H. path_cases H; intros Hin; elem_cases; try discriminate.
  inversion Hin; subst. eauto.
Qed.

Lemma fallback_path_absorbs load u e0 p evs r e1 q v t err :
  fallback_path load u e0 p evs r e1 ->
  EvGoto q v t (Rejects err) ∈ evs ->
  ∃ c, last evs = Some (EvClose q c) ∧ r = settled c ∧
       e1 = e0 ∧ EvWarn (msg_puppeteer_error u err) ∈ evs.
Proof.
  intros H. path_cases H; intros Hin; elem_cases; try discriminate.
  inversion Hin; subst. eexists. split_and!; eauto. elem_here.
Qed.

(* ===================================================================== *)
(** * 16. Theorems on the per-URL resolver *)
(* ===================================================================== *)

Lemma redirect_log_quiet url res :
  Forall (fun ev => is_page_event ev = false) (redirect_log url res).
Proof. unfold redirect_log. case_bool_decide; repeat constructor. Qed.

(** C4: when the static body yields addresses, the resolver returns them
    and does nothing with the rendering context. *)
Theorem static_hit_never_renders (env : environment) {S : Type}
    (url : jsstring) (res : response) (html : jsstring) (emails : list jsstring)
    (s : S) (tr : trace) :
  net_fetch env tr url = Returns res ->
  res_text res = Returns html ->
  basicScrape (cheerio_load env) html = Normal emails ->
  emails ≠ [] ->
  ∃ evs, scrapeEmails env url s tr = (Normal emails, s, tr ++ evs) ∧
         Forall (fun ev => is_page_event ev = false) evs.
Proof.
  intros H1 H2 H3 H4.
  exists (EvFetch url BROWSER_UA (Returns res) :: redirect_log url res).
  split; [by eapply scrapeEmails_static|].
  constructor; [done | apply redirect_log_quiet].
Qed.

Lemma static_hit_never_renders_witness :
  ∃ evs, scrapeEmails env_static (js "http://example.com") tt []
         = (Normal [js "info@example.com"], tt, [] ++ evs) ∧
         Forall (fun ev => is_page_event ev = false) evs.
Proof.
  apply (static_hit_never_renders env_static (js "http://example.com")
           (Response (js "http://example.com") 200 (Returns (js "Mail info@example.com")))
           (js "Mail info@example.com")).
  - reflexivity.
  - reflexivity.
  - vm_compute. reflexivity.
  - discriminate.
Defined.

(** ** The escalating run, call by call *)

Ltac answered_here :=
  cbn [answered answer_of app];
  repeat match goal with
         | H : _ = _ |- _ => rewrite H
         end;
  split_and!; done.

Section Escalation.
Variable env : environment.

(** The fallback follows one of its paths, and every call on it got the
    answer of the environment. *)
Lemma render_fallback_answered finalUrl s tr :
  ∃ evs r s',
    render_fallback env finalUrl s tr = (r, s', tr ++ evs) ∧
    fallback_path (cheerio_load env) finalUrl (v_emails s) (fresh_page tr) evs r
                  (v_emails s') ∧
    answered env tr evs.
Proof.
  destruct s as [emails0 pg].
  unfold_io. unfold let_page. simpl.
  destruct (browser_newPage env tr) as [[]|err] eqn:E1; simpl.
  2:{ eexists _, _, _. split; [rewrite <- app_assoc; reflexivity|].
      split; [apply path_no_page | answered_here]. }
  destruct (page_setUserAgent env _ _) as [[]|err] eqn:E2; simpl.
  2:{ destruct (page_close env _ _) as [[]|e] eqn:Ec; simpl;
      (eexists _, _, _; split; [rewrite <- !app_assoc; simpl; reflexivity|]);
      (split; [|answered_here]);
      [apply (path_failed _ _ _ _ ([EvSetUserAgent (fresh_page tr) BROWSER_UA (Rejects err)]) err (Returns tt))
      |apply (path_failed _ _ _ _ ([EvSetUserAgent (fresh_page tr) BROWSER_UA (Rejects err)]) err (Rejects e))];
      auto. }
  destruct (page_goto env _ _ _) as [[]|err] eqn:E3; simpl.
  2:{ destruct (page_close env _ _) as [[]|e] eqn:Ec; simpl;
      (eexists _, _, _; split; [rewrite <- !app_assoc; simpl; reflexivity|]);
      (split; [|answered_here]);
      [apply (path_failed _ _ _ _ ([EvSetUserAgent (fresh_page tr) BROWSER_UA (Returns tt); EvGoto (fresh_page tr) finalUrl 30000 (Rejects err)]) err (Returns tt))
      |apply (path_failed _ _ _ _ ([EvSetUserAgent (fresh_page tr) BROWSER_UA (Returns tt); EvGoto (fresh_page tr) finalUrl 30000 (Rejects err)]) err (Rejects e))];
      auto. }
  destruct (page_content env _ _) as [rendered|err] eqn:E4; simpl.
  2:{ destruct (page_close env _ _) as [[]|e] eqn:Ec; simpl;
      (eexists _, _, _; split; [rewrite <- !app_assoc; simpl; reflexivity|]);
      (split; [|answered_here]);
      [apply (path_failed _ _ _ _ ([EvSetUserAgent (fresh_page tr) BROWSER_UA (Returns tt); EvGoto (fresh_page tr) finalUrl 30000 (Returns tt); EvContent (fresh_page tr) (Rejects err)]) err (Returns tt))
      |apply (path_failed _ _ _ _ ([EvSetUserAgent (fresh_page tr) BROWSER_UA (Returns tt); EvGoto (fresh_page tr) finalUrl 30000 (Returns tt); EvContent (fresh_page tr) (Rejects err)]) err (Rejects e))];
      auto. }
  destruct (basicScrape_total (cheerio_load env) rendered) as [emails Hb].
  rewrite Hb. simpl.
  destruct (page_close env _ _) as [[]|e] eqn:Ec; simpl;
    (eexists _, _, _; split; [rewrite <- !app_assoc; simpl; reflexivity|]);
    (split; [|clear Hb; answered_here]).
  - by apply (path_rendered _ _ _ _ rendered emails (Returns tt)).
  - by apply (path_rendered _ _ _ _ rendered emails (Rejects e)).
Qed.

Context {S : Type}.

Lemma scrapeEmails_escalates_answered url res html (s : S) tr :
  net_fetch env tr url = Returns res -> res_text res = Returns html ->
  basicScrape (cheerio_load env) html = Normal [] ->
  ∃ p evs c emails,
    scrapeEmails env url s tr
    = (c ≫= (fun _ => Normal emails), s,
       (tr ++ EvFetch url BROWSER_UA (Returns res) :: redirect_log url res
           ++ [EvLog (msg_rendering (res_url res))]) ++ evs) ∧
    fallback_path (cheerio_load env) (res_url res) [] p evs c emails ∧
    answered env
      (tr ++ EvFetch url BROWSER_UA (Returns res) :: redirect_log url res
          ++ [EvLog (msg_rendering (res_url res))]) evs.
Proof.
  intros H1 H2 H3. unfold scrapeEmails, scrapeEmails_body, scope.
  unfold mbind at 1. unfold io_bind. unfold fetch, await. rewrite H1. simpl.
  unfold mbind at 1. unfold io_bind. rewrite when_redirect.
  unfold mbind at 1. unfold io_bind, settle, lift. rewrite H2. simpl.
  unfold mbind at 1. unfold io_bind. rewrite H3.
  unfold mbind at 1. unfold io_bind, set_emails. simpl.
  unfold mbind at 1. unfold io_bind. simpl.
  unfold mbind at 1. unfold io_bind, console_log, emit.
  replace (((tr ++ [EvFetch url BROWSER_UA (Returns res)]) ++ redirect_log url res)
           ++ [EvLog (msg_rendering (res_url res))])
    with (tr ++ EvFetch url BROWSER_UA (Returns res) :: redirect_log url res
             ++ [EvLog (msg_rendering (res_url res))])
    by (by rewrite <- !app_assoc).
  match goal with
  | |- context [render_fallback env ?u ?l ?t] =>
      destruct (render_fallback_answered u l t) as (evs & r & l' & -> & Hp & Ha)
  end.
  simpl in Hp.
  eexists _, evs, r, (v_emails l').
  split_and!; [|exact Hp | exact Ha].
  destruct r as [[]|e|]; done.
Qed.
End Escalation.

(** C5 (as amended): when the static body yields nothing, the resolver
    logs the escalation and runs the fallback along one of its paths, each
    call getting the answer of the environment: it asks for a page; on the
    page it sets the user agent, navigates to the final URL within 30 s and
    reads the content, up to the first call that rejects; a rejection
    leaves a warning; an opened page is closed last.  With [c] the
    completion of [page.close()] (or of nothing, when no page opened), the
    result is [c] followed by what the rendered body yields, empty or not,
    and [c] followed by the empty list after a rejection: a navigation that
    times out or fails is absorbed, a rejection of [page.close()] is the
    one failure that surfaces. *)
Theorem empty_static_escalates (env : environment) {S : Type}
    (url : jsstring) (res : response) (html : jsstring) (s : S) (tr : trace) :
  net_fetch env tr url = Returns res ->
  res_text res = Returns html ->
  basicScrape (cheerio_load env) html = Normal [] ->
  ∃ p evs c emails,
    scrapeEmails env url s tr
    = (c ≫= (fun _ => Normal emails), s,
       (tr ++ EvFetch url BROWSER_UA (Returns res) :: redirect_log url res
           ++ [EvLog (msg_rendering (res_url res))]) ++ evs) ∧
    fallback_path (cheerio_load env) (res_url res) [] p evs c emails ∧
    answered env
      (tr ++ EvFetch url BROWSER_UA (Returns res) :: redirect_log url res
          ++ [EvLog (msg_rendering (res_url res))]) evs.
Proof. apply scrapeEmails_escalates_answered. Qed.

Lemma empty_static_escalates_witness :
  scrapeEmails env_timeout (js "http://old.example") tt []
  = (Normal [], tt,
     [EvFetch (js "http://old.example") BROWSER_UA (redirecting_site []);
      EvLog (msg_redirected (js "http://old.example") (js "https://new.example/"));
      EvLog (msg_rendering (js "https://new.example/"));
      EvNewPage (Returns 0); EvSetUserAgent 0 BROWSER_UA (Returns tt);
      EvGoto 0 (js "https://new.example/") 30000 (Rejects timeout_error);
      EvWarn (msg_puppeteer_error (js "https://new.example/") timeout_error);
      EvClose 0 (Returns tt)])
  ∧ ∃ p evs c emails,
      scrapeEmails env_rendered (js "http://old.example") tt []
      = (c ≫= (fun _ => Normal emails), tt,
         ([] ++ EvFetch (js "http://old.example") BROWSER_UA
                  (Returns (Response (js "https://new.example/") 200 (Returns (js "Loading"))))
             :: redirect_log (js "http://old.example")
                  (Response (js "https://new.example/") 200 (Returns (js "Loading")))
             ++ [EvLog (msg_rendering (js "https://new.example/"))]) ++ evs) ∧
      fallback_path text_load (js "https://new.example/") [] p evs c emails ∧
      answered env_rendered
        ([] ++ EvFetch (js "http://old.example") BROWSER_UA
                 (Returns (Response (js "https://new.example/") 200 (Returns (js "Loading"))))
            :: redirect_log (js "http://old.example")
                 (Response (js "https://new.example/") 200 (Returns (js "Loading")))
            ++ [EvLog (msg_rendering (js "https://new.example/"))]) evs.
Proof.
  split; [vm_compute; reflexivity|].
  apply (empty_static_escalates env_rendered (js "http://old.example")
           (Response (js "https://new.example/") 200 (Returns (js "Loading")))
           (js "Loading") tt []).
  - reflexivity.
  - reflexivity.
  - vm_compute. reflexivity.
Defined.

(** C5, as stated, fails: when [page.close()] rejects, the resolver fails,
    after a navigation that timed out as well as after a good render. *)
Lemma close_rejection_surfaces :
  scrapeEmails (with_failing_close env_timeout target_closed)
               (js "http://old.example") tt []
  = (Throw target_closed, tt,
     [EvFetch (js "http://old.example") BROWSER_UA (redirecting_site []);
      EvLog (msg_redirected (js "http://old.example") (js "https://new.example/"));
      EvLog (msg_rendering (js "https://new.example/"));
      EvNewPage (Returns 0); EvSetUserAgent 0 BROWSER_UA (Returns tt);
      EvGoto 0 (js "https://new.example/") 30000 (Rejects timeout_error);
      EvWarn (msg_puppeteer_error (js "https://new.example/") timeout_error);
      EvClose 0 (Rejects target_closed)])
  ∧ scrapeEmails (with_failing_close env_rendered target_closed)
                 (js "http://old.example") tt []
    = (Throw target_closed, tt,
       [EvFetch (js "http://old.example") BROWSER_UA (redirecting_site []);
        EvLog (msg_redirected (js "http://old.example") (js "https://new.example/"));
        EvLog (msg_rendering (js "https://new.example/"));
        EvNewPage (Returns 0); EvSetUserAgent 0 BROWSER_UA (Returns tt);
        EvGoto 0 (js "https://new.example/") 30000 (Returns tt);
        EvContent 0 (Returns (js "contact@example.org"));
        EvClose 0 (Rejects target_closed)]).
Proof. split; vm_compute; reflexivity. Qed.

(** C9: however the fallback ends, a page it has opened gets [page.close()]
    as the last step before the fallback completes: after a successful
    render, after a navigation that timed out or failed, and after any
    other rejected call on the page. *)
Theorem page_closed_on_every_exit (env : environment)
    (finalUrl : jsstring) (s : scrape_locals) (tr : trace) :
  ∃ r s' evs,
    render_fallback env finalUrl s tr = (r, s', tr ++ evs) ∧
    r ≠ Diverge ∧
    (∀ p, EvNewPage (Returns p) ∈ evs -> ∃ o, last evs = Some (EvClose p o)) ∧
    (∀ p u t o, EvGoto p u t o ∈ evs -> ∃ o', last evs = Some (EvClose p o')).
Proof.
  destruct (render_fallback_paths env finalUrl s tr) as (evs & r & s' & E & Hp).
  exists r, s', evs. split_and!; auto.
  - by eapply fallback_path_no_diverge.
  - intros p. by eapply fallback_path_closes.
  - intros p u t o Hin.
    destruct (fallback_path_goto _ _ _ _ _ _ _ _ _ _ _ Hp Hin) as (-> & _ & _).
    eapply fallback_path_closes; [exact Hp|].
    clear -Hp Hin. revert Hin.
    destruct Hp as [?|? ? ? Hev|]; [|destruct Hev as [-> | [-> | ->]]|];
      simpl; intros Hin; elem_cases; try discriminate; elem_here.
Qed.

Lemma page_closed_on_every_exit_witness :
  ∃ evs o,
    render_fallback env_timeout (js "https://new.example/") (ScrapeLocals [] None) []
    = (Normal tt, ScrapeLocals [] (Some 0), evs) ∧
    EvGoto 0 (js "https://new.example/") 30000 (Rejects timeout_error) ∈ evs ∧
    last evs = Some (EvClose 0 o).
Proof.
  destruct (page_closed_on_every_exit env_timeout (js "https://new.example/")
              (ScrapeLocals [] None) []) as (r & s' & evs & E & _ & _ & H).
  assert (E' : render_fallback env_timeout (js "https://new.example/")
                 (ScrapeLocals [] None) []
               = (Normal tt, ScrapeLocals [] (Some 0),
                  [EvNewPage (Returns 0); EvSetUserAgent 0 BROWSER_UA (Returns tt);
                   EvGoto 0 (js "https://new.example/") 30000 (Rejects timeout_error);
                   EvWarn (msg_puppeteer_error (js "https://new.example/") timeout_error);
                   EvClose 0 (Returns tt)]))
    by (vm_compute; reflexivity).
  rewrite E' in E. injection E as <- <- <-.
  destruct (H 0 (js "https://new.example/") 30000%N (Rejects timeout_error))
    as [o Ho]; [elem_here|].
  eexists _, o. split; [exact E'|]. split; [elem_here | exact Ho].
Defined.

(* ===================================================================== *)
(** * 17. Lemmas on the loop over the records *)
(* ===================================================================== *)

(** ** The loop over the records *)

Section Loop.
Variable env : environment.
Context {S : Type}.

(** [scrapeEmails] settles, and only adds to the trace. *)
Lemma scrapeEmails_settles url (s : S) tr :
  ∃ r evs, scrapeEmails env url s tr = (r, s, tr ++ evs) ∧ r ≠ Diverge.
Proof.
  destruct (net_fetch env tr url) as [res|err] eqn:H1.
  2:{ eexists _, _. split; [by apply scrapeEmails_rejected | done]. }
  destruct (res_text res) as [html|err] eqn:H2.
  2:{ eexists _, _. split; [by eapply scrapeEmails_body_unreadable | done]. }
  destruct (basicScrape_total (cheerio_load env) html) as [[|e emails] H3].
  - destruct (scrapeEmails_escalates env url res html s tr H1 H2 H3)
      as (p & evs & r & emails & Hp & ->).
    eexists _, _. split; [reflexivity|].
    apply fallback_path_no_diverge in Hp. by destruct r.
  - eexists _, _. split; [by eapply scrapeEmails_static | done].
Qed.

Lemma process_record_blank rec (s : S) tr :
  falsy (get_prop (js "website") rec) = true ->
  process_record env rec s tr = (Normal (set_prop (js "emails") (js "[]") rec), s, tr).
Proof. intros H. unfold process_record. by rewrite H. Qed.

Lemma process_record_found rec url emails (s : S) tr tr1 :
  get_prop (js "website") rec = Some url -> url ≠ [] ->
  scrapeEmails env url s tr = (Normal emails, s, tr1) ->
  process_record env rec s tr
  = (Normal (set_prop (js "emails") (JSON_stringify emails) rec), s,
     tr1 ++ [EvLog (msg_found url (length emails))]).
Proof.
  intros H1 H2 H3. unfold process_record. rewrite H1.
  destruct url as [|c url]; [done|]. simpl.
  unfold try_catch, try_catch_finally.
  unfold mbind at 1. unfold io_bind. rewrite H3. done.
Qed.

Lemma process_record_failed rec url err (s : S) tr tr1 :
  get_prop (js "website") rec = Some url -> url ≠ [] ->
  scrapeEmails env url s tr = (Throw err, s, tr1) ->
  process_record env rec s tr
  = (Normal (set_prop (js "emails") ERROR_MARKER rec), s,
     tr1 ++ [EvError (msg_failed url err)]).
Proof.
  intros H1 H2 H3. unfold process_record. rewrite H1.
  destruct url as [|c url]; [done|]. simpl.
  unfold try_catch, try_catch_finally.
  unfold mbind at 1. unfold io_bind. rewrite H3. done.
Qed.

(** The body of the loop always completes normally, with the [emails]
    property of the record set. *)
Lemma process_record_total rec (s : S) tr :
  ∃ v evs, process_record env rec s tr
           = (Normal (set_prop (js "emails") v rec), s, tr ++ evs).
Proof.
  destruct (falsy (get_prop (js "website") rec)) eqn:Hf.
  - exists (js "[]"), []. rewrite app_nil_r. by apply process_record_blank.
  - destruct (get_prop (js "website") rec) as [[|c url]|] eqn:Hu; try done.
    destruct (scrapeEmails_settles (c :: url) s tr) as (r & evs & E & Hr).
    destruct r as [emails|err|]; [| |done].
    + exists (JSON_stringify emails), (evs ++ [EvLog (msg_found (c :: url) (length emails))]).
      rewrite (process_record_found rec (c :: url) emails s tr (tr ++ evs)); auto.
      by rewrite <- app_assoc.
    + exists ERROR_MARKER, (evs ++ [EvError (msg_failed (c :: url) err)]).
      rewrite (process_record_failed rec (c :: url) err s tr (tr ++ evs)); auto.
      by rewrite <- app_assoc.
Qed.

Lemma for_of_cons rec rest rec' (s : S) tr tr1 :
  process_record env rec s tr = (Normal rec', s, tr1) ->
  for_of (process_record env) (rec :: rest) s tr
  = match for_of (process_record env) rest s tr1 with
    | (Normal rest', s', tr') => (Normal (rec' :: rest'), s', tr')
    | other => other
    end.
Proof.
  intros H. simpl. unfold mbind at 1. unfold io_bind. rewrite H.
  unfold mbind at 1. unfold io_bind.
  destruct (for_of (process_record env) rest s tr1) as [[[r'|e|] s'] tr']; done.
Qed.

(** The loop visits every record, whatever happens to the others. *)
Lemma for_of_process_total recs : ∀ (s : S) tr,
  ∃ recs' evs,
    for_of (process_record env) recs s tr = (Normal recs', s, tr ++ evs) ∧
    Forall2 (fun rec rec' => ∃ v, rec' = set_prop (js "emails") v rec) recs recs'.
Proof.
  induction recs as [|rec rest IH]; intros s tr.
  - exists [], []. rewrite app_nil_r. split; [done | constructor].
  - destruct (process_record_total rec s tr) as (v & evs & E).
    destruct (IH s (tr ++ evs)) as (rest' & evs' & E' & HF).
    exists (set_prop (js "emails") v rec :: rest'), (evs ++ evs').
    split.
    + rewrite (for_of_cons _ _ _ _ _ _ E), E'. by rewrite <- app_assoc.
    + constructor; eauto.
Qed.
End Loop.

(** ** Cells *)

Lemma undouble_escape v :
  undouble (flat_map (fun c => if (c =? dquote)%N then [dquote; dquote] else [c]) v
            ++ [dquote]) = Some v.
Proof.
  induction v as [|c v IH]; simpl; [done|].
  destruct (c =? dquote)%N eqn:E; simpl.
  - rewrite IH. simpl. apply N.eqb_eq in E. by subst.
  - rewrite E, IH. done.
Qed.

(** Reading a cell back gives the value that was written. *)
Lemma unescape_escape v : unescapeCell (escapeCell v) = Some v.
Proof. unfold unescapeCell, escapeCell. simpl. apply undouble_escape. Qed.

Lemma get_set_prop key value r : get_prop key (set_prop key value r) = Some value.
Proof.
  induction r as [|[k v] r IH]; simpl.
  - by rewrite bool_decide_eq_true_2.
  - case_bool_decide as E; simpl.
    + by rewrite bool_decide_eq_true_2.
    + by rewrite bool_decide_eq_false_2.
Qed.

Lemma csv_cells_lookup headers r i h :
  headers !! i = Some h ->
  csv_cells headers r !! i = Some (escapeCell (cell_value r h)).
Proof. intros H. unfold csv_cells. by rewrite list_lookup_fmap, H. Qed.

(* ===================================================================== *)
(** * 18. Theorems on the batch driver *)
(* ===================================================================== *)

(** C1 (as amended): for a record whose resolution fails, every cell under
    an [emails] header reads back as the word ERROR between double quotes,
    seven code units. *)
Theorem error_cell_content (env : environment) {S : Type} (rec : record)
    (url : jsstring) (err : error) (s : S) (tr tr1 : trace) :
  get_prop (js "website") rec = Some url -> url ≠ [] ->
  scrapeEmails env url s tr = (Throw err, s, tr1) ->
  ∃ rec' tr',
    process_record env rec s tr = (Normal rec', s, tr') ∧
    ∀ headers i, headers !! i = Some (js "emails") ->
      ∃ cell, csv_cells headers rec' !! i = Some cell ∧
              unescapeCell cell = Some (dquote :: js "ERROR" ++ [dquote]).
Proof.
  intros H1 H2 H3.
  eexists _, _. split; [by eapply process_record_failed|].
  intros headers i Hi.
  exists (escapeCell ERROR_MARKER). split.
  - rewrite (csv_cells_lookup _ _ _ _ Hi). unfold cell_value.
    by rewrite get_set_prop.
  - apply unescape_escape.
Qed.

Lemma error_cell_content_witness :
  ∃ rec' tr',
    process_record env_batch down_record tt [] = (Normal rec', tt, tr') ∧
    ∀ headers i, headers !! i = Some (js "emails") ->
      ∃ cell, csv_cells headers rec' !! i = Some cell ∧
              unescapeCell cell = Some (dquote :: js "ERROR" ++ [dquote]).
Proof.
  apply (error_cell_content env_batch down_record (js "http://down.example")
           fetch_failed tt []
           [EvFetch (js "http://down.example") BROWSER_UA (Rejects fetch_failed)]).
  - reflexivity.
  - discriminate.
  - vm_compute. reflexivity.
Defined.

(** C1, as stated, fails: in the table written for the sample batch the
    cells of the failed record read back as the quoted word, not as the
    five letters. *)
Lemma error_cell_is_quoted :
  ∃ tr data,
    main env_batch tt [] = (Normal tt, tt, tr) ∧
    EvWriteFile (js "Leads.csv") data (Returns tt) ∈ tr ∧
    split 10 data
    = [ js "name,website,emails,emails";
        join (js ",") (map escapeCell
          [js "Up"; js "http://up.example";
           JSON_stringify [js "sales@up.example"];
           JSON_stringify [js "sales@up.example"]]);
        join (js ",") (map escapeCell
          [js "Down"; js "http://down.example"; ERROR_MARKER; ERROR_MARKER]) ] ∧
    unescapeCell (escapeCell ERROR_MARKER) = Some ERROR_MARKER ∧
    ERROR_MARKER ≠ js "ERROR".
Proof.
  destruct (main env_batch tt []) as [[r s] tr] eqn:E.
  vm_compute in E. injection E as <- <- <-.
  eexists _, _. split; [reflexivity|]. split; [elem_here|].
  split; [vm_compute; reflexivity|]. split; [vm_compute; reflexivity | discriminate].
Qed.

(** C2 (as amended): when the static request itself is rejected, the
    resolver throws without rendering anything (the fetch and the error
    line are the only events), the record gets the quoted marker, and the
    loop goes on with the remaining records. *)
Theorem fetch_failure_is_recorded (env : environment) {S : Type}
    (rec : record) (rest : list record) (url : jsstring) (err : error)
    (s : S) (tr : trace) :
  get_prop (js "website") rec = Some url -> url ≠ [] ->
  net_fetch env tr url = Rejects err ->
  let tr1 := tr ++ [EvFetch url BROWSER_UA (Rejects err); EvError (msg_failed url err)] in
  scrapeEmails env url s tr
  = (Throw err, s, tr ++ [EvFetch url BROWSER_UA (Rejects err)]) ∧
  process_record env rec s tr
  = (Normal (set_prop (js "emails") ERROR_MARKER rec), s, tr1) ∧
  ∃ rest' evs,
    for_of (process_record env) rest s tr1 = (Normal rest', s, tr1 ++ evs) ∧
    length rest' = length rest ∧
    for_of (process_record env) (rec :: rest) s tr
    = (Normal (set_prop (js "emails") ERROR_MARKER rec :: rest'), s, tr1 ++ evs).
Proof.
  intros H1 H2 H3 tr1.
  assert (E : process_record env rec s tr
              = (Normal (set_prop (js "emails") ERROR_MARKER rec), s, tr1)).
  { rewrite (process_record_failed env rec url err s tr
               (tr ++ [EvFetch url BROWSER_UA (Rejects err)])); auto.
    - unfold tr1. by rewrite <- app_assoc.
    - by apply scrapeEmails_rejected. }
  split; [by apply scrapeEmails_rejected|].
  split; [exact E|].
  destruct (for_of_process_total env rest s tr1) as (rest' & evs & E' & HF).
  exists rest', evs. split_and!; auto.
  - symmetry. by eapply Forall2_length.
  - by rewrite (for_of_cons _ _ _ _ _ _ _ E), E'.
Qed.

Lemma fetch_failure_is_recorded_witness :
  process_record env_batch down_record tt []
  = (Normal (set_prop (js "emails") ERROR_MARKER down_record), tt,
     [EvFetch (js "http://down.example") BROWSER_UA (Rejects fetch_failed);
      EvError (msg_failed (js "http://down.example") fetch_failed)]).
Proof.
  exact (proj1 (proj2 (fetch_failure_is_recorded env_batch down_record [up_record]
                         (js "http://down.example") fetch_failed tt []
                         eq_refl ltac:(discriminate) eq_refl))).
Defined.

(** C2, as stated, fails: a 404 answer is a response like any other, so the
    fallback runs and the record gets an array; and where the request is
    rejected the recorded value is the quoted marker, not the five
    letters. *)
Lemma not_found_is_not_a_failure :
  (∃ rec' tr,
     process_record env_404 down_record tt [] = (Normal rec', tt, tr) ∧
     EvNewPage (Returns 0) ∈ tr ∧
     get_prop (js "emails") rec' = Some (js "[]"))
  ∧ (∃ rec' tr,
       process_record env_batch down_record tt [] = (Normal rec', tt, tr) ∧
       get_prop (js "emails") rec' ≠ Some (js "ERROR")).
Proof.
  split.
  - destruct (process_record env_404 down_record tt []) as [[r s] tr] eqn:E.
    vm_compute in E. injection E as <- <- <-.
    eexists _, _. split; [reflexivity|]. split; [elem_here | reflexivity].
  - destruct (process_record env_batch down_record tt []) as [[r s] tr] eqn:E.
    vm_compute in E. injection E as <- <- <-.
    eexists _, _. split; [reflexivity | discriminate].
Qed.

(* ===================================================================== *)
(** * 19. Lemmas on the title and suffix patterns *)
(* ===================================================================== *)

(** ** Literal text in a pattern *)

Lemma concat_units a : concat (units a) = a.
Proof. induction a; simpl; congruence. Qed.

Lemma last_or_app prev a b : last_or prev (a ++ b) = last_or (last_or prev a) b.
Proof.
  unfold last_or. rewrite last_app.
  destruct (last b); [done|]. by destruct (last a).
Qed.

Lemma matches_lits_inv a : ∀ re prev u ps rest,
  matches (lits a ++ re) prev u ps rest ->
  ∃ u' ps', u = a ++ u' ∧ ps = units a ++ ps' ∧
            matches re (last_or prev a) u' ps' rest.
Proof.
  induction a as [|c a IH]; intros re prev u ps rest H; simpl in *.
  - eauto.
  - unfold Lit in H.
    inversion H as [|? ? ? ? ? w ? ? ? Hw Hw1 Hw2 H1 | | |]; subst; clear H.
    apply lit_run in Hw; auto. subst w.
    apply IH in H1 as (u' & ps' & -> & -> & H1).
    exists u', ps'. rewrite last_or_cons. simpl. done.
Qed.

Lemma matches_lits_intro a : ∀ re prev u' ps' rest,
  matches re (last_or prev a) u' ps' rest ->
  matches (lits a ++ re) prev (a ++ u') (units a ++ ps') rest.
Proof.
  induction a as [|c a IH]; intros re prev u' ps' rest H; simpl in *; [done|].
  rewrite last_or_cons in H.
  apply (matches_rep _ 1 (Some 1) _ prev [c]).
  - constructor; [|constructor].
    unfold charset_test, in_ranges, between. simpl.
    by rewrite N.leb_refl.
  - simpl; lia.
  - simpl; lia.
  - by apply IH.
Qed.

Lemma matches_rep_inv cs min max re prev u ps rest :
  matches (Rep cs min max :: re) prev u ps rest ->
  ∃ w u' ps', u = w ++ u' ∧ ps = w :: ps' ∧
    Forall (fun c => charset_test cs c = true) w ∧
    min ≤ length w ∧ within max (length w) ∧
    matches re (last_or prev w) u' ps' rest.
Proof. inversion 1; subst. eauto 10. Qed.

Lemma matches_end_inv prev u ps rest :
  matches [InputEnd] prev u ps rest -> u = [] ∧ rest = [] ∧ ps = [[]].
Proof.
  inversion 1 as [| | | |? ? ? ? H1]; subst. by inversion H1; subst.
Qed.

Lemma matches_nil_inv prev u ps rest :
  matches [] prev u ps rest -> ps = [] ∧ rest = u.
Proof. by inversion 1; subst. Qed.

(** ** The title pattern *)

Lemma not_lt_class c : charset_test (CharSet true [one "<"]) c = true <-> c ≠ ch "<".
Proof.
  unfold charset_test, in_ranges, between, one. simpl.
  rewrite orb_false_r.
  destruct (ch "<" <=? c)%N eqn:E1; destruct (c <=? ch "<")%N eqn:E2; simpl;
    rewrite ?N.leb_le, ?N.leb_gt in *; split; try done; try lia.
Qed.

Lemma title_matches_inv prev u ps rest :
  matches title_re prev u ps rest ->
  ∃ t, ps = units (js "<title>") ++ [t] ++ units (js "</title>") ∧
       u = js "<title>" ++ t ++ js "</title>" ++ rest ∧
       t ≠ [] ∧ ch "<" ∉ t.
Proof.
  unfold title_re. intros H.
  apply matches_lits_inv in H as (u1 & ps1 & -> & -> & H).
  unfold Plus in H. cbn [app] in H.
  apply matches_rep_inv in H as (t & u2 & ps2 & -> & -> & Ht & Ht1 & _ & H).
  rewrite <- (app_nil_r (lits (js "</title>"))) in H.
  apply matches_lits_inv in H as (u3 & ps3 & -> & -> & H).
  apply matches_nil_inv in H as [-> ->].
  exists t. rewrite !app_nil_r. split_and!; auto.
  - destruct t; simpl in *; [lia | done].
  - intros Hin. rewrite Forall_forall in Ht. apply Ht in Hin.
    by apply not_lt_class in Hin.
Qed.

Lemma title_matches_intro prev t rest :
  t ≠ [] -> ch "<" ∉ t ->
  matches title_re prev (js "<title>" ++ t ++ js "</title>" ++ rest)
          (units (js "<title>") ++ [t] ++ units (js "</title>")) rest.
Proof.
  intros Ht1 Ht2. unfold title_re.
  apply matches_lits_intro. cbn [app].
  apply (matches_rep _ 1 None).
  - apply Forall_forall. intros c Hc. apply not_lt_class. by intros ->.
  - destruct t; simpl; [done | lia].
  - exact I.
  - rewrite <- (app_nil_r (units (js "</title>"))).
    rewrite <- (app_nil_r (lits (js "</title>"))).
    apply matches_lits_intro. constructor.
Qed.

Lemma title_at_occurs html i t :
  title_at html i t ->
  occurs_at title_re html i (js "<title>" ++ t ++ js "</title>").
Proof.
  intros (pre & post & -> & <- & Ht1 & Ht2).
  exists (units (js "<title>") ++ [t] ++ units (js "</title>")).
  split.
  { rewrite !concat_app, !concat_units. simpl. by rewrite app_nil_r. }
  rewrite take_app_length, drop_app_length.
  split; [|rewrite length_app; lia].
  assert (E : drop (length (js "<title>" ++ t ++ js "</title>"))
                (js "<title>" ++ t ++ js "</title>" ++ post) = post).
  { replace (js "<title>" ++ t ++ js "</title>" ++ post)
      with ((js "<title>" ++ t ++ js "</title>") ++ post)
      by (by rewrite <- !app_assoc).
    apply drop_app_length. }
  rewrite E. by apply title_matches_intro.
Qed.

(** What [htmlDoc.match(title_re)] finds: the first title of the page, its
    text in the group. *)
Lemma title_match_some html m :
  str_match title_re html = Some m ->
  ∃ t, m_pieces m !! title_group = Some t ∧
       title_at html (length (m_before m)) t ∧
       ∀ j t', title_at html j t' -> length (m_before m) ≤ j.
Proof.
  intros H.
  pose proof (str_match_leftmost _ _ _ H) as (E & _ & Hleft).
  apply exec_sound in H as (_ & Hm & _).
  apply title_matches_inv in Hm as (t & Hps & Hu & Ht1 & Ht2).
  exists t. split_and!.
  - rewrite Hps. reflexivity.
  - exists (m_before m), (m_after m). split_and!; auto.
    rewrite E at 1. by rewrite Hu.
  - intros j t' Hj. eapply Hleft. by apply title_at_occurs.
Qed.

Lemma title_match_none html :
  str_match title_re html = None -> ∀ i t, ¬ title_at html i t.
Proof.
  intros H i t Ht. apply title_at_occurs in Ht.
  by apply (proj1 (str_match_none _ _) H) in Ht.
Qed.

(** The text of the title at a given index is determined. *)
Lemma title_at_unique html i t t' :
  title_at html i t -> title_at html i t' -> t = t'.
Proof.
  intros (pre & post & E & Hl & _ & Ht) (pre' & post' & E' & Hl' & _ & Ht').
  rewrite E in E'. apply app_inj_1 in E' as [_ E']; [|congruence].
  apply app_inv_head in E'.
  change (js "</title>" ++ post) with (ch "<" :: (js "/title>" ++ post)) in E'.
  change (js "</title>" ++ post') with (ch "<" :: (js "/title>" ++ post')) in E'.
  eapply (run_unique (fun c => negb (c =? ch "<")%N)) in E' as [E1 _]; eauto.
  all: try (cbv beta; by rewrite N.eqb_refl).
  all: apply Forall_forall; intros c Hc; apply negb_true_iff, N.eqb_neq; by intros ->.
Qed.

(** ** The suffix pattern *)

Lemma space_class c : charset_test space_set c = is_white c.
Proof. reflexivity. Qed.

Lemma hyphen_run w :
  Forall (fun x => charset_test (CharSet false [(ch "-", ch "-")]) x = true) w ->
  1 ≤ length w -> within (Some 1) (length w) -> w = js "-".
Proof. apply lit_run. Qed.

Lemma suffix_matches_inv prev u ps rest :
  matches suffix_re prev u ps rest -> rest = [] ∧ sheet_suffix u ∧ concat ps = u.
Proof.
  intros H. pose proof (matches_split _ _ _ _ _ H) as Hsplit.
  unfold suffix_re, Star, Lit in H. cbn [app] in H.
  apply matches_rep_inv in H as (ws1 & u1 & ps1 & -> & -> & Hw1 & _ & _ & H).
  apply matches_rep_inv in H as (h & u2 & ps2 & -> & -> & Hh & Hh1 & Hh2 & H).
  apply hyphen_run in Hh; auto. subst h.
  apply matches_rep_inv in H as (ws2 & u3 & ps3 & -> & -> & Hw2 & _ & _ & H).
  apply matches_lits_inv in H as (u4 & ps4 & -> & -> & H).
  apply matches_end_inv in H as (-> & -> & ->).
  split; [done|]. split.
  - exists ws1, ws2. rewrite app_nil_r. split_and!; auto.
  - rewrite app_nil_r in Hsplit. done.
Qed.

Lemma suffix_matches_intro prev w :
  sheet_suffix w -> ∃ ps, concat ps = w ∧ matches suffix_re prev w ps [].
Proof.
  intros (ws1 & ws2 & -> & Hw1 & Hw2).
  exists (ws1 :: js "-" :: ws2 :: units (js "Google Sheets") ++ [[]]).
  split.
  { cbn [concat]. rewrite concat_app, concat_units. cbn [concat].
    by rewrite !app_nil_r. }
  unfold suffix_re, Star, Lit. cbn [app].
  apply (matches_rep _ 0 None); [done | lia | exact I |].
  apply (matches_rep _ 1 (Some 1) _ _ (js "-")); [|simpl; lia|simpl; lia|].
  { repeat constructor. }
  apply (matches_rep _ 0 None); [done | lia | exact I |].
  rewrite <- (app_nil_r (js "Google Sheets")).
  apply matches_lits_intro. repeat constructor.
Qed.

Lemma suffix_occurs base w :
  sheet_suffix w -> occurs_at suffix_re (base ++ w) (length base) w.
Proof.
  intros H.
  destruct (suffix_matches_intro (last base) w H) as (ps & Hps & Hm).
  exists ps. split; [done|].
  rewrite take_app_length, drop_app_length, drop_all.
  split; [done | rewrite length_app; lia].
Qed.

(** [title.replace(suffix_re, '')] strips the longest trailing suffix of the
    form of [sheet_suffix]. *)
Lemma suffix_replace t : stripped_title t (replace_first suffix_re [] t).
Proof.
  unfold replace_first.
  destruct (str_match suffix_re t) as [m|] eqn:E.
  - pose proof (str_match_leftmost _ _ _ E) as (Et & _ & Hleft).
    apply exec_sound in E as (_ & Hm & _).
    apply suffix_matches_inv in Hm as (Hafter & Hs & _).
    rewrite Hafter in *. rewrite !app_nil_r in *.
    left. exists (m_text m). split_and!; auto.
    intros base' w' -> Hw'. eapply Hleft. by apply suffix_occurs.
  - right. split; [done|].
    intros base' w' -> Hw'.
    apply (proj1 (str_match_none _ _) E (length base') w').
    by apply suffix_occurs.
Qed.

(** ** The filename step *)

Section Filename.
Variable env : environment.
Context {S : Type}.

Lemma outFilename_offline (s : S) tr err :
  net_fetch env tr SHEET_EDIT_URL = Rejects err ->
  outFilename_step env s tr
  = (Normal (js "output.csv"), s,
     tr ++ [EvFetch SHEET_EDIT_URL BROWSER_UA (Rejects err);
            EvWarn (msg_default_filename (js "output.csv"))]).
Proof.
  intros H. unfold outFilename_step, title_step, try_catch. unfold_io. simpl.
  rewrite H. simpl. by rewrite <- app_assoc.
Qed.

Lemma outFilename_unreadable (s : S) tr res err :
  net_fetch env tr SHEET_EDIT_URL = Returns res -> res_text res = Rejects err ->
  outFilename_step env s tr
  = (Normal (js "output.csv"), s,
     tr ++ [EvFetch SHEET_EDIT_URL BROWSER_UA (Returns res);
            EvWarn (msg_default_filename (js "output.csv"))]).
Proof.
  intros H1 H2. unfold outFilename_step, title_step, try_catch. unfold_io. simpl.
  rewrite H1. simpl. rewrite H2. simpl. by rewrite <- app_assoc.
Qed.

Lemma outFilename_fetched (s : S) tr res html :
  net_fetch env tr SHEET_EDIT_URL = Returns res -> res_text res = Returns html ->
  outFilename_step env s tr
  = (Normal match str_match title_re html with
            | Some m =>
                match m_pieces m !! title_group with
                | Some title => replace_first suffix_re [] title ++ js ".csv"
                | None => js "output.csv"
                end
            | None => js "output.csv"
            end, s,
     tr ++ EvFetch SHEET_EDIT_URL BROWSER_UA (Returns res)
        :: match str_match title_re html with
           | Some m =>
               match m_pieces m !! title_group with
               | Some _ => []
               | None => [EvWarn (msg_default_filename (js "output.csv"))]
               end
           | None => []
           end).
Proof.
  intros H1 H2. unfold outFilename_step, title_step, try_catch. unfold_io. simpl.
  rewrite H1. simpl. rewrite H2. simpl.
  destruct (str_match title_re html) as [m|]; [|done].
  unfold defined.
  destruct (m_pieces m !! title_group) as [title|]; simpl; [done|].
  by rewrite <- app_assoc.
Qed.
End Filename.

(* ===================================================================== *)
(** * 20. Theorems on the output filename *)
(* ===================================================================== *)

(** C10 (as amended): the step always yields a name.  It is [output.csv]
    when the edit page cannot be fetched or read, or holds no [<title>]
    followed by a non-empty text without [<] and by [</title>]; otherwise
    it is the text of the first such title, without its longest trailing
    suffix made of white space, a hyphen, white space and [Google Sheets],
    followed by [.csv]. *)
Theorem output_filename (env : environment) {S : Type} (s : S) (tr : trace) :
  ∃ name evs,
    outFilename_step env s tr = (Normal name, s, tr ++ evs) ∧
    (∀ err, net_fetch env tr SHEET_EDIT_URL = Rejects err -> name = js "output.csv") ∧
    (∀ res err, net_fetch env tr SHEET_EDIT_URL = Returns res ->
                res_text res = Rejects err -> name = js "output.csv") ∧
    (∀ res html, net_fetch env tr SHEET_EDIT_URL = Returns res ->
                 res_text res = Returns html ->
       ((∀ i t, ¬ title_at html i t) -> name = js "output.csv") ∧
       (∀ i t, title_at html i t -> (∀ j t', title_at html j t' -> i ≤ j) ->
               ∃ base, stripped_title t base ∧ name = base ++ js ".csv")).
Proof.
  destruct (net_fetch env tr SHEET_EDIT_URL) as [res|err] eqn:H1.
  2:{ eexists _, _. split; [by apply outFilename_offline|].
      split_and!; [done | intros; discriminate | intros; discriminate]. }
  destruct (res_text res) as [html|err] eqn:H2.
  2:{ eexists _, _. split; [by eapply outFilename_unreadable|].
      split_and!; [intros; discriminate | done |].
      intros res' html' E. injection E as <-. congruence. }
  eexists _, _. split; [by eapply outFilename_fetched|].
  split_and!; [intros; discriminate | |].
  { intros res' err E. injection E as <-. congruence. }
  intros res' html' E E'. injection E as <-.
  assert (html' = html) as -> by congruence.
  destruct (str_match title_re html) as [m|] eqn:Em.
  - destruct (title_match_some _ _ Em) as (t0 & Hg & Hat & Hleft).
    rewrite Hg. split.
    + intros Hno. by apply Hno in Hat.
    + intros i t Hi Hmin.
      assert (i = length (m_before m)) as ->.
      { apply Nat.le_antisymm; [by eapply Hmin | by eapply Hleft]. }
      rewrite (title_at_unique _ _ _ _ Hi Hat).
      exists (replace_first suffix_re [] t0). split; [apply suffix_replace | done].
  - split; [done|].
    intros i t Hi _. by apply (title_match_none _ Em) in Hi.
Qed.

Lemma output_filename_witness :
  (∃ evs, outFilename_step env_offline tt [] = (Normal (js "output.csv"), tt, evs))
  ∧ (∃ evs, outFilename_step (env_title (js "Leads - Google Sheets")) tt []
            = (Normal (js "Leads.csv"), tt, evs)).
Proof.
  split.
  - destruct (output_filename env_offline tt []) as (name & evs & E & H & _).
    rewrite (H fetch_failed eq_refl) in E. eauto.
  - destruct (output_filename (env_title (js "Leads - Google Sheets")) tt [])
      as (name & evs & E & _).
    exists ([] ++ evs). rewrite E. f_equal. f_equal.
    vm_compute in E. injection E as <- _. vm_compute. reflexivity.
Defined.

(** C10, as stated, fails: a hyphen without the two spaces is stripped as
    well, white space before the suffix goes with it, and an empty title
    gives the default name. *)
Lemma filename_not_as_worded :
  ((∃ evs, outFilename_step (env_title (js "A-Google Sheets")) tt []
           = (Normal (js "A.csv"), tt, evs))
   ∧ spec_filename (js "A-Google Sheets") = js "A-Google Sheets.csv")
  ∧ ((∃ evs, outFilename_step (env_title (js "Q3  - Google Sheets")) tt []
             = (Normal (js "Q3.csv"), tt, evs))
     ∧ spec_filename (js "Q3  - Google Sheets") = js "Q3 .csv")
  ∧ ((∃ evs, outFilename_step (env_title []) tt []
             = (Normal (js "output.csv"), tt, evs))
     ∧ spec_filename [] = js ".csv").
Proof.
  split_and!; try (vm_compute; reflexivity).
  - destruct (outFilename_step (env_title (js "A-Google Sheets")) tt []) as [[r s] tr] eqn:E.
    vm_compute in E. injection E as <- <- <-. eexists. vm_compute. reflexivity.
  - destruct (outFilename_step (env_title (js "Q3  - Google Sheets")) tt []) as [[r s] tr] eqn:E.
    vm_compute in E. injection E as <- <- <-. eexists. vm_compute. reflexivity.
  - destruct (outFilename_step (env_title []) tt []) as [[r s] tr] eqn:E.
    vm_compute in E. injection E as <- <- <-. eexists. vm_compute. reflexivity.
Qed.

(* ===================================================================== *)
(** * 21. The extractor: where the addresses come from and what they look like *)
(* ===================================================================== *)

(** ** Removal and selection *)

Lemma flat_map_nil_all {A B} (f : A -> list B) (l : list A) :
  Forall (fun x => f x = []) l -> flat_map f l = [].
Proof. induction 1 as [|x l Hx _ IH]; simpl; [done|]. by rewrite Hx, IH. Qed.

Lemma flat_map_flat_map {A B C} (f : A -> list B) (g : B -> list C) (l : list A) :
  flat_map g (flat_map f l) = flat_map (fun x => flat_map g (f x)) l.
Proof.
  induction l as [|x l IH]; simpl; [done|].
  by rewrite flat_map_app, IH.
Qed.

Lemma select_remove_node sel n :
  flat_map (select_node sel) (remove_node sel n) = [].
Proof.
  induction n as [name attribs children IH|d|d|d] using node_forall_ind;
    simpl; try done.
  destruct (sel_matches sel name attribs) eqn:E; simpl; [done|].
  rewrite E, app_nil_r. simpl.
  rewrite flat_map_flat_map. by apply flat_map_nil_all.
Qed.

(** X1: after [$(sel).remove()] the selector matches nothing any more, at
    any depth; in particular no script or style element is left when the
    harvesting starts. *)
Theorem nothing_left_after_remove (sel : selector) (d : document) :
  select sel (remove sel d) = [].
Proof.
  unfold select, remove. rewrite flat_map_flat_map.
  apply flat_map_nil_all, Forall_forall. intros n _. apply select_remove_node.
Qed.

(** ** The pool of raw candidates *)

Lemma set_add_all_elem xs : ∀ st y, y ∈ set_add_all xs st <-> y ∈ xs ∨ y ∈ st.
Proof.
  unfold set_add_all.
  induction xs as [|x xs IH]; intros st y; simpl.
  - split; [auto|]. intros [H|H]; [by apply elem_of_nil in H | done].
  - rewrite IH, set_add_elem, elem_of_cons. tauto.
Qed.

Lemma mailto_pass_elem links : ∀ acc r,
  for_each (fun rawSet link => c ← mailto_candidate link; mret (set_add c rawSet))
           links acc = Normal r ->
  ∀ y, y ∈ r <-> y ∈ acc ∨ ∃ link, link ∈ links ∧ mailto_candidate link = Normal y.
Proof.
  induction links as [|l links IH]; intros acc r H y; simpl in H.
  - inversion H; subst. split; [auto|].
    intros [|(link & Hl & _)]; [done|]. by apply elem_of_nil in Hl.
  - destruct (mailto_candidate l) as [c| |] eqn:E; simpl in H; try done.
    rewrite (IH _ _ H y), set_add_elem. split.
    + intros [[->|]|(link & Hl & Hc)]; auto.
      * right. exists l. split; [by left | done].
      * right. exists link. split; [by right | done].
    + intros [|(link & Hl & Hc)]; auto.
      apply elem_of_cons in Hl as [->|Hl].
      * left. left. congruence.
      * right. eauto.
Qed.

Lemma scan_elem rawSet str r :
  scan rawSet str = Normal r ->
  ∀ y, y ∈ r <-> y ∈ rawSet ∨ ∃ found, exec_loop looseRe str = Some found ∧ y ∈ found.
Proof.
  unfold scan. destruct (exec_loop looseRe str) as [found|]; simpl; [|done].
  intros H y. inversion H; subst. rewrite set_add_all_elem. split.
  - intros [|]; eauto.
  - intros [|(f & E & Hy)]; auto. inversion E; subst. auto.
Qed.

Lemma scan_values_elem values : ∀ acc r,
  for_each scan values acc = Normal r ->
  ∀ y, y ∈ r <-> y ∈ acc ∨ ∃ value found, value ∈ values ∧
                              exec_loop looseRe value = Some found ∧ y ∈ found.
Proof.
  induction values as [|v values IH]; intros acc r H y; simpl in H.
  - inversion H; subst. split; [auto|].
    intros [|(value & f & Hv & _)]; [done|]. by apply elem_of_nil in Hv.
  - destruct (scan acc v) as [acc'| |] eqn:E; simpl in H; try done.
    rewrite (IH _ _ H y), (scan_elem _ _ _ E y). split.
    + intros [[|(f & Ef & Hy)]|(value & f & Hv & Ef & Hy)]; auto.
      * right. exists v, f. split; [by left | done].
      * right. exists value, f. split; [by right | done].
    + intros [|(value & f & Hv & Ef & Hy)]; auto.
      apply elem_of_cons in Hv as [->|Hv]; [left; right; eauto | right; eauto].
Qed.

Lemma attribute_pass_elem elems : ∀ acc r,
  for_each (fun rawSet elem => for_each scan (attrib_values elem) rawSet) elems acc
  = Normal r ->
  ∀ y, y ∈ r <-> y ∈ acc ∨ ∃ elem value found,
                     elem ∈ elems ∧ value ∈ attrib_values elem ∧
                     exec_loop looseRe value = Some found ∧ y ∈ found.
Proof.
  induction elems as [|e elems IH]; intros acc r H y; simpl in H.
  - inversion H; subst. split; [auto|].
    intros [|(elem & v & f & He & _)]; [done|]. by apply elem_of_nil in He.
  - destruct (for_each scan (attrib_values e) acc) as [acc'| |] eqn:E; simpl in H; try done.
    rewrite (IH _ _ H y), (scan_values_elem _ _ _ E y). split.
    + intros [[|(v & f & Hv & Ef & Hy)]|(elem & v & f & He & Hv & Ef & Hy)]; auto.
      * right. exists e, v, f. split; [by left | done].
      * right. exists elem, v, f. split; [by right | done].
    + intros [|(elem & v & f & He & Hv & Ef & Hy)]; auto.
      apply elem_of_cons in He as [->|He]; [left; right; eauto | right; eauto 10].
Qed.

Lemma harvest_elem d rawSet :
  harvest d = Normal rawSet -> ∀ raw, raw ∈ rawSet <-> raw_candidate d raw.
Proof.
  unfold harvest, raw_candidate, mailto_links. intros H raw.
  destruct (for_each _ (select _ d) []) as [r1| |] eqn:E1; simpl in H; try done.
  destruct (scan r1 _) as [r2| |] eqn:E2; simpl in H; try done.
  rewrite (attribute_pass_elem _ _ _ H raw), (scan_elem _ _ _ E2 raw),
    (mailto_pass_elem _ _ _ E1 raw).
  split.
  - intros [[[Hn|]|]|]; auto. by apply elem_of_nil in Hn.
  - intros [|[|]]; auto.
Qed.

(** ** Anchored patterns *)

Lemma exec_anchored_later re s : ∀ c, exec (InputStart :: re) (Some c) s = None.
Proof.
  induction s as [|d s IH]; intros c; simpl; [done|]. by rewrite IH.
Qed.

(** A pattern that begins with [^] can only match at index 0. *)
Lemma str_match_anchored re s :
  str_match (InputStart :: re) s
  = match seq_match (InputStart :: re) None s with
    | Some ps => Some (MatchResult [] ps (drop (length (concat ps)) s))
    | None => None
    end.
Proof.
  unfold str_match. destruct s as [|c s]; simpl.
  - by destruct (seq_match re None []).
  - destruct (seq_match re None (c :: s)); simpl; [done|].
    by rewrite exec_anchored_later.
Qed.

Lemma seq_match_anchored_lits a x :
  seq_match (InputStart :: lits a) None (a ++ x) = Some ([] :: units a).
Proof.
  assert (Hm : matches (InputStart :: lits a) None (a ++ x) ([] :: units a) x).
  { constructor. rewrite <- (app_nil_r (lits a)), <- (app_nil_r (units a)).
    apply matches_lits_intro. constructor. }
  destruct (seq_match_complete _ _ _ _ _ Hm) as [ps Hps].
  rewrite Hps. f_equal.
  apply seq_match_sound in Hps as [rest Hps].
  inversion Hps as [| | |? ? ? ? H1|]; subst.
  rewrite <- (app_nil_r (lits a)) in H1.
  apply matches_lits_inv in H1 as (u' & ps' & _ & -> & H1).
  apply matches_nil_inv in H1 as [-> _]. by rewrite app_nil_r.
Qed.

Lemma replace_first_prefix a x :
  replace_first (InputStart :: lits a) [] (a ++ x) = x.
Proof.
  unfold replace_first. rewrite str_match_anchored, seq_match_anchored_lits.
  simpl. rewrite concat_units. by rewrite drop_app_length.
Qed.

Lemma starts_with_app p : ∀ s, starts_with p s = true -> ∃ x, s = p ++ x.
Proof.
  induction p as [|c p IH]; intros s H; simpl in H; [by exists s|].
  destruct s as [|d s]; [done|].
  apply andb_true_iff in H as [Hc H]. apply N.eqb_eq in Hc as ->.
  destruct (IH _ H) as [x ->]. by exists x.
Qed.

(** ** Segments *)

Lemma head_split sep s : head (split sep s) = Some (before sep s).
Proof.
  induction s as [|c s IH]; simpl; [done|].
  destruct (c =? sep)%N; [done|].
  destruct (split sep s) as [|seg segs]; simpl in *; [done|]. congruence.
Qed.

Lemma before_no_sep sep s : sep ∉ before sep s.
Proof.
  induction s as [|c s IH]; simpl; [apply not_elem_of_nil|].
  destruct (c =? sep)%N eqn:E; [apply not_elem_of_nil|].
  apply N.eqb_neq in E. rewrite not_elem_of_cons. split; [congruence | done].
Qed.

Lemma trimStart_suffix s : ∃ ws, s = ws ++ trimStart s.
Proof.
  induction s as [|c s [ws IH]]; simpl; [by exists []|].
  destruct (is_white c); [|by exists []].
  exists (c :: ws). simpl. by rewrite <- IH.
Qed.

Lemma elem_rev (c : N) (s : jsstring) : c ∈ rev s <-> c ∈ s.
Proof. rewrite !list_elem_of_In. symmetry. apply in_rev. Qed.

Lemma trim_elem c s : c ∈ trim s -> c ∈ s.
Proof.
  unfold trim, trimEnd. intros H.
  apply (proj1 (elem_rev _ _)) in H.
  destruct (trimStart_suffix (rev (trimStart s))) as [ws E].
  assert (H2 : c ∈ ws ++ trimStart (rev (trimStart s))).
  { apply elem_of_app. by right. }
  rewrite <- E in H2. apply (proj1 (elem_rev _ _)) in H2.
  destruct (trimStart_suffix s) as [ws' E'].
  rewrite E'. apply elem_of_app. by right.
Qed.

(** X3: for every [mailto:] link the candidate is what follows the scheme
    in its [href], up to the first question mark, without surrounding white
    space; so no query string reaches the pool. *)
Theorem mailto_candidate_of_link (d : document) (link : node) :
  link ∈ select mailto_links d ->
  ∃ target,
    attr (js "href") link = Some (js "mailto:" ++ target) ∧
    mailto_candidate link = Normal (trim (before (ch "?") target)) ∧
    ch "?" ∉ trim (before (ch "?") target).
Proof.
  intros H. apply select_matches in H as (name & attribs & children & -> & Hm).
  unfold mailto_links in Hm. cbn [sel_matches] in Hm.
  apply andb_true_iff in Hm as [_ Hm].
  unfold mailto_candidate, attr.
  destruct (lookup_attr (js "href") attribs) as [href|]; [|done].
  apply starts_with_app in Hm as [target ->].
  exists target. split_and!; [done| |].
  - change (defined (Some (js "mailto:" ++ target)) ≫= ?f)
      with (f (js "mailto:" ++ target)).
    cbv beta. unfold mailto_re. rewrite replace_first_prefix.
    unfold first_seg. rewrite head_split. done.
  - intros Hin. apply trim_elem in Hin. by apply before_no_sep in Hin.
Qed.

Lemma mailto_candidate_of_link_witness :
  mailto_candidate
    (el "a" [at_ "href" "mailto:sales@up.example?subject=hi"] [Text (js "Write to us")])
  = Normal (js "sales@up.example").
Proof.
  destruct (mailto_candidate_of_link mailto_doc
              (el "a" [at_ "href" "mailto:sales@up.example?subject=hi"]
                  [Text (js "Write to us")]))
    as (target & Ha & -> & _).
  - vm_compute. repeat first [apply list_elem_of_here | apply list_elem_of_further].
  - vm_compute in Ha. injection Ha as <-. vm_compute. reflexivity.
Defined.

(** ** The scanning loop *)

Lemma last_app_last_or (a b : jsstring) : last (a ++ b) = last_or (last a) b.
Proof. unfold last_or. rewrite last_app. by destruct (last b). Qed.

Lemma exec_loop_fuel_sound re fuel : ∀ pre rest found,
  exec_loop_fuel fuel re (last pre) rest = Some found ->
  ∀ w, w ∈ found -> w ≠ [] ∧ ∃ i, occurs_at re (pre ++ rest) i w.
Proof.
  induction fuel as [|fuel IH]; intros pre rest found H w Hw; [done|].
  simpl in H. destruct (exec re (last pre) rest) as [m|] eqn:E.
  2:{ inversion H; subst. by apply elem_of_nil in Hw. }
  destruct (m_text m) as [|c t] eqn:Et; [done|].
  destruct (exec_loop_fuel fuel re (last (c :: t)) (m_after m)) as [found'|] eqn:E';
    [|done].
  simpl in H. inversion H; subst; clear H.
  apply exec_sound in E as (Er & Hm & _).
  apply elem_of_cons in Hw as [->|Hw].
  - split; [done|]. exists (length (pre ++ m_before m)).
    exists (m_pieces m). rewrite Er. split_and!.
    + exact Et.
    + rewrite app_assoc, take_app_length, drop_app_length.
      rewrite last_app_last_or, Et, drop_app_length. by rewrite Et in Hm.
    + rewrite !length_app. lia.
  - assert (Hl : last (c :: t) = last ((pre ++ m_before m) ++ c :: t)).
    { rewrite (last_app _ (c :: t)).
      destruct (last (c :: t)) eqn:El; [done|]. by apply last_None in El. }
    rewrite Hl in E'.
    destruct (IH _ _ _ E' w Hw) as [Hne (i & Hi)].
    split; [done|]. exists i.
    rewrite Er, Et. rewrite <- !app_assoc in Hi. exact Hi.
Qed.

(** X4: a scan with [looseRe] ends, and all it collects are non-empty
    matches of the pattern in the scanned text; when the pattern occurs in
    the text at all, something is collected. *)
Theorem scan_collects_matches (str : jsstring) :
  ∃ found,
    exec_loop looseRe str = Some found ∧
    (∀ w, w ∈ found -> w ≠ [] ∧ ∃ i, occurs_at looseRe str i w) ∧
    ((∃ i w, occurs_at looseRe str i w) -> found ≠ []).
Proof.
  unfold exec_loop.
  destruct (exec_loop_fuel_total looseRe email_match_nonempty
              (S (length str)) None str) as [found Hf]; [lia|].
  exists found. split_and!; [done | |].
  - intros w Hw.
    exact (exec_loop_fuel_sound looseRe (S (length str)) [] str found Hf w Hw).
  - intros (i & w & Hocc) ->. simpl in Hf.
    destruct (exec looseRe None str) as [m|] eqn:E.
    + destruct (m_text m); [done|].
      by destruct (exec_loop_fuel _ _ _ _).
    + pose proof Hocc as (_ & _ & _ & Hi).
      apply occurs_at_seq_match in Hocc as [ps Hps].
      rewrite <- last_or_None, (exec_none _ _ _ E) in Hps; done.
Qed.

Lemma scan_collects_matches_witness :
  exec_loop looseRe (js "Mail info@example.com or sales@example.com.")
  = Some [js "info@example.com"; js "sales@example.com"].
Proof.
  destruct (scan_collects_matches (js "Mail info@example.com or sales@example.com."))
    as (found & E & _).
  rewrite E. symmetry. vm_compute in E. exact E.
Defined.

(** ** The last segment *)

Lemma split_no_sep sep t : sep ∉ t -> split sep t = [t].
Proof.
  induction t as [|c t IH]; intros H; simpl; [done|].
  apply not_elem_of_cons in H as [Hc Ht].
  destruct (c =? sep)%N eqn:E; [apply N.eqb_eq in E; congruence|].
  by rewrite IH.
Qed.

Lemma split_snoc sep t : sep ∉ t -> ∀ x,
  ∃ seg segs, split sep (x ++ sep :: t) = seg :: segs ++ [t].
Proof.
  intros Ht. induction x as [|c x (seg & segs & IH)]; simpl.
  - rewrite N.eqb_refl, (split_no_sep _ _ Ht). by exists [], [].
  - rewrite IH. destruct (c =? sep)%N.
    + by exists [], (seg :: segs).
    + by exists (c :: seg), segs.
Qed.

(** [(x + sep + t).split(sep).pop()] is [t] when [t] is free of [sep]. *)
Lemma pop_split sep x t : sep ∉ t -> pop (split sep (x ++ sep :: t)) = Some t.
Proof.
  intros Ht. destruct (split_snoc sep t Ht x) as (seg & segs & ->).
  unfold pop. by rewrite app_comm_cons, last_snoc.
Qed.

Lemma image_ext_no_dot ext : ext ∈ imageExts -> ch "." ∉ ext.
Proof.
  intros H Hdot.
  assert (E : imageExts = [js "png"; js "jpg"; js "jpeg"; js "gif"; js "svg";
                           js "webp"; js "bmp"; js "tiff"]) by reflexivity.
  rewrite E in H.
  repeat (apply elem_of_cons in H as [->|H];
          [vm_compute in Hdot;
           repeat (apply elem_of_cons in Hdot as [Hdot|Hdot]; [discriminate|]);
           by apply elem_of_nil in Hdot|]).
  by apply elem_of_nil in H.
Qed.

(** What passes the sanitizing step: the lower-cased match, whose last
    dot-segment is not an image extension. *)
Lemma sanitize_inv raw email :
  sanitize raw = Some email ->
  (∃ m, str_match strictRe (default raw (decodeURIComponent raw)) = Some m ∧
        email = toLowerCase (m_text m)) ∧
  ∀ ext, pop (split (ch ".") email) = Some ext -> ext ∉ imageExts.
Proof.
  intros H. split; [by apply sanitize_some|].
  unfold sanitize in H.
  destruct (str_match strictRe _) as [m|]; [|done].
  intros ext Hext Hin.
  destruct (pop (split (ch ".") (toLowerCase (m_text m)))) as [ext'|] eqn:E.
  - destruct (set_has ext' imageExts) eqn:Eh; [done|].
    inversion H; subst. rewrite E in Hext. inversion Hext; subst.
    unfold set_has in Eh. by apply bool_decide_eq_false in Eh.
  - inversion H; subst. congruence.
Qed.

Lemma lower_unit_at c : lower_unit c = ch "@" -> c = ch "@".
Proof.
  unfold lower_unit. destruct (between (ch "A") (ch "Z") c) eqn:E; [|done].
  unfold_sets. lia.
Qed.

Lemma lower_alpha c :
  charset_test alpha_set c = true -> lower_letter (lower_unit c) = true.
Proof.
  intros H. unfold lower_letter.
  destruct (between (ch "A") (ch "Z") c) eqn:E.
  - unfold lower_unit. rewrite E. clear H. unfold_sets. lia.
  - unfold lower_unit. rewrite E.
    unfold between in E. apply andb_false_iff in E.
    rewrite !N.leb_gt in E. unfold_sets. lia.
Qed.

Lemma local_no_at c : charset_test local_set c = true -> c ≠ ch "@".
Proof. intros H ->. vm_compute in H. done. Qed.

Lemma lower_letter_no_dot t :
  Forall (fun c => lower_letter c = true) t -> ch "." ∉ t.
Proof.
  intros H Hin. rewrite Forall_forall in H. apply H in Hin.
  vm_compute in Hin. done.
Qed.

Lemma sanitize_shape raw email : sanitize raw = Some email -> address_shape email.
Proof.
  intros H. pose proof (sanitize_inv _ _ H) as [(m & Hm & ->) Hext].
  apply exec_sound in Hm as (_ & Hm & _).
  apply email_matches_inv in Hm
    as (l & d & t & Hps & _ & Hl & Hl1 & Hd & Hd1 & Ht & Ht1 & _).
  unfold m_text in *. rewrite Hps in *. cbn [concat] in *.
  rewrite !app_nil_r in *.
  unfold toLowerCase in *. rewrite !map_app in *.
  change (map lower_unit [ch "@"]) with (js "@") in *.
  change (map lower_unit [ch "."]) with (js ".") in *.
  assert (Ht' : Forall (fun c => lower_letter c = true) (map lower_unit t)).
  { apply Forall_map. eapply Forall_impl; [exact Ht|]. apply lower_alpha. }
  exists (map lower_unit l), (map lower_unit d), (map lower_unit t).
  split_and!; auto.
  - destruct l; simpl in *; [lia | done].
  - intros Hin. apply list_elem_of_fmap in Hin as (c & Hc & Hin).
    symmetry in Hc. apply lower_unit_at in Hc. subst c.
    rewrite Forall_forall in Hl. by apply Hl, local_no_at in Hin.
  - destruct d; simpl in *; [lia | done].
  - by rewrite length_map.
  - apply Hext.
    rewrite (app_assoc _ (js "@")), (app_assoc _ (map lower_unit d)).
    apply pop_split. by apply lower_letter_no_dot.
Qed.

(** X5: every address returned has a local part, one separating [@], a
    domain and a final part of at least two lower-case letters; that final
    part is never one of the image extensions, so no returned address ends
    in [.png], [.jpg] and the like, in whatever case the markup had it. *)
Theorem extract_shape (load : jsstring -> document) (html : jsstring) :
  ∃ emails,
    basicScrape load html = Normal emails ∧
    ∀ e, e ∈ emails ->
         address_shape e ∧
         ∀ x ext, ext ∈ imageExts -> e ≠ x ++ js "." ++ ext.
Proof.
  unfold basicScrape.
  destruct (harvest_total (remove (Either (Tag (js "script")) (Tag (js "style"))) (load html)))
    as [rawSet Hr].
  exists (sanitize_all rawSet). split; [by rewrite Hr|].
  intros e He. apply (proj2 (sanitize_all_spec rawSet)) in He as (raw & _ & Hs).
  split; [by eapply sanitize_shape|].
  intros x ext Hin ->.
  destruct (sanitize_inv _ _ Hs) as [_ Hext].
  apply (Hext ext); [|done].
  apply pop_split. by apply image_ext_no_dot.
Qed.

Lemma extract_shape_witness :
  basicScrape text_load (js "Ask info@example.com, not logo@2x.PNG") 
  = Normal [js "info@example.com"] ∧ address_shape (js "info@example.com").
Proof.
  destruct (extract_shape text_load (js "Ask info@example.com, not logo@2x.PNG"))
    as (emails & E & H).
  assert (E' : basicScrape text_load (js "Ask info@example.com, not logo@2x.PNG")
               = Normal [js "info@example.com"]) by (vm_compute; reflexivity).
  split; [exact E'|].
  rewrite E' in E. injection E as <-.
  apply H. apply list_elem_of_here.
Defined.

(** ** The JSON text of the addresses *)

Lemma quote_canonical_unit c s :
  canonical_unit c = true -> quote_units (c :: s) = c :: quote_units s.
Proof.
  intros H.
  assert (Hb : (37 <= c <= 122)%N ∧ c ≠ 92%N) by (unfold_sets; lia).
  destruct Hb as [[H1 H2] H3]. cbn [quote_units].
  unfold dquote, backslash, is_lead, is_trail, between.
  repeat match goal with
         | |- context [(c =? ?k)%N] =>
             replace (c =? k)%N with false by (symmetry; apply N.eqb_neq; lia)
         | |- context [(c <? ?k)%N] =>
             replace (c <? k)%N with false by (symmetry; apply N.ltb_ge; lia)
         | |- context [(?k <=? c)%N && (c <=? ?k')%N] =>
             replace ((k <=? c)%N && (c <=? k')%N) with false
               by (symmetry; apply andb_false_iff; rewrite !N.leb_gt; lia)
         end.
  done.
Qed.

Lemma quote_canonical e :
  Forall (fun c => canonical_unit c = true) e -> quote_units e = e.
Proof.
  induction 1 as [|c e Hc _ IH]; [done|].
  by rewrite quote_canonical_unit, IH.
Qed.

(** X6: no address returned needs escaping, so the JSON text recorded for a
    resolved URL is the bracketed, comma-separated list of the addresses,
    each as it is between double quotes. *)
Theorem addresses_verbatim_in_json (load : jsstring -> document) (html : jsstring) :
  ∃ emails,
    basicScrape load html = Normal emails ∧
    JSON_stringify emails
    = js "[" ++ join (js ",") (map (fun e => dquote :: e ++ [dquote]) emails) ++ js "]".
Proof.
  unfold basicScrape.
  destruct (harvest_total (remove (Either (Tag (js "script")) (Tag (js "style"))) (load html)))
    as [rawSet Hr].
  exists (sanitize_all rawSet). split; [by rewrite Hr|].
  unfold JSON_stringify. f_equal. f_equal. f_equal.
  apply map_ext_in. intros e He. apply list_elem_of_In in He.
  apply (proj2 (sanitize_all_spec rawSet)) in He as (raw & _ & Hs).
  unfold quote_json_string. by rewrite quote_canonical by by eapply sanitize_canonical.
Qed.

(* ===================================================================== *)
(** * 22. The resolver and the loop: what they request and what they keep *)
(* ===================================================================== *)

(** ** What one URL costs *)

Lemma fetched_app evs evs' : fetched (evs ++ evs') = fetched evs ++ fetched evs'.
Proof. apply flat_map_app. Qed.

Lemma agent_set_first_app evs evs' :
  agent_set_first evs -> agent_set_first evs' -> agent_set_first (evs ++ evs').
Proof.
  induction evs as [|ev evs IH]; intros H H'; [done|].
  destruct H as [Hev H]. split; [|by apply IH].
  destruct ev as [| | | | |[p|]| | | | | |]; try done.
  destruct Hev as (o & rest' & ->). by exists o, (rest' ++ evs').
Qed.

Lemma redirect_log_events url res :
  fetched (redirect_log url res) = [] ∧
  filter is_newpage_event (redirect_log url res) = [] ∧
  Forall record_event (redirect_log url res) ∧
  agent_set_first (redirect_log url res).
Proof.
  unfold redirect_log. case_bool_decide; split_and!; try done.
  by repeat constructor.
Qed.

Lemma fallback_path_events load u e0 p evs r e1 :
  fallback_path load u e0 p evs r e1 ->
  fetched evs = [] ∧ length (filter is_newpage_event evs) ≤ 1 ∧
  Forall record_event evs ∧ agent_set_first evs.
Proof.
  intros H. destruct H as [?|? ? c Hev|? ? c ?].
  - split_and!; [done | by cbv | by repeat constructor | done].
  - destruct Hev as [-> | [-> | ->]];
      (split_and!; [done | cbv; lia | by repeat constructor |
                    cbn [agent_set_first app]; split_and!; eauto]).
  - split_and!; [done | cbv; lia | by repeat constructor |
                 cbn [agent_set_first app]; split_and!; eauto].
Qed.

Section Resolver.
Variable env : environment.
Context {S : Type}.

Lemma scrapeEmails_events url (s : S) tr :
  ∃ r evs,
    scrapeEmails env url s tr
    = (r, s, tr ++ EvFetch url BROWSER_UA (net_fetch env tr url) :: evs) ∧
    r ≠ Diverge ∧
    fetched evs = [] ∧
    length (filter is_newpage_event evs) ≤ 1 ∧
    Forall record_event evs ∧
    agent_set_first evs.
Proof.
  destruct (net_fetch env tr url) as [res|err] eqn:H1.
  2:{ eexists _, []. split; [by apply scrapeEmails_rejected|].
      split_and!; try done. simpl. lia. }
  destruct (redirect_log_events url res) as (Hf & Hn & Hr & Ha).
  destruct (res_text res) as [html|err] eqn:H2.
  2:{ eexists _, _. split; [by eapply scrapeEmails_body_unreadable|].
      split_and!; try done. rewrite Hn. simpl. lia. }
  destruct (basicScrape_total (cheerio_load env) html) as [[|e emails] H3].
  - destruct (scrapeEmails_escalates env url res html s tr H1 H2 H3)
      as (p & evs & r & emails & Hp & ->).
    pose proof (fallback_path_no_diverge _ _ _ _ _ _ _ Hp) as Hd.
    apply fallback_path_events in Hp as (Hf' & Hn' & Hr' & Ha').
    eexists _, _. split; [reflexivity|]. split_and!.
    + by destruct r.
    + rewrite fetched_app, Hf. simpl. exact Hf'.
    + rewrite filter_app, Hn. simpl. exact Hn'.
    + apply Forall_app. split; [done|]. by constructor.
    + apply agent_set_first_app; [done|]. by split.
  - eexists _, _. split; [by eapply scrapeEmails_static|].
    split_and!; try done. rewrite Hn. simpl. lia.
Qed.

(** What the body of the loop does with one record. *)
Lemma process_record_events rec (s : S) tr :
  ∃ v evs,
    process_record env rec s tr
    = (Normal (set_prop (js "emails") v rec), s, tr ++ evs) ∧
    emails_value v ∧
    fetched evs = websites [rec] ∧
    Forall record_event evs ∧
    agent_set_first evs.
Proof.
  unfold websites. simpl. rewrite app_nil_r.
  destruct (falsy (get_prop (js "website") rec)) eqn:Hf.
  - exists (js "[]"), []. rewrite app_nil_r.
    split; [by apply process_record_blank|].
    split_and!; [by left | | done | done].
    by destruct (get_prop (js "website") rec) as [[|]|].
  - destruct (get_prop (js "website") rec) as [[|c url]|] eqn:Hu; try done.
    destruct (scrapeEmails_events (c :: url) s tr)
      as (r & evs & E & Hr & Hfe & _ & Hre & Hag).
    destruct r as [emails|err|]; [| |done].
    + eexists (JSON_stringify emails), _.
      split; [|split_and!].
      * rewrite (process_record_found env rec (c :: url) emails s tr _ Hu ltac:(done) E).
        rewrite <- app_assoc. reflexivity.
      * right. right. by exists emails.
      * simpl. by rewrite fetched_app, Hfe.
      * constructor; [done|]. apply Forall_app. split; [done|]. by repeat constructor.
      * split; [done|]. by apply agent_set_first_app.
    + eexists ERROR_MARKER, _.
      split; [|split_and!].
      * rewrite (process_record_failed env rec (c :: url) err s tr _ Hu ltac:(done) E).
        rewrite <- app_assoc. reflexivity.
      * right. by left.
      * simpl. by rewrite fetched_app, Hfe.
      * constructor; [done|]. apply Forall_app. split; [done|]. by repeat constructor.
      * split; [done|]. by apply agent_set_first_app.
Qed.

Lemma for_of_process_events recs : ∀ (s : S) tr,
  ∃ recs' evs,
    for_of (process_record env) recs s tr = (Normal recs', s, tr ++ evs) ∧
    Forall2 (fun rec rec' => ∃ v, emails_value v ∧ rec' = set_prop (js "emails") v rec)
            recs recs' ∧
    fetched evs = websites recs ∧
    Forall record_event evs ∧
    agent_set_first evs.
Proof.
  induction recs as [|rec rest IH]; intros s tr.
  - exists [], []. rewrite app_nil_r. split_and!; done.
  - destruct (process_record_events rec s tr) as (v & evs & E & Hv & Hf & Hr & Ha).
    destruct (IH s (tr ++ evs)) as (rest' & evs' & E' & HF & Hf' & Hr' & Ha').
    exists (set_prop (js "emails") v rec :: rest'), (evs ++ evs').
    split_and!.
    + rewrite (for_of_cons _ _ _ _ _ _ _ E), E'. by rewrite <- app_assoc.
    + constructor; eauto.
    + rewrite fetched_app, Hf, Hf'. unfold websites. simpl.
      by rewrite app_nil_r.
    + by apply Forall_app.
    + by apply agent_set_first_app.
Qed.
End Resolver.

Lemma get_set_prop_other key value h r :
  h ≠ key -> get_prop h (set_prop key value r) = get_prop h r.
Proof.
  intros Hne. induction r as [|[k v] r IH]; simpl.
  - by rewrite bool_decide_eq_false_2 by congruence.
  - destruct (bool_decide (k = key)) eqn:E; simpl.
    + apply bool_decide_eq_true in E. subst k.
      by rewrite bool_decide_eq_false_2 by congruence.
    + by rewrite IH.
Qed.

(** X7: resolving one URL costs one request, the first thing it does, and
    at most one browser page; it settles on every environment and leaves
    the caller's variables alone.  The request carries the browser-like
    user agent, a page that opens gets that user agent set as the very next
    call, a navigation is bounded by 30 s, and nothing launches or closes
    the browser or writes a file. *)
Theorem resolve_one_request (env : environment) {S : Type}
    (url : jsstring) (s : S) (tr : trace) :
  ∃ r evs,
    scrapeEmails env url s tr
    = (r, s, tr ++ EvFetch url BROWSER_UA (net_fetch env tr url) :: evs) ∧
    r ≠ Diverge ∧
    fetched evs = [] ∧
    length (filter is_newpage_event evs) ≤ 1 ∧
    Forall record_event evs ∧
    agent_set_first evs.
Proof. apply scrapeEmails_events. Qed.

(** X8: a response whose body cannot be read is a failure of the record:
    the error of [res.text()] reaches the handler of the loop, which logs
    it and stores the marker; no page is opened for the URL. *)
Theorem unreadable_body_is_recorded (env : environment) {S : Type}
    (rec : record) (url : jsstring) (res : response) (err : error)
    (s : S) (tr : trace) :
  get_prop (js "website") rec = Some url -> url ≠ [] ->
  net_fetch env tr url = Returns res -> res_text res = Rejects err ->
  process_record env rec s tr
  = (Normal (set_prop (js "emails") ERROR_MARKER rec), s,
     tr ++ EvFetch url BROWSER_UA (Returns res) :: redirect_log url res
        ++ [EvError (msg_failed url err)]).
Proof.
  intros Hu Hne H1 H2.
  rewrite (process_record_failed env rec url err s tr _ Hu Hne
             (scrapeEmails_body_unreadable env url res s tr err H1 H2)).
  by rewrite <- app_assoc.
Qed.

Lemma unreadable_body_is_recorded_witness :
  process_record env_unreadable down_record tt []
  = (Normal (set_prop (js "emails") ERROR_MARKER down_record), tt,
     [EvFetch (js "http://down.example") BROWSER_UA
        (Returns (Response (js "http://down.example") 200 (Rejects body_error)));
      EvError (msg_failed (js "http://down.example") body_error)]).
Proof.
  apply (unreadable_body_is_recorded env_unreadable down_record
           (js "http://down.example")
           (Response (js "http://down.example") 200 (Rejects body_error))
           body_error tt []); [reflexivity | discriminate | reflexivity | reflexivity].
Defined.

(** X9: the loop never stops early: every record comes out, in the input
    order, with all its other properties as they were and with an [emails]
    property that is ['[]'], the marker or the JSON text of a list. *)
Theorem loop_keeps_records (env : environment) {S : Type}
    (records : list record) (s : S) (tr : trace) :
  ∃ records' evs,
    for_of (process_record env) records s tr = (Normal records', s, tr ++ evs) ∧
    Forall2 (fun rec rec' =>
               (∀ h, h ≠ js "emails" -> get_prop h rec' = get_prop h rec) ∧
               ∃ v, get_prop (js "emails") rec' = Some v ∧ emails_value v)
            records records'.
Proof.
  destruct (for_of_process_events env records s tr) as (recs' & evs & E & HF & _).
  exists recs', evs. split; [done|].
  eapply Forall2_impl; [exact HF|].
  intros rec rec' (v & Hv & ->). split.
  - intros h Hh. by apply get_set_prop_other.
  - exists v. split; [apply get_set_prop | done].
Qed.

(** X10: the loop requests exactly the non-empty values of the [website]
    column, once each and in the order of the records, whatever the sites
    answer; a record without a value causes no request.  Nothing in the
    loop launches or closes the browser or writes a file. *)
Theorem loop_fetches_websites (env : environment) {S : Type}
    (records : list record) (s : S) (tr : trace) :
  ∃ records' evs,
    for_of (process_record env) records s tr = (Normal records', s, tr ++ evs) ∧
    fetched evs = websites records ∧
    Forall record_event evs.
Proof.
  destruct (for_of_process_events env records s tr)
    as (recs' & evs & E & _ & Hf & Hr & _).
  by exists recs', evs.
Qed.

(* ===================================================================== *)
(** * 23. The output table and the whole run *)
(* ===================================================================== *)

(** ** The byte order mark *)

(** X11: of the body of the sheet only a byte order mark at its very
    beginning is dropped, and only one; a mark anywhere else stays. *)
Theorem bom_stripped_once (body : jsstring) :
  replace_first bom_re [] body
  = match body with
    | c :: rest => if (c =? 65279)%N then rest else body
    | [] => []
    end.
Proof.
  destruct body as [|c rest]; [done|].
  destruct (c =? 65279)%N eqn:E.
  - apply N.eqb_eq in E. subst c.
    apply (replace_first_prefix [65279%N] rest).
  - unfold replace_first, bom_re. rewrite str_match_anchored.
    cbn. unfold charset_test. cbn.
    replace (between 65279 65279 c) with false; [done|].
    symmetry. unfold between. apply N.eqb_neq in E.
    apply andb_false_iff. rewrite !N.leb_gt. lia.
Qed.

(** ** Rows *)

Lemma read_cell v : ∀ cur cells rest,
  read_row_from InCell cur cells
    (flat_map (fun c => if (c =? dquote)%N then [dquote; dquote] else [c]) v
     ++ dquote :: rest)
  = read_row_from QuoteSeen (rev v ++ cur) cells rest.
Proof.
  induction v as [|c v IH]; intros cur cells rest; [done|].
  cbn [flat_map]. destruct (c =? dquote)%N eqn:E.
  - apply N.eqb_eq in E. subst c.
    change (read_row_from InCell (dquote :: cur) cells
              (flat_map (fun c => if (c =? dquote)%N then [dquote; dquote] else [c]) v
               ++ dquote :: rest)
            = read_row_from QuoteSeen (rev (dquote :: v) ++ cur) cells rest).
    rewrite IH. simpl. by rewrite <- app_assoc.
  - cbn [app read_row_from]. rewrite E, IH. simpl. by rewrite <- app_assoc.
Qed.

Lemma read_cells vs : ∀ cells,
  vs ≠ [] ->
  read_row_from CellStart [] cells (join (js ",") (map escapeCell vs))
  = Some (rev cells ++ vs).
Proof.
  induction vs as [|v vs IH]; intros cells Hne; [done|].
  destruct vs as [|v' vs].
  - cbn [map join]. unfold escapeCell.
    change (read_row_from InCell [] cells
              (flat_map (fun c => if (c =? dquote)%N then [dquote; dquote] else [c]) v
               ++ dquote :: [])
            = Some (rev cells ++ [v])).
    rewrite read_cell. simpl. by rewrite app_nil_r, rev_involutive.
  - change (join (js ",") (map escapeCell (v :: v' :: vs)))
      with (escapeCell v ++ js "," ++ join (js ",") (map escapeCell (v' :: vs))).
    unfold escapeCell at 1.
    change (read_row_from InCell [] cells
              ((flat_map (fun c => if (c =? dquote)%N then [dquote; dquote] else [c]) v
                ++ [dquote])
               ++ js "," ++ join (js ",") (map escapeCell (v' :: vs)))
            = Some (rev cells ++ v :: v' :: vs)).
    rewrite <- app_assoc.
    change ([dquote] ++ js "," ++ ?x) with (dquote :: ch "," :: x).
    rewrite read_cell.
    change (read_row_from CellStart [] (rev (rev v ++ []) :: cells)
              (join (js ",") (map escapeCell (v' :: vs)))
            = Some (rev cells ++ v :: v' :: vs)).
    rewrite app_nil_r, rev_involutive.
    rewrite IH by done. simpl. by rewrite <- app_assoc.
Qed.

(** X12: a row of the output reads back: a reader of quoted cells gets
    from the line exactly the values of the record under the headers, in
    order, whatever commas, quotes or line breaks the values contain. *)
Theorem row_reads_back (finalHeaders : list jsstring) (r : record) :
  finalHeaders ≠ [] ->
  read_row (csv_row finalHeaders r) = Some (map (cell_value r) finalHeaders).
Proof.
  intros Hne. unfold read_row, csv_row, csv_cells.
  rewrite <- (map_map (cell_value r) escapeCell).
  rewrite read_cells; [done|]. by destruct finalHeaders.
Qed.

Lemma row_reads_back_witness :
  read_row (csv_row [js "name"; js "emails"] awkward_record)
  = Some [js "Doe, Jane" ++ [dquote; 10%N] ++ js "x"; js "[]"].
Proof.
  apply (row_reads_back [js "name"; js "emails"] awkward_record). discriminate.
Defined.

(** ** The header row *)

Lemma keys_set_prop_new k v r :
  get_prop k r = None -> map fst (set_prop k v r) = map fst r ++ [k].
Proof.
  induction r as [|[k' v'] r IH]; simpl; [done|].
  case_bool_decide; [done|]. intros Hg. simpl. by rewrite IH.
Qed.

Lemma keys_set_prop_old k v r :
  get_prop k r ≠ None -> map fst (set_prop k v r) = map fst r.
Proof.
  induction r as [|[k' v'] r IH]; simpl; [done|].
  case_bool_decide; [done|]. intros Hg. simpl. by rewrite IH.
Qed.

Lemma Object_keys_set_new k v r :
  array_index k = None -> get_prop k r = None ->
  Object_keys (set_prop k v r) = Object_keys r ++ [k].
Proof.
  intros Hk Hr. unfold Object_keys. rewrite (keys_set_prop_new _ _ _ Hr).
  rewrite omap_app, filter_app. cbn [omap list_omap].
  rewrite Hk. rewrite app_nil_r.
  rewrite (filter_cons_True _ k) by done. by rewrite <- app_assoc.
Qed.

Lemma Object_keys_own k v r :
  array_index k = None -> k ∈ Object_keys (set_prop k v r).
Proof.
  intros Hk. unfold Object_keys. apply elem_of_app. right.
  apply list_elem_of_filter. split; [done|].
  destruct (get_prop k r) eqn:E.
  - rewrite keys_set_prop_old by congruence.
    clear v. induction r as [|[k' v'] r IH]; simpl in *; [done|].
    case_bool_decide; [subst; apply list_elem_of_here|].
    apply list_elem_of_further. by apply IH.
  - rewrite keys_set_prop_new by done. apply elem_of_app. right.
    apply list_elem_of_here.
Qed.

Lemma emails_no_index : array_index (js "emails") = None.
Proof. reflexivity. Qed.

(** X13: the header row names [emails] twice: the keys of the first
    record are read after the loop has stored its [emails] property, and
    the name is appended once more; every row carries the value under both.
    When the sheet has no [emails] column the two are the last two
    columns. *)
Theorem emails_column_twice (rec0 : record) (v : jsstring) (rest : list record) :
  ∃ hs1 hs2,
    csv_lines (set_prop (js "emails") v rec0 :: rest)
    = Normal (join (js ",") (hs1 ++ [js "emails"] ++ hs2 ++ [js "emails"])
              :: map (csv_row (hs1 ++ [js "emails"] ++ hs2 ++ [js "emails"]))
                     (set_prop (js "emails") v rec0 :: rest)) ∧
    (get_prop (js "emails") rec0 = None -> hs1 = Object_keys rec0 ∧ hs2 = []).
Proof.
  destruct (get_prop (js "emails") rec0) eqn:E.
  - destruct (list_elem_of_split _ _ (Object_keys_own (js "emails") v rec0 emails_no_index))
      as (hs1 & hs2 & Hk).
    exists hs1, hs2. split; [|done].
    unfold csv_lines.
    change (defined (head (?x :: _)) ≫= ?f) with (f x). cbv beta zeta.
    rewrite Hk. by rewrite <- !app_assoc.
  - exists (Object_keys rec0), []. split; [|done].
    unfold csv_lines.
    change (defined (head (?x :: _)) ≫= ?f) with (f x). cbv beta zeta.
    rewrite (Object_keys_set_new _ _ _ emails_no_index E).
    by rewrite <- !app_assoc.
Qed.

(** ** The whole run *)

Section Run.
Variable env : environment.

Lemma outFilename_events {S : Type} (s : S) tr :
  ∃ name evs,
    outFilename_step env s tr
    = (Normal name, s,
       tr ++ EvFetch SHEET_EDIT_URL BROWSER_UA (net_fetch env tr SHEET_EDIT_URL) :: evs) ∧
    (evs = [] ∨ ∃ msg, evs = [EvWarn msg]).
Proof.
  destruct (net_fetch env tr SHEET_EDIT_URL) as [res|err] eqn:H1.
  2:{ eexists _, _. split; [by apply outFilename_offline|]. right. by eexists. }
  destruct (res_text res) as [html|err] eqn:H2.
  2:{ eexists _, _. split; [by eapply outFilename_unreadable|]. right. by eexists. }
  eexists _, _. split; [by eapply outFilename_fetched|].
  destruct (str_match title_re html) as [m|]; [|by left].
  destruct (m_pieces m !! title_group); [by left|]. right. by eexists.
Qed.

(** The run up to the records. *)
Lemma main_source tr :
  main env tt tr
  = match net_fetch env tr CSV_URL with
    | Rejects e => (Throw e, tt, tr ++ [EvFetch CSV_URL BROWSER_UA (Rejects e)])
    | Returns resp =>
        let tr1 := tr ++ [EvFetch CSV_URL BROWSER_UA (Returns resp)] in
        match res_text resp with
        | Rejects e => (Throw e, tt, tr1)
        | Returns body =>
            match csv_parse env (replace_first bom_re [] body) with
            | Rejects e => (Throw e, tt, tr1)
            | Returns [] => (Normal tt, tt, tr1 ++ [EvError msg_no_data])
            | Returns (rec :: rest) =>
                (outFilename ← outFilename_step env;
                 await EvLaunch (puppeteer_launch env);;
                 records ← for_of (process_record env) (rec :: rest);
                 await EvBrowserClose (browser_close env);;
                 lines ← lift (csv_lines records);
                 await (EvWriteFile outFilename (join [10%N] lines))
                       (fun tr => fs_writeFile env tr outFilename (join [10%N] lines));;
                 console_log (msg_done outFilename)) tt tr1
            end
        end
    end.
Proof.
  unfold main. unfold mbind at 1. unfold io_bind. unfold fetch, await.
  destruct (net_fetch env tr CSV_URL) as [resp|e]; [|done]. simpl.
  unfold mbind at 1. unfold io_bind, settle, lift.
  destruct (res_text resp) as [body|e]; [|done]. simpl.
  unfold mbind at 1. unfold io_bind.
  destruct (csv_parse env (replace_first bom_re [] body)) as [[|rec rest]|e]; done.
Qed.

(** The run from the records on. *)
Lemma main_records (rec : record) (rest : list record) tr1 :
  ∃ name evsB records' evsD lines,
    (evsB = [] ∨ ∃ msg, evsB = [EvWarn msg]) ∧
    Forall2 (fun rec rec' => ∃ v, emails_value v ∧ rec' = set_prop (js "emails") v rec)
            (rec :: rest) records' ∧
    fetched evsD = websites (rec :: rest) ∧
    Forall record_event evsD ∧
    agent_set_first evsD ∧
    csv_lines records' = Normal lines ∧
    outFilename_step env tt tr1
    = (Normal name, tt,
       tr1 ++ EvFetch SHEET_EDIT_URL BROWSER_UA (net_fetch env tr1 SHEET_EDIT_URL)
           :: evsB) ∧
    let tr2 := tr1 ++ EvFetch SHEET_EDIT_URL BROWSER_UA (net_fetch env tr1 SHEET_EDIT_URL)
                   :: evsB in
    (outFilename ← outFilename_step env;
     await EvLaunch (puppeteer_launch env);;
     records ← for_of (process_record env) (rec :: rest);
     await EvBrowserClose (browser_close env);;
     lines ← lift (csv_lines records);
     await (EvWriteFile outFilename (join [10%N] lines))
           (fun tr => fs_writeFile env tr outFilename (join [10%N] lines));;
     console_log (msg_done outFilename)) tt tr1
    = match puppeteer_launch env tr2 with
      | Rejects e => (Throw e, tt, tr2 ++ [EvLaunch (Rejects e)])
      | Returns _ =>
          let tr3 := tr2 ++ EvLaunch (Returns tt) :: evsD in
          match browser_close env tr3 with
          | Rejects e => (Throw e, tt, tr3 ++ [EvBrowserClose (Rejects e)])
          | Returns _ =>
              let tr4 := tr3 ++ [EvBrowserClose (Returns tt)] in
              let data := join [10%N] lines in
              match fs_writeFile env tr4 name data with
              | Rejects e => (Throw e, tt, tr4 ++ [EvWriteFile name data (Rejects e)])
              | Returns _ =>
                  (Normal tt, tt,
                   tr4 ++ [EvWriteFile name data (Returns tt); EvLog (msg_done name)])
              end
          end
      end.
Proof.
  destruct (outFilename_events tt tr1) as (name & evsB & EB & HB).
  set (tr2 := tr1 ++ EvFetch SHEET_EDIT_URL BROWSER_UA (net_fetch env tr1 SHEET_EDIT_URL)
                  :: evsB) in *.
  destruct (for_of_process_events env (rec :: rest) tt (tr2 ++ [EvLaunch (Returns tt)]))
    as (records' & evsD & ED & HF & Hf & Hr & Hag).
  assert (∃ lines, csv_lines records' = Normal lines) as [lines Hl].
  { inversion HF; subst. unfold csv_lines. simpl. by eexists. }
  exists name, evsB, records', evsD, lines.
  split_and!; try done.
  cbv zeta. fold tr2.
  unfold mbind at 1. unfold io_bind. rewrite EB.
  unfold mbind at 1. unfold io_bind. unfold await at 1.
  destruct (puppeteer_launch env tr2) as [[]|e]; [|done]. cbn [settled].
  unfold mbind at 1. unfold io_bind. rewrite ED.
  unfold mbind at 1. unfold io_bind. unfold await at 1.
  rewrite <- app_assoc. cbn [settled app].
  destruct (browser_close env _) as [[]|e]; [|done]. cbn [settled].
  unfold mbind at 1. unfold io_bind. unfold lift. rewrite Hl.
  unfold mbind at 1. unfold io_bind. unfold await at 1.
  destruct (fs_writeFile env _ name _) as [[]|e]; [|done]. cbn [settled].
  unfold console_log, emit. by rewrite <- app_assoc.
Qed.
End Run.

Lemma record_events_quiet evs :
  Forall record_event evs ->
  filter is_launch_event evs = [] ∧ filter is_write_event evs = [] ∧
  Forall polite evs.
Proof.
  induction 1 as [|ev evs Hev _ (IH1 & IH2 & IH3)]; [done|].
  destruct ev; try done; simpl in Hev;
    (split_and!; [exact IH1 | exact IH2 | by constructor]).
Qed.

Ltac count_events :=
  repeat first
    [ rewrite filter_app
    | rewrite filter_nil
    | rewrite filter_cons_False by exact (fun H => H)
    | rewrite filter_cons_True by exact I ].

Lemma csv_lines_length records lines :
  csv_lines records = Normal lines -> length lines = S (length records).
Proof.
  destruct records as [|first rest]; [done|].
  unfold csv_lines. change (defined (head (?x :: _)) ≫= ?f) with (f x).
  cbv beta zeta. intros H. inversion H. simpl. by rewrite length_map.
Qed.

(** X14: unless the sheet is fetched, read and parsed to at least one
    record, the run consists of the one request for it.  A rejected fetch,
    an unreadable body and a failing parse each end the run with the error
    of that call; an empty table ends it normally after the line
    [No data found in CSV.].  In none of these cases is the title
    requested, the browser launched or a file written. *)
Theorem no_record_no_work (env : environment) (tr : trace) :
  (∀ e, net_fetch env tr CSV_URL = Rejects e ->
        main env tt tr
        = (Throw e, tt, tr ++ [EvFetch CSV_URL BROWSER_UA (Rejects e)]))
  ∧ (∀ resp, net_fetch env tr CSV_URL = Returns resp ->
      (∀ e, res_text resp = Rejects e ->
            main env tt tr
            = (Throw e, tt, tr ++ [EvFetch CSV_URL BROWSER_UA (Returns resp)]))
      ∧ (∀ body, res_text resp = Returns body ->
          (∀ e, csv_parse env (replace_first bom_re [] body) = Rejects e ->
                main env tt tr
                = (Throw e, tt, tr ++ [EvFetch CSV_URL BROWSER_UA (Returns resp)]))
          ∧ (csv_parse env (replace_first bom_re [] body) = Returns [] ->
             main env tt tr
             = (Normal tt, tt,
                tr ++ [EvFetch CSV_URL BROWSER_UA (Returns resp);
                       EvError msg_no_data])))).
Proof.
  rewrite main_source. split.
  - intros e ->. done.
  - intros resp ->. cbv zeta. split.
    + intros e ->. done.
    + intros body ->. split.
      * intros e ->. done.
      * intros ->. by rewrite <- app_assoc.
Qed.

Lemma no_record_no_work_witness :
  main env_empty tt []
  = (Normal tt, tt,
     [EvFetch CSV_URL BROWSER_UA (ok_response CSV_URL []); EvError msg_no_data]).
Proof.
  destruct (no_record_no_work env_empty []) as [_ H].
  destruct (H (Response CSV_URL 200 (Returns [])) eq_refl) as [_ H'].
  destruct (H' [] eq_refl) as [_ H''].
  exact (H'' eq_refl).
Defined.

(** X15: with at least one record and a browser that launches and
    closes, the file is written once, as the last call of the run and after
    the browser is closed; it holds one line per record, in order, after the
    header row, each record being the input one with its [emails] property
    set.  The requests of the run are the sheet, its edit page and the
    non-empty websites, in that order. *)
Theorem table_written_after_close (env : environment) (tr : trace)
    (resp : response) (body : jsstring) (rec : record) (rest : list record) :
  net_fetch env tr CSV_URL = Returns resp -> res_text resp = Returns body ->
  csv_parse env (replace_first bom_re [] body) = Returns (rec :: rest) ->
  (∀ tr', puppeteer_launch env tr' = Returns tt) ->
  (∀ tr', browser_close env tr' = Returns tt) ->
  ∃ name records' lines evs o,
    Forall2 (fun rec rec' => ∃ v, emails_value v ∧ rec' = set_prop (js "emails") v rec)
            (rec :: rest) records' ∧
    csv_lines records' = Normal lines ∧
    length lines = S (length (rec :: rest)) ∧
    filter is_write_event evs = [] ∧
    fetched evs = CSV_URL :: SHEET_EDIT_URL :: websites (rec :: rest) ∧
    main env tt tr
    = (settled o, tt,
       tr ++ evs ++ EvBrowserClose (Returns tt)
          :: EvWriteFile name (join [10%N] lines) o
          :: match o with
             | Returns _ => [EvLog (msg_done name)]
             | Rejects _ => []
             end).
Proof.
  intros H1 H2 H3 HL HC. pose proof (main_source env tr) as M.
  rewrite H1 in M. cbv zeta in M. rewrite H2, H3 in M.
  destruct (main_records env rec rest (tr ++ [EvFetch CSV_URL BROWSER_UA (Returns resp)]))
    as (name & evsB & records' & evsD & lines & HB & HF & Hf & Hr & Hag & Hl & _ & E).
  cbv zeta in E. rewrite E in M. clear E. rewrite HL, HC in M.
  destruct (record_events_quiet _ Hr) as (_ & Hw & _).
  match type of M with
  | context [fs_writeFile env ?t name ?d] =>
      exists name, records', lines,
        (EvFetch CSV_URL BROWSER_UA (Returns resp)
         :: EvFetch SHEET_EDIT_URL BROWSER_UA
              (net_fetch env (tr ++ [EvFetch CSV_URL BROWSER_UA (Returns resp)])
                         SHEET_EDIT_URL)
         :: evsB ++ EvLaunch (Returns tt) :: evsD),
        (fs_writeFile env t name d)
  end.
  split_and!; try done.
  - rewrite (csv_lines_length _ _ Hl). f_equal. symmetry. by eapply Forall2_length.
  - destruct HB as [-> | [msg ->]]; count_events; by rewrite Hw.
  - cbn [fetched flat_map app]. do 2 f_equal.
    change (flat_map _ ?l) with (fetched l). rewrite fetched_app.
    cbn [fetched flat_map app]. change (flat_map _ ?l) with (fetched l).
    rewrite Hf. destruct HB as [-> | [msg ->]]; done.
  - rewrite M. destruct (fs_writeFile env _ name _) as [[]|e]; cbn [settled];
      repeat (rewrite <- ?app_assoc; cbn [app]); done.
Qed.

Lemma table_written_after_close_witness :
  ∃ name lines evs o,
    main env_batch tt []
    = (settled o, tt,
       evs ++ EvBrowserClose (Returns tt)
           :: EvWriteFile name (join [10%N] lines) o
           :: match o with
              | Returns _ => [EvLog (msg_done name)]
              | Rejects _ => []
              end).
Proof.
  destruct (table_written_after_close env_batch []
              (Response CSV_URL 200 (Returns (js "name,website")))
              (js "name,website") up_record [down_record])
    as (name & records' & lines & evs & o & _ & _ & _ & _ & _ & E);
    [reflexivity | reflexivity | reflexivity | reflexivity | reflexivity |].
  exists name, lines, evs, o. exact E.
Defined.

(** X16: on every environment the run settles; every request carries the
    browser-like user agent, every page that opens gets that user agent set
    as the very next call, every navigation is bounded by 30 s, the browser
    is launched at most once and at most one file is written. *)
Theorem run_is_bounded (env : environment) (tr : trace) :
  ∃ r evs,
    main env tt tr = (r, tt, tr ++ evs) ∧
    r ≠ Diverge ∧
    Forall polite evs ∧
    agent_set_first evs ∧
    length (filter is_launch_event evs) ≤ 1 ∧
    length (filter is_write_event evs) ≤ 1.
Proof.
  rewrite main_source.
  destruct (net_fetch env tr CSV_URL) as [resp|e] eqn:H1.
  2:{ eexists _, _. split; [reflexivity|].
      split_and!; [done | by repeat constructor | done | |]; count_events; simpl; lia. }
  cbv zeta.
  destruct (res_text resp) as [body|e] eqn:H2.
  2:{ eexists _, _. split; [reflexivity|].
      split_and!; [done | by repeat constructor | done | |]; count_events; simpl; lia. }
  destruct (csv_parse env (replace_first bom_re [] body)) as [[|rec rest]|e] eqn:H3.
  1:{ eexists _, _. split; [by rewrite <- app_assoc|].
      split_and!; [done | by repeat constructor | done | |]; count_events; simpl; lia. }
  2:{ eexists _, _. split; [reflexivity|].
      split_and!; [done | by repeat constructor | done | |]; count_events; simpl; lia. }
  destruct (main_records env rec rest (tr ++ [EvFetch CSV_URL BROWSER_UA (Returns resp)]))
    as (name & evsB & records' & evsD & lines & HB & HF & Hf & Hr & Hag & Hl & _ & E).
  cbv zeta in E. rewrite E. clear E.
  destruct (record_events_quiet _ Hr) as (HqL & HqW & HqP).
  assert (HBq : filter is_launch_event evsB = [] ∧ filter is_write_event evsB = [] ∧
                Forall polite evsB ∧ agent_set_first evsB).
  { destruct HB as [-> | [msg ->]]; split_and!; try done. by repeat constructor. }
  destruct HBq as (HbL & HbW & HbP & HbA).
  destruct (puppeteer_launch env _) as [[]|e].
  2:{ eexists _, _. split; [by repeat (rewrite <- ?app_assoc; cbn [app])|].
      split_and!; [done | | | |].
      - repeat (constructor; [done|]). apply Forall_app. split; [done|]. by repeat constructor.
      - do 2 (split; [done|]). by apply agent_set_first_app.
      - count_events. rewrite HbL. simpl. lia.
      - count_events. rewrite HbW. simpl. lia. }
  destruct (browser_close env _) as [[]|e].
  2:{ eexists _, _. split; [by repeat (rewrite <- ?app_assoc; cbn [app])|].
      split_and!; [done | | | |].
      - repeat (constructor; [done|]). apply Forall_app. split; [done|].
        constructor; [done|]. apply Forall_app. split; [done|]. by repeat constructor.
      - do 2 (split; [done|]). apply agent_set_first_app; [done|].
        split; [done|]. by apply agent_set_first_app.
      - count_events. rewrite HbL, HqL. simpl. lia.
      - count_events. rewrite HbW, HqW. simpl. lia. }
  destruct (fs_writeFile env _ name _) as [[]|e];
    (eexists _, _; split; [by repeat (rewrite <- ?app_assoc; cbn [app])|];
     split_and!; [done | | | |];
     [ repeat (constructor; [done|]); apply Forall_app; split; [done|];
       constructor; [done|]; apply Forall_app; split; [done|]; by repeat constructor
     | do 2 (split; [done|]); apply agent_set_first_app; [done|];
       split; [done|]; by apply agent_set_first_app
     | count_events; rewrite HbL, HqL; simpl; lia
     | count_events; rewrite HbW, HqW; simpl; lia ]).
Qed.

(* ===================================================================== *)
(** * 24. The extractor: plain addresses are not lost *)
(* ===================================================================== *)

(** ** Candidates that are plain addresses *)

Lemma decode_plain fuel : ∀ s,
  length s ≤ fuel -> ch "%" ∉ s -> decode_fuel fuel s = Some s.
Proof.
  induction fuel as [|fuel IH]; intros [|c s] Hl Hs; simpl in *; try done; [lia|].
  apply not_elem_of_cons in Hs as [Hc Hs].
  replace (c =? 37)%N with false
    by (symmetry; apply N.eqb_neq; intros ->; by apply Hc).
  rewrite IH; [done | lia | done].
Qed.

(** A text that is a match as a whole is what [match] finds in it. *)
Lemma whole_match w :
  whole_address w -> ∃ m, str_match strictRe w = Some m ∧ m_text m = w.
Proof.
  intros Hw.
  destruct (str_match strictRe w) as [m|] eqn:E.
  2:{ by apply (proj1 (str_match_none _ _) E) in Hw. }
  exists m. split; [done|].
  pose proof (strict_longest_at_start _ _ E) as Hlong.
  apply str_match_leftmost in E as (Es & _ & Hleft).
  apply Hleft in Hw as Hb.
  assert (Hb0 : m_before m = []) by (destruct (m_before m); [done | simpl in Hb; lia]).
  rewrite Hb0 in *. simpl in *.
  apply Hlong in Hw.
  assert (Hlen : length w = length (m_text m) + length (m_after m))
    by (rewrite Es at 1; apply length_app).
  assert (Ha : m_after m = []) by (destruct (m_after m); [done | simpl in Hlen; lia]).
  rewrite Ha, app_nil_r in Es. done.
Qed.

Lemma sanitize_plain raw :
  whole_address raw -> ch "%" ∉ raw ->
  (∀ ext, pop (split (ch ".") (toLowerCase raw)) = Some ext -> ext ∉ imageExts) ->
  sanitize raw = Some (toLowerCase raw).
Proof.
  intros Hw Hp Hext. unfold sanitize, decodeURIComponent.
  rewrite decode_plain by done.
  destruct (whole_match _ Hw) as (m & -> & ->).
  destruct (pop (split (ch ".") (toLowerCase raw))) as [ext|] eqn:E; [|done].
  specialize (Hext ext eq_refl).
  unfold set_has. by rewrite bool_decide_eq_false_2.
Qed.

(** X17: no plain address among the candidates is lost: a candidate that
    is an address from its first to its last code unit, holds no percent
    sign and does not end in an image extension is reported, in lower
    case. *)
Theorem plain_candidate_reported (load : jsstring -> document) (html raw : jsstring) :
  raw_candidate (remove script_style (load html)) raw ->
  whole_address raw -> ch "%" ∉ raw ->
  (∀ ext, pop (split (ch ".") (toLowerCase raw)) = Some ext -> ext ∉ imageExts) ->
  ∃ emails, basicScrape load html = Normal emails ∧ toLowerCase raw ∈ emails.
Proof.
  intros Hc Hw Hp Hext. unfold basicScrape. unfold script_style in Hc.
  destruct (harvest_total (remove (Either (Tag (js "script")) (Tag (js "style"))) (load html)))
    as [rawSet Hr].
  exists (sanitize_all rawSet). split; [by rewrite Hr|].
  apply (proj2 (sanitize_all_spec rawSet)). exists raw. split.
  - by apply (harvest_elem _ _ Hr).
  - by apply sanitize_plain.
Qed.

Lemma plain_candidate_reported_witness :
  ∃ emails,
    basicScrape text_load (js "Ask Info@Example.COM today") = Normal emails ∧
    js "info@example.com" ∈ emails.
Proof.
  apply (plain_candidate_reported text_load (js "Ask Info@Example.COM today")
           (js "Info@Example.COM")).
  - right. left. exists [js "Info@Example.COM"]. split; [reflexivity|].
    apply list_elem_of_here.
  - apply (occurs_at_computed strictRe (js "Info@Example.COM") 0
             [[]; js "Info"; js "@"; js "Example"; js "."; js "COM"; []]);
      [apply Nat.le_0_l | reflexivity].
  - apply (bool_decide_unpack _). reflexivity.
  - intros ext E. injection E as <-.
    apply (bool_decide_unpack _). reflexivity.
Defined.

(* ===================================================================== *)
(** * 25. The sanitizing step and the scans, stated on the candidate and on the text *)
(* ===================================================================== *)

(** ** Occurrences *)

Lemma occurs_at_prefix re s i w :
  occurs_at re s i w -> drop i s = w ++ drop (length w) (drop i s).
Proof. intros (ps & <- & Hm & _). by apply matches_split in Hm. Qed.

Lemma occurs_at_same_length re s i w w' :
  occurs_at re s i w -> occurs_at re s i w' -> length w = length w' -> w = w'.
Proof.
  intros H H' Hl. apply occurs_at_prefix in H, H'.
  rewrite H in H'. by apply app_inj_1 in H' as [? _].
Qed.

Lemma leftmost_longest_unique re s i w i' w' :
  leftmost_longest re s i w -> leftmost_longest re s i' w' -> i = i' ∧ w = w'.
Proof.
  intros (Ho & Hl & Hg) (Ho' & Hl' & Hg').
  assert (i = i') as <- by (apply Nat.le_antisymm; eauto).
  split; [done|]. eapply occurs_at_same_length; eauto.
  apply Nat.le_antisymm; eauto.
Qed.

(** [str.match(strictRe)] finds the leftmost match, the longest there. *)
Lemma str_match_leftmost_longest s m :
  str_match strictRe s = Some m ->
  leftmost_longest strictRe s (length (m_before m)) (m_text m).
Proof.
  intros H. pose proof (strict_longest_at_start _ _ H) as Hlong.
  apply str_match_leftmost in H as (_ & Hocc & Hleft).
  split_and!; eauto.
Qed.

(** ** The last segment of a lower-cased match *)

Lemma lower_match_last s m :
  str_match strictRe s = Some m ->
  ∃ x t, toLowerCase (m_text m) = x ++ js "." ++ t ∧ ch "." ∉ t.
Proof.
  intros Hm. apply exec_sound in Hm as (_ & Hm & _).
  apply email_matches_inv in Hm
    as (l & d & t & Hps & _ & _ & _ & _ & _ & Ht & _).
  unfold m_text. rewrite Hps. cbn [concat]. rewrite !app_nil_r.
  unfold toLowerCase. rewrite !map_app.
  change (map lower_unit [ch "."]) with (js ".").
  exists (map lower_unit l ++ map lower_unit [ch "@"] ++ map lower_unit d),
         (map lower_unit t).
  split; [by rewrite <- !app_assoc|].
  apply lower_letter_no_dot, Forall_map.
  eapply Forall_impl; [exact Ht|]. apply lower_alpha.
Qed.

Lemma image_name_last x t :
  ch "." ∉ t -> image_name (x ++ js "." ++ t) <-> t ∈ imageExts.
Proof.
  intros Ht. split.
  - intros (x' & ext & Hin & E).
    pose proof (pop_split (ch ".") x t Ht) as H1.
    pose proof (pop_split (ch ".") x' ext (image_ext_no_dot _ Hin)) as H2.
    change (x ++ ch "." :: t) with (x ++ js "." ++ t) in H1.
    change (x' ++ ch "." :: ext) with (x' ++ js "." ++ ext) in H2.
    rewrite E, H2 in H1. by inversion H1; subst.
  - intros Hin. by exists x, t.
Qed.

(** The sanitizing step, case by case. *)
Lemma sanitize_cases raw :
  (str_match strictRe (decoded raw) = None ∧ sanitize raw = None)
  ∨ ∃ m, str_match strictRe (decoded raw) = Some m ∧
         ((image_name (toLowerCase (m_text m)) ∧ sanitize raw = None)
          ∨ (¬ image_name (toLowerCase (m_text m)) ∧
             sanitize raw = Some (toLowerCase (m_text m)))).
Proof.
  unfold sanitize.
  assert (E : match decodeURIComponent raw with Some d => d | None => raw end
              = decoded raw) by (unfold decoded; by destruct (decodeURIComponent raw)).
  rewrite E. clear E.
  destruct (str_match strictRe (decoded raw)) as [m|] eqn:Em; [right | by left].
  exists m. split; [done|].
  destruct (lower_match_last _ _ Em) as (x & t & Ex & Ht).
  rewrite Ex. rewrite (image_name_last x t Ht).
  change (x ++ js "." ++ t) with (x ++ ch "." :: t).
  rewrite (pop_split (ch ".") x t Ht).
  unfold set_has. case_bool_decide; [by left | by right].
Qed.

Lemma sanitize_kept raw e : sanitize raw = Some e <-> kept raw e.
Proof.
  destruct (sanitize_cases raw) as [[Hn Hs] | (m & Hm & [[Hi Hs] | [Hi Hs]])];
    rewrite Hs.
  - split; [done|]. intros (i & w & (Ho & _) & _).
    by apply (proj1 (str_match_none _ _) Hn) in Ho.
  - split; [done|]. intros (i & w & Hll & -> & Hni).
    destruct (leftmost_longest_unique _ _ _ _ _ _ Hll (str_match_leftmost_longest _ _ Hm))
      as [_ ->]. done.
  - split.
    + intros [= <-]. exists (length (m_before m)), (m_text m).
      split_and!; [by apply str_match_leftmost_longest | done | done].
    + intros (i & w & Hll & -> & Hni).
      by destruct (leftmost_longest_unique _ _ _ _ _ _ Hll
                     (str_match_leftmost_longest _ _ Hm)) as [_ ->].
Qed.

(** C3 (as amended): the sanitizing step decides on the leftmost match of
    the strict pattern in the decoded candidate, the longest at that
    start.  A candidate without a match is dropped; a candidate with one
    has such a leftmost match, and is dropped when that match, lower-cased,
    is an image name, and kept as that match, lower-cased, otherwise.
    Matches that start later play no part, whatever their lengths. *)
Theorem strict_rematch_keeps_leftmost (raw : jsstring) :
  ((∀ i w, ¬ occurs_at strictRe (decoded raw) i w) -> sanitize raw = None)
  ∧ ((∃ i w, occurs_at strictRe (decoded raw) i w) ->
     ∃ i w, leftmost_longest strictRe (decoded raw) i w)
  ∧ (∀ i w, leftmost_longest strictRe (decoded raw) i w ->
       (image_name (toLowerCase w) ∧ sanitize raw = None)
       ∨ (¬ image_name (toLowerCase w) ∧ sanitize raw = Some (toLowerCase w))).
Proof.
  destruct (sanitize_cases raw) as [[Hn Hs] | (m & Hm & Hcases)].
  - pose proof (proj1 (str_match_none _ _) Hn) as Hnone. split_and!.
    + done.
    + intros (i & w & Ho). by apply Hnone in Ho.
    + intros i w (Ho & _). by apply Hnone in Ho.
  - pose proof (str_match_leftmost_longest _ _ Hm) as Hll. split_and!.
    + intros Hnone. destruct Hll as (Ho & _). by apply Hnone in Ho.
    + intros _. eauto.
    + intros i w Hw.
      by destruct (leftmost_longest_unique _ _ _ _ _ _ Hw Hll) as [_ ->].
Qed.

Lemma strict_rematch_keeps_leftmost_witness :
  ∃ i w, leftmost_longest strictRe (decoded two_recipients) i w ∧
         sanitize two_recipients = Some (toLowerCase w) ∧
         toLowerCase w = js "a@b.co".
Proof.
  destruct (strict_rematch_keeps_leftmost two_recipients) as (_ & Hex & Hll).
  destruct Hex as (i & w & Hw).
  { exists 0, (js "a@b.co").
    apply (occurs_at_computed strictRe (decoded two_recipients) 0
             [[]; js "a"; js "@"; js "b"; js "."; js "co"; []]);
      [apply Nat.le_0_l | reflexivity]. }
  exists i, w. split; [exact Hw|].
  assert (E : sanitize two_recipients = Some (js "a@b.co")) by reflexivity.
  destruct (Hll i w Hw) as [[_ Hs] | [_ Hs]].
  - rewrite Hs in E. discriminate.
  - split; [exact Hs|]. rewrite Hs in E. by injection E.
Defined.

(** A candidate is dropped with its leftmost match: a later address in it
    does not save it. *)
Lemma image_name_first_drops_candidate :
  sanitize (js "a@b.svg,c@d.org") = None ∧
  occurs_at strictRe (decoded (js "a@b.svg,c@d.org")) 8 (js "c@d.org").
Proof.
  split; [reflexivity|].
  apply (occurs_at_computed strictRe (decoded (js "a@b.svg,c@d.org")) 8
           [[]; js "c"; js "@"; js "d"; js "."; js "org"; []]);
    [vm_compute; lia | reflexivity].
Qed.

(** ** The scanning loop collects the successive matches *)

(** An occurrence in [pre ++ rest] that starts in [rest]. *)
Lemma occurs_at_shift re pre rest k w :
  occurs_at re (pre ++ rest) (length pre + k) w <->
  ∃ ps, concat ps = w ∧
        matches re (last_or (last pre) (take k rest)) (drop k rest) ps
                (drop (length w) (drop k rest)) ∧
        k ≤ length rest.
Proof.
  unfold occurs_at.
  rewrite take_app_ge, drop_app_ge by lia.
  replace (length pre + k - length pre) with k by lia.
  rewrite last_app_last_or, length_app.
  split; intros (ps & H1 & H2 & H3); exists ps; split_and!; auto; lia.
Qed.

Lemma successive_unique re s from ws :
  successive re s from ws -> ∀ ws', successive re s from ws' -> ws = ws'.
Proof.
  induction 1 as [from Hnone | from i w ws Hi Ho Hleft Hlong _ IH];
    intros ws' H'; inversion H' as [? Hnone' | ? i' w' ws0 Hi' Ho' Hleft' Hlong' Hrest'];
    subst.
  - done.
  - by apply Hnone in Ho'.
  - by apply Hnone' in Ho.
  - assert (i = i') as <- by (apply Nat.le_antisymm; eauto).
    assert (w = w') as <-.
    { eapply occurs_at_same_length; eauto. apply Nat.le_antisymm; eauto. }
    f_equal. by apply IH.
Qed.

Lemma exec_loop_fuel_successive fuel : ∀ pre rest found,
  exec_loop_fuel fuel looseRe (last pre) rest = Some found ->
  successive looseRe (pre ++ rest) (length pre) found.
Proof.
  induction fuel as [|fuel IH]; intros pre rest found H; [done|].
  simpl in H. destruct (exec looseRe (last pre) rest) as [m|] eqn:E.
  2:{ inversion H; subst. constructor. intros i w Hi Ho.
      replace i with (length pre + (i - length pre)) in Ho by lia.
      apply occurs_at_shift in Ho as (ps & _ & Hm & Hk).
      apply seq_match_complete in Hm as [ps' Hps].
      by rewrite (exec_none _ _ _ E _ Hk) in Hps. }
  destruct (m_text m) as [|c t] eqn:Et; [done|].
  destruct (exec_loop_fuel fuel looseRe (last (c :: t)) (m_after m)) as [found'|] eqn:E';
    [|done].
  simpl in H. inversion H; subst; clear H.
  pose proof (exec_seq_match _ _ _ _ E) as Hseq.
  apply exec_sound in E as (Er & Hm & Hbefore).
  assert (Htake : take (length (m_before m)) rest = m_before m)
    by (rewrite Er; apply take_app_length).
  assert (Hdrop : drop (length (m_before m)) rest = m_text m ++ m_after m)
    by (rewrite Er; apply drop_app_length).
  apply (successive_next _ _ _ (length pre + length (m_before m))).
  - lia.
  - apply occurs_at_shift. exists (m_pieces m).
    rewrite Htake, Hdrop, <- Et, drop_app_length.
    split_and!; [done | done | rewrite Er, !length_app; lia].
  - intros j w' Hj Ho.
    destruct (decide (length pre + length (m_before m) ≤ j)) as [|Hlt]; [done|].
    replace j with (length pre + (j - length pre)) in Ho by lia.
    apply occurs_at_shift in Ho as (ps & _ & Hm' & _).
    apply seq_match_complete in Hm' as [ps' Hps].
    rewrite Hbefore in Hps by lia. done.
  - intros w' Ho. apply occurs_at_shift in Ho as (ps & <- & Hm' & _).
    rewrite Htake, Hdrop in Hm'.
    rewrite <- Et. unfold m_text.
    eapply email_seq_longest; [exact Hseq | exact Hm'].
  - assert (Hl : last (c :: t) = last ((pre ++ m_before m) ++ c :: t)).
    { rewrite (last_app _ (c :: t)).
      destruct (last (c :: t)) eqn:El; [done|]. by apply last_None in El. }
    rewrite Hl in E'. apply IH in E'.
    rewrite Er, Et.
    replace (length pre + length (m_before m) + length (c :: t))
      with (length ((pre ++ m_before m) ++ c :: t)) by (rewrite !length_app; lia).
    replace (pre ++ m_before m ++ (c :: t) ++ m_after m)
      with (((pre ++ m_before m) ++ c :: t) ++ m_after m)
      by (by rewrite <- !app_assoc).
    exact E'.
Qed.

(** The loop over [looseRe.exec] collects exactly the successive matches of
    the text. *)
Lemma exec_loop_successive str found :
  exec_loop looseRe str = Some found <-> successive looseRe str 0 found.
Proof.
  split.
  - intros H. apply (exec_loop_fuel_successive _ [] str found H).
  - intros H.
    destruct (exec_loop_fuel_total looseRe email_match_nonempty
                (S (length str)) None str) as [found0 Hf]; [lia|].
    pose proof (exec_loop_fuel_successive _ [] str found0 Hf) as H0.
    simpl in H0. rewrite (successive_unique _ _ _ _ H _ H0). exact Hf.
Qed.

(** ** The candidates, stated on the document *)

Lemma mailto_candidate_target (d : document) (link : node) :
  link ∈ select mailto_links d ->
  ∃ target,
    attr (js "href") link = Some (js "mailto:" ++ target) ∧
    mailto_candidate link = Normal (trim (before (ch "?") target)).
Proof.
  intros H. apply select_matches in H as (name & attribs & children & -> & Hm).
  unfold mailto_links in Hm. cbn [sel_matches] in Hm.
  apply andb_true_iff in Hm as [_ Hm].
  unfold mailto_candidate, attr.
  destruct (lookup_attr (js "href") attribs) as [href|]; [|done].
  apply starts_with_app in Hm as [target ->].
  exists target. split; [done|].
  change (defined (Some (js "mailto:" ++ target)) ≫= ?f)
    with (f (js "mailto:" ++ target)).
  cbv beta. unfold mailto_re. rewrite replace_first_prefix.
  unfold first_seg. rewrite head_split. done.
Qed.

Lemma raw_candidate_candidate d raw : raw_candidate d raw <-> candidate d raw.
Proof.
  unfold raw_candidate, candidate, scanned. split.
  - intros [(link & Hl & Hc) | [(found & Hf & Hin) | (elem & value & found & He & Hv & Hf & Hin)]].
    + left. destruct (mailto_candidate_target d link Hl) as (target & Ha & Hc').
      exists link, target. split_and!; [done | done | congruence].
    + right. left. exists found. split; [by apply exec_loop_successive | done].
    + right. right. exists elem, value. split_and!; [done | done |].
      exists found. split; [by apply exec_loop_successive | done].
  - intros [(link & target & Hl & Ha & ->) | [(found & Hf & Hin) | (elem & value & He & Hv & found & Hf & Hin)]].
    + left. exists link. split; [done|].
      destruct (mailto_candidate_target d link Hl) as (target' & Ha' & Hc').
      rewrite Ha in Ha'. injection Ha' as Ha'. by subst target'.
    + right. left. exists found. split; [by apply exec_loop_successive | done].
    + right. right. exists elem, value, found.
      split_and!; [done | done | by apply exec_loop_successive | done].
Qed.

(** X2: the addresses returned are exactly those kept from the candidates
    of the document without its script and style subtrees.  The candidates
    are the targets of the [mailto:] links (cut at the first question mark,
    trimmed) and the successive matches of the pattern in the text of
    [body] and in every attribute value: every match met from left to
    right, each resuming where the one before ended.  An address is kept
    from a candidate as the lower-cased leftmost match of the pattern in
    the decoded candidate, unless that is an image name. *)
Theorem extract_is_sanitized_candidates (load : jsstring -> document) (html : jsstring) :
  ∃ emails,
    basicScrape load html = Normal emails ∧
    ∀ e, e ∈ emails <->
         ∃ raw, candidate (remove script_style (load html)) raw ∧ kept raw e.
Proof.
  unfold basicScrape, script_style.
  destruct (harvest_total (remove (Either (Tag (js "script")) (Tag (js "style"))) (load html)))
    as [rawSet Hr].
  exists (sanitize_all rawSet). split; [by rewrite Hr|].
  intros e. rewrite (proj2 (sanitize_all_spec rawSet) e).
  split; intros (raw & H1 & H2); exists raw; split.
  - by apply raw_candidate_candidate, (harvest_elem _ _ Hr).
  - by apply sanitize_kept.
  - by apply (harvest_elem _ _ Hr), raw_candidate_candidate.
  - by apply sanitize_kept.
Qed.
